(** * NetScan: public-address detection and name resolution

    A shallow embedding of [ip_project/services/public_ip.py],
    [ip_project/services/resolution.py] and
    [ip_project/utils/config.py] (all but reading and writing the
    configuration file), with the properties of the design document
    stated and settled against that embedding, followed by properties of
    the functions those do not reach.

    Conventions of the embedding.
    - Python objects that are shared and mutated ([IPService] instances,
      the [list] objects that hold them) live in an explicit store and are
      named by locations; copying a list allocates a new list object whose
      items are the same locations.
    - A [dict] whose iteration order matters is an association list; the
      resolver's cache is a [gmap string DNSRecord].
    - Exceptions are values of [Py.exn]; a call that may raise returns a
      [Py.result].
    - The network, the name service and the clock are inputs: each function
      receives what the environment answers during the call.
    - Clock readings and TTLs are integers (ticks of an arbitrary unit).
    - Logging is not modelled (the logger calls neither raise nor touch the
      state the properties are about). *)

From Stdlib Require Import ZArith String Ascii List Lia.
From stdpp Require Import base option list gmap strings pretty.

Open Scope string_scope.
Open Scope list_scope.
Open Scope Z_scope.
Set Warnings "-register-all".

(** ** Python exceptions and results *)

Module Py.

Inductive exn :=
  | URLError (reason : string)
  | HTTPError (code : Z) (reason : string)
  | socket_timeout (msg : string)
  | gaierror (msg : string)
  | herror (msg : string)
  | NameError (name : string)
  | TypeError (msg : string)
  | ValueError (msg : string)
  | TimeoutError
  | OtherException (msg : string).

Inductive result (A : Type) :=
  | Return (a : A)
  | Raise (e : exn).
Arguments Return {A} a.
Arguments Raise {A} e.

Definition bind {A B} (m : result A) (k : A -> result B) : result B :=
  match m with
  | Return a => k a
  | Raise e => Raise e
  end.

(** [issubclass(type(e), urllib.error.URLError)]: [HTTPError] derives from
    [URLError]. *)
Definition is_URLError (e : exn) : bool :=
  match e with
  | URLError _ | HTTPError _ _ => true
  | _ => false
  end.

Definition is_HTTPError (e : exn) : bool :=
  match e with
  | HTTPError _ _ => true
  | _ => false
  end.

Definition is_socket_timeout (e : exn) : bool :=
  match e with
  | socket_timeout _ => true
  | _ => false
  end.

Definition reason_of (e : exn) : string :=
  match e with
  | URLError r | HTTPError _ r => r
  | socket_timeout m | gaierror m | herror m | TypeError m
  | ValueError m | OtherException m => m
  | NameError n => "name '" +:+ n +:+ "' is not defined"
  | TimeoutError => EmptyString
  end.

(** [str.strip()] on the ASCII range: the characters for which
    [str.isspace] holds are TAB, LF, VT, FF, CR, FS, GS, RS, US and space. *)
Definition isspace (c : ascii) : bool :=
  let n := nat_of_ascii c in
  ((9 <=? n) && (n <=? 13) || (28 <=? n) && (n <=? 32))%nat.

Fixpoint lstrip (s : string) : string :=
  match s with
  | String c rest => if isspace c then lstrip rest else s
  | EmptyString => EmptyString
  end.

Fixpoint rstrip (s : string) : string :=
  match s with
  | String c rest =>
      match rstrip rest with
      | EmptyString => if isspace c then EmptyString else String c EmptyString
      | r => String c r
      end
  | EmptyString => EmptyString
  end.

Definition strip (s : string) : string := rstrip (lstrip s).

(** Truth value of a [str]: non-empty. *)
Definition truthy (s : string) : bool :=
  match s with
  | EmptyString => false
  | _ => true
  end.

(** [str.split(".")]. *)
Fixpoint split_dot (s : string) : list string :=
  match s with
  | EmptyString => [EmptyString]
  | String c rest =>
      if Ascii.eqb c "." then EmptyString :: split_dot rest
      else match split_dot rest with
           | w :: ws => String c w :: ws
           | [] => [String c EmptyString]
           end
  end.

End Py.

(** ** [utils/config.py]: the configuration manager *)

Module Config.

(** JSON-like configuration values. *)
Inductive value :=
  | VNone
  | VBool (b : bool)
  | VInt (n : Z)
  | VStr (s : string)
  | VDict (items : list (string * value)).

Fixpoint assoc (k : string) (items : list (string * value)) : option value :=
  match items with
  | [] => None
  | (k', v) :: rest => if bool_decide (k' = k) then Some v else assoc k rest
  end.

(** [isinstance(value, dict) and part in value], then [value[part]]. *)
Definition index (v : value) (part : string) : option value :=
  match v with
  | VDict items => assoc part items
  | _ => None
  end.

Record ConfigManager := {
  _config : value;
  _defaults : value
}.

Definition _set_defaults : value :=
  VDict [
    ("ui", VDict [
       ("theme", VStr "dark");
       ("window_size", VDict [("width", VInt 800); ("height", VInt 600)]);
       ("show_toolbar", VBool true);
       ("show_statusbar", VBool true)]);
    ("ip_services", VDict [
       ("ipify", VDict [
          ("url", VStr "https://api.ipify.org");
          ("timeout", VInt 10);
          ("enabled", VBool true)]);
       ("ipinfo", VDict [
          ("url", VStr "https://ipinfo.io/ip");
          ("timeout", VInt 10);
          ("enabled", VBool true)]);
       ("ifconfig", VDict [
          ("url", VStr "https://ifconfig.me/ip");
          ("timeout", VInt 10);
          ("enabled", VBool true)])]);
    ("dns_resolver", VDict [
       ("enable_cache", VBool true);
       ("default_ttl", VInt 300)]);
    ("logging", VDict [
       ("level", VStr "INFO");
       ("file", VStr "logs/ip_project.log")])].

(** [ConfigManager()] with no configuration file. *)
Definition __init__ : ConfigManager :=
  {| _config := VDict []; _defaults := _set_defaults |}.

(** The inner loop of [get]: walk every part from the defaults; [None]
    stands for [return default]. *)
Fixpoint walk_defaults (v : value) (parts : list string) : option value :=
  match parts with
  | [] => Some v
  | part :: rest =>
      match index v part with
      | Some v' => walk_defaults v' rest
      | None => None
      end
  end.

(** The outer loop of [get]. When a part is missing the value restarts
    from the defaults, walked with all the parts, and the outer loop goes
    on with its remaining parts. *)
Fixpoint walk (self : ConfigManager) (all_parts : list string)
    (v : value) (parts : list string) : option value :=
  match parts with
  | [] => Some v
  | part :: rest =>
      match index v part with
      | Some v' => walk self all_parts v' rest
      | None =>
          match walk_defaults (_defaults self) all_parts with
          | Some v' => walk self all_parts v' rest
          | None => None
          end
      end
  end.

Definition get (self : ConfigManager) (key : string) (default : value) : value :=
  let parts := Py.split_dot key in
  match walk self parts (_config self) parts with
  | Some VNone => default
  | Some v => v
  | None => default
  end.

(** [config.get(k, d)] on a value that is known to be a [dict]. *)
Definition dict_get (items : list (string * value)) (k : string) (d : value) : value :=
  match assoc k items with
  | Some v => v
  | None => d
  end.

(** [config[k] = v] on a [dict]: an existing key keeps its place, a new
    key goes last. *)
Fixpoint assoc_set (k : string) (v : value) (items : list (string * value))
    : list (string * value) :=
  match items with
  | [] => [(k, v)]
  | (k', v') :: rest =>
      if bool_decide (k' = k) then (k, v) :: rest
      else (k', v') :: assoc_set k v rest
  end.


(** The body of [set] on the parts of the key: every part but the last is
    entered, created as an empty [dict] when missing, and the last part is
    assigned. A value on the way that is not a [dict] supports neither
    [in] with the following steps nor item assignment: [TypeError], raised
    before anything was created. A key always has at least one part. *)
Fixpoint set_path (config : value) (parts : list string) (v : value) : Py.result value :=
  match parts with
  | [] => Py.Raise (Py.OtherException "list index out of range")
  | [last] =>
      match config with
      | VDict items => Py.Return (VDict (assoc_set last v items))
      | _ => Py.Raise (Py.TypeError "object does not support item assignment")
      end
  | part :: rest =>
      match config with
      | VDict items =>
          let sub := match assoc part items with
                     | Some s => s
                     | None => VDict []
                     end in
          match set_path sub rest v with
          | Py.Return sub' => Py.Return (VDict (assoc_set part sub' items))
          | Py.Raise e => Py.Raise e
          end
      | _ => Py.Raise (Py.TypeError "object does not support item assignment")
      end
  end.

(** [set(key, value)]; when it raises, the manager is as before. *)
Definition set (self : ConfigManager) (key : string) (v : value) : Py.result ConfigManager :=
  match set_path (_config self) (Py.split_dot key) v with
  | Py.Return c => Py.Return {| _config := c; _defaults := _defaults self |}
  | Py.Raise e => Py.Raise e
  end.

(** [reset()]. *)
Definition reset (self : ConfigManager) : ConfigManager :=
  {| _config := VDict []; _defaults := _defaults self |}.








(** What [get] answers for a value found: [None] gives way to the
    caller's default. *)
Definition or_default (v d : value) : value :=
  match v with
  | VNone => d
  | _ => v
  end.

Definition is_dict (v : value) : bool :=
  match v with
  | VDict _ => true
  | _ => false
  end.

End Config.

(** ** [services/public_ip.py]: the service registry and the detector *)

Module PublicIP.
Import Py.

(** The dataclass [IPService], typed as annotated. *)
Record IPService := {
  name : string;
  url : string;
  timeout : Z;
  enabled : bool
}.

Definition set_enabled (s : IPService) (b : bool) : IPService :=
  {| name := name s; url := url s; timeout := timeout s; enabled := b |}.

Definition set_url (s : IPService) (u : string) : IPService :=
  {| name := name s; url := u; timeout := timeout s; enabled := enabled s |}.

(** [IPService.__eq__]: equality is by name alone. *)
Definition IPService_eq (a b : IPService) : bool :=
  bool_decide (name a = name b).

(** Locations of objects in the store. *)
Abbreviation loc := nat (only parsing).

(** What the detector does to the outside: a probe handed to the worker
    pool, an HTTP request sent. *)
Inductive event :=
  | Submit (service_name : string)
  | Urlopen (u : string) (t : Z).

(** The interpreter state the module works on: the [IPService] objects,
    the [list] objects (each a sequence of locations of [IPService]
    objects), and the trace of outside events. Objects are never freed. *)
Record world := {
  objects : list IPService;
  lists : list (list loc);
  trace : list event
}.

Definition with_objects (w : world) (o : list IPService) : world :=
  {| objects := o; lists := lists w; trace := trace w |}.

Definition with_lists (w : world) (l : list (list loc)) : world :=
  {| objects := objects w; lists := l; trace := trace w |}.

Definition emit (w : world) (e : event) : world :=
  {| objects := objects w; lists := lists w; trace := trace w ++ [e] |}.

(** [IPService(...)]: a new object. *)
Definition new_service (s : IPService) (w : world) : loc * world :=
  (length (objects w), with_objects w (objects w ++ [s])).

(** A new list object. *)
Definition new_list (items : list loc) (w : world) : loc * world :=
  (length (lists w), with_lists w (lists w ++ [items])).

Definition items_of (w : world) (l : loc) : list loc :=
  default [] (lists w !! l).

Definition store_items (w : world) (l : loc) (items : list loc) : world :=
  with_lists w (<[l := items]> (lists w)).

(** [l.copy()]: a new list object with the same items. *)
Definition list_copy (l : loc) (w : world) : loc * world :=
  new_list (items_of w l) w.

(** The module as imported: the four [IPService] objects of
    [DEFAULT_SERVICES] and the class-level list that holds them. *)
Definition DEFAULT_SERVICES : loc := 0%nat.

Definition module_world : world :=
  {| objects := [
       {| name := "ipify"; url := "https://api.ipify.org"; timeout := 10; enabled := true |};
       {| name := "ipinfo"; url := "https://ipinfo.io/ip"; timeout := 10; enabled := true |};
       {| name := "ifconfig"; url := "https://ifconfig.me/ip"; timeout := 10; enabled := true |};
       {| name := "icanhazip"; url := "https://icanhazip.com"; timeout := 10; enabled := true |}];
     lists := [[0; 1; 2; 3]%nat];
     trace := [] |}.

(** Names bound at module level; a name that a function does not assign
    is looked up here (no builtin is called [service_name] or
    [query_service]). *)
Definition module_globals : list string :=
  ["urllib"; "socket"; "threading"; "List"; "Optional"; "Callable";
   "dataclass"; "ThreadPoolExecutor"; "as_completed"; "get_logger";
   "ConfigManager"; "IPService"; "PublicIPDetector"].

(** Loading a global name: the name itself stands for the object bound
    to it. *)
Definition load_global (x : string) : result string :=
  if bool_decide (x ∈ module_globals) then Return x else Raise (NameError x).

(** Calling one of the module-level objects with an [IPService] and
    unpacking the result into three names: none of them is a function of
    one service that returns a triple. *)
Definition call_global (g : string) : result (string * option string * option string) :=
  Raise (TypeError g).

Record PublicIPDetector := {
  _services : loc;
  _last_used_service : option string;
  _config : Config.ConfigManager
}.

Definition with_services (self : PublicIPDetector) (l : loc) : PublicIPDetector :=
  {| _services := l; _last_used_service := _last_used_service self;
     _config := _config self |}.

Definition with_last_used (self : PublicIPDetector) (n : option string) : PublicIPDetector :=
  {| _services := _services self; _last_used_service := n;
     _config := _config self |}.

(** The registry as an observer sees it: for each position, the record
    stored at the location the list holds there. *)
Definition registry (w : world) (self : PublicIPDetector) : list (option IPService) :=
  (λ a, objects w !! a) <$> items_of w (_services self).

(** Index of the first item whose object is called [n]: the search of the
    loops [for i, existing in enumerate(self._services)]. A location that
    holds no object does not occur in a store built by the operations
    below (see [wf]); the loops pass over it. *)
Fixpoint find_name (objs : list IPService) (n : string) (items : list loc) : option nat :=
  match items with
  | [] => None
  | a :: rest =>
      match objs !! a with
      | Some existing =>
          if bool_decide (name existing = n) then Some 0%nat
          else S <$> find_name objs n rest
      | None => S <$> find_name objs n rest
      end
  end.

(** [_update_service(service)], [service] being the location of the
    object passed: the first entry of that name is replaced at its index,
    or the object is appended. *)
Definition _update_service (self : PublicIPDetector) (service : loc) (w : world) : world :=
  let items := items_of w (_services self) in
  match objects w !! service with
  | None => w
  | Some s =>
      match find_name (objects w) (name s) items with
      | Some i => store_items w (_services self) (<[i := service]> items)
      | None => store_items w (_services self) (items ++ [service])
      end
  end.

Definition add_service (self : PublicIPDetector)
    (n u : string) (t : Z) (e : bool) (w : world) : world :=
  let '(service, w1) :=
    new_service {| name := n; url := u; timeout := t; enabled := e |} w in
  _update_service self service w1.

(** [remove_service(name)]: [self._services.pop(i)] at the first match. *)
Definition remove_service (self : PublicIPDetector) (n : string) (w : world) : bool * world :=
  let items := items_of w (_services self) in
  match find_name (objects w) n items with
  | Some i => (true, store_items w (_services self) (delete i items))
  | None => (false, w)
  end.

(** The loop of [_set_service_enabled]: the first object called [n] is
    mutated in place. *)
Fixpoint set_enabled_loop (n : string) (b : bool) (items : list loc)
    (w : world) : bool * world :=
  match items with
  | [] => (false, w)
  | a :: rest =>
      match objects w !! a with
      | Some service =>
          if bool_decide (name service = n)
          then (true, with_objects w (<[a := set_enabled service b]> (objects w)))
          else set_enabled_loop n b rest w
      | None => set_enabled_loop n b rest w
      end
  end.

Definition _set_service_enabled (self : PublicIPDetector) (n : string) (b : bool)
    (w : world) : bool * world :=
  set_enabled_loop n b (items_of w (_services self)) w.

Definition enable_service (self : PublicIPDetector) (n : string) (w : world) :=
  _set_service_enabled self n true w.

Definition disable_service (self : PublicIPDetector) (n : string) (w : world) :=
  _set_service_enabled self n false w.

(** [get_available_services()]: [self._services.copy()]. *)
Definition get_available_services (self : PublicIPDetector) (w : world) : loc * world :=
  list_copy (_services self) w.

(** One configuration entry as an [IPService]; missing fields fall back
    to the empty string, [10] and [True]. The record is typed as the dataclass
    annotates it, so an entry with a field of another type has no image
    here; the built-in table, the only configuration a detector reads
    when it is constructed, has none. *)
Definition service_of_config (n : string) (config : list (string * Config.value))
    : option IPService :=
  match Config.dict_get config "url" (Config.VStr EmptyString),
        Config.dict_get config "timeout" (Config.VInt 10),
        Config.dict_get config "enabled" (Config.VBool true) with
  | Config.VStr u, Config.VInt t, Config.VBool e =>
      Some {| name := n; url := u; timeout := t; enabled := e |}
  | _, _, _ => None
  end.

Fixpoint load_loop (self : PublicIPDetector) (entries : list (string * Config.value))
    (w : world) : world :=
  match entries with
  | [] => w
  | (n, Config.VDict config) :: rest =>
      match service_of_config n config with
      | Some s =>
          let '(service, w1) := new_service s w in
          load_loop self rest (_update_service self service w1)
      | None => load_loop self rest w
      end
  | _ :: rest => load_loop self rest w
  end.

(** A value that is not a [dict] has no [items]: the [AttributeError] is
    caught and logged. *)
Definition _load_services_from_config (self : PublicIPDetector) (w : world) : world :=
  match Config.get (_config self) "ip_services" (Config.VDict []) with
  | Config.VDict entries => load_loop self entries w
  | _ => w
  end.

(** [PublicIPDetector(services)]; [services] is the location of the
    caller's list, or [None]. *)
Definition __init__ (services : option loc) (w : world) : PublicIPDetector * world :=
  let '(l, w1) :=
    match services with
    | Some l => (l, w)
    | None => list_copy DEFAULT_SERVICES w
    end in
  let self := {| _services := l; _last_used_service := None;
                 _config := Config.__init__ |} in
  (self, _load_services_from_config self w1).

(** [refresh_services()]: a new copy of the defaults, then the
    configuration again. *)
Definition refresh_services (self : PublicIPDetector) (w : world) : PublicIPDetector * world :=
  let '(l, w1) := list_copy DEFAULT_SERVICES w in
  let self' := with_services self l in
  (self', _load_services_from_config self' w1).

Definition get_last_used_service (self : PublicIPDetector) : option string :=
  _last_used_service self.

(** *** Probing *)

(** What [urlopen(...)], [read()] and [decode('utf-8')] give together:
    the decoded body, or the exception one of them raised. *)
Inductive http_result :=
  | Body (text : string)
  | Fails (e : exn).

(** The result of [query_service]: [(service_name, ip, error)]. *)
Definition outcome : Type := string * option string * option string.

Section Network.

(** The network: the answer to a request may depend on everything that
    happened before it. *)
Variable network : list event -> string -> Z -> http_result.

Definition urlopen (u : string) (t : Z) (w : world) : http_result * world :=
  (network (trace w) u t, emit w (Urlopen u t)).

(** The function [query_service] local to [detect_public_ip]. The
    handlers are tried in the order written, so the [HTTPError] clause
    comes after the [URLError] clause that already matches it. *)
Definition query_service (service : IPService) (w : world) : outcome * world :=
  let '(r, w1) := urlopen (url service) (timeout service) w in
  match r with
  | Body text => ((name service, Some (strip text), None), w1)
  | Fails e =>
      let error :=
        if is_URLError e then "URL error: " +:+ reason_of e
        else if is_HTTPError e then
          match e with
          | HTTPError code r => "HTTP error " +:+ pretty code +:+ ": " +:+ r
          | _ => EmptyString
          end
        else if is_socket_timeout e then "Timeout: " +:+ reason_of e
        else "Unexpected error: " +:+ reason_of e in
      ((name service, None, Some error), w1)
  end.

Definition is_enabled (w : world) (a : loc) : bool :=
  match objects w !! a with
  | Some s => enabled s
  | None => false
  end.

Fixpoint submit_all (svcs : list loc) (w : world) : world :=
  match svcs with
  | [] => w
  | a :: rest =>
      match objects w !! a with
      | Some s => submit_all rest (emit w (Submit (name s)))
      | None => submit_all rest w
      end
  end.

(** The pool takes the submitted probes in the order submitted; leaving
    the [with] block waits for every one of them, also after a [return]. *)
Fixpoint run_workers (svcs : list loc) (w : world) : list outcome * world :=
  match svcs with
  | [] => ([], w)
  | a :: rest =>
      match objects w !! a with
      | Some s =>
          let '(o, w1) := query_service s w in
          let '(os, w2) := run_workers rest w1 in
          (o :: os, w2)
      | None => run_workers rest w
      end
  end.

(** The loop over [as_completed]: [yielded] lists the futures (by
    position among the enabled services) in the order they are yielded. *)
Fixpoint race (outcomes : list outcome) (yielded : list nat) : option (string * string) :=
  match yielded with
  | [] => None
  | i :: rest =>
      match outcomes !! i with
      | Some (service_name, Some ip, _) =>
          if truthy ip then Some (service_name, ip) else race outcomes rest
      | _ => race outcomes rest
      end
  end.

(** [detect_public_ip(timeout, max_workers)]. The scheduler's part is
    the argument [yielded]: the futures that complete within [timeout],
    in completion order; when fewer than all complete and none of them
    succeeded, [as_completed] raises [TimeoutError]. *)
Definition detect_public_ip (self : PublicIPDetector) (caller_timeout max_workers : Z)
    (yielded : list nat) (w : world)
    : result (option string) * PublicIPDetector * world :=
  let enabled_services := List.filter (is_enabled w) (items_of w (_services self)) in
  match enabled_services with
  | [] => (Return None, self, w)
  | _ :: _ =>
      if max_workers <=? 0
      then (Raise (ValueError "max_workers must be greater than 0"), self, w)
      else
        let w1 := submit_all enabled_services w in
        let '(outcomes, w2) := run_workers enabled_services w1 in
        match race outcomes yielded with
        | Some (service_name, ip) =>
            (Return (Some ip), with_last_used self (Some service_name), w2)
        | None =>
            if (length yielded <? length enabled_services)%nat
            then (Raise TimeoutError, self, w2)
            else (Return None, self, w2)
        end
  end.

(** The body of the [with urlopen(...)] block of
    [detect_public_ip_sync]: [service_name] is not assigned in that
    function, so it is loaded as a global. *)
Definition sync_body (text : string) : result (string * string) :=
  let ip := strip text in
  bind (load_global "service_name") (λ service_name, Return (service_name, ip)).

Fixpoint sync_loop (self : PublicIPDetector) (caller_timeout : Z) (items : list loc)
    (w : world) : option string * PublicIPDetector * world :=
  match items with
  | [] => (None, self, w)
  | a :: rest =>
      match objects w !! a with
      | None => sync_loop self caller_timeout rest w
      | Some service =>
          if negb (enabled service) then sync_loop self caller_timeout rest w
          else
            let '(r, w1) :=
              urlopen (url service) (Z.min (timeout service) caller_timeout) w in
            let attempt :=
              match r with
              | Body text => sync_body text
              | Fails e => Raise e
              end in
            match attempt with
            | Return (service_name, ip) =>
                (Some ip, with_last_used self (Some service_name), w1)
            | Raise e =>
                (* both [except] clauses log and [continue] *)
                sync_loop self caller_timeout rest w1
            end
      end
  end.

Definition detect_public_ip_sync (self : PublicIPDetector) (caller_timeout : Z)
    (w : world) : option string * PublicIPDetector * world :=
  sync_loop self caller_timeout (items_of w (_services self)) w.

(** [test_service(name)]: [query_service] is not assigned in this
    method either. *)
Fixpoint test_service_loop (n : string) (items : list loc) (w : world)
    : result (bool * option string * option string) :=
  match items with
  | [] => Return (false, None, Some "Service not found")
  | a :: rest =>
      match objects w !! a with
      | Some service =>
          if bool_decide (name service = n) then
            bind (load_global "query_service") (λ f,
            bind (call_global f) (λ '(_, ip, error),
            Return (bool_decide (is_Some ip), ip, error)))
          else test_service_loop n rest w
      | None => test_service_loop n rest w
      end
  end.

Definition test_service (self : PublicIPDetector) (n : string) (w : world)
    : result (bool * option string * option string) :=
  test_service_loop n (items_of w (_services self)) w.

End Network.

(** The [dict] that [save_services_to_config] builds: one entry per
    service, under its name, in registry order. *)
Definition config_of_service (s : IPService) : Config.value :=
  Config.VDict [("url", Config.VStr (url s));
                ("timeout", Config.VInt (timeout s));
                ("enabled", Config.VBool (enabled s))].

Fixpoint service_configs (objs : list IPService) (items : list loc)
    (acc : list (string * Config.value)) : list (string * Config.value) :=
  match items with
  | [] => acc
  | a :: rest =>
      match objs !! a with
      | Some service =>
          service_configs objs rest
            (Config.assoc_set (name service) (config_of_service service) acc)
      | None => service_configs objs rest acc
      end
  end.

(** [save_services_to_config()]: the detector's own configuration manager
    is given the table; the store is not touched. *)
Definition save_services_to_config (self : PublicIPDetector) (w : world)
    : result PublicIPDetector :=
  match Config.set (_config self) "ip_services"
          (Config.VDict (service_configs (objects w) (items_of w (_services self)) [])) with
  | Return c =>
      Return {| _services := _services self;
                _last_used_service := _last_used_service self;
                _config := c |}
  | Raise e => Raise e
  end.



(** *** What a caller can do with a listing, and what it observes *)

(** [entry.enabled = b] and [entry.url = u] on an object the caller holds. *)
Definition entry_set_enabled (w : world) (a : loc) (b : bool) : world :=
  with_objects w (alter (λ s, set_enabled s b) a (objects w)).

Definition entry_set_url (w : world) (a : loc) (u : string) : world :=
  with_objects w (alter (λ s, set_url s u) a (objects w)).

(** The [enabled] flag of the first entry called [n] in the list the
    caller holds at [l]. *)
Definition enabled_in (w : world) (l : loc) (n : string) : option bool :=
  match find_name (objects w) n (items_of w l) with
  | Some i => items_of w l !! i ≫= λ a, enabled <$> objects w !! a
  | None => None
  end.

(** The flag of [n] as seen through [get_available_services]. *)
Definition observed_enabled (self : PublicIPDetector) (n : string) (w : world) : option bool :=
  let '(l, w1) := get_available_services self w in
  enabled_in w1 l n.

(** Position [i] holds the first entry of [reg] called [n]. *)
Definition first_named (reg : list (option IPService)) (n : string) (i : nat) : Prop :=
  (∃ s, reg !! i = Some (Some s) ∧ name s = n) ∧
  ∀ j s', (j < i)%nat -> reg !! j = Some (Some s') -> name s' ≠ n.

(** The detector's list and the objects it holds exist. *)
Definition wf (w : world) (self : PublicIPDetector) : Prop :=
  (_services self < length (lists w))%nat ∧
  Forall (λ a, (a < length (objects w))%nat) (items_of w (_services self)).

(** The class attribute is as the module created it: the list object and
    the four entries it names, whatever their [enabled] flags have become
    and whatever else has been allocated since. *)
Definition defaults_intact (w : world) : Prop :=
  lists w !! DEFAULT_SERVICES = Some [0; 1; 2; 3]%nat ∧
  name <$> objects w !! 0%nat = Some "ipify" ∧
  name <$> objects w !! 1%nat = Some "ipinfo" ∧
  name <$> objects w !! 2%nat = Some "ifconfig" ∧
  name <$> objects w !! 3%nat = Some "icanhazip".

(** The entries the built-in configuration describes. *)
Definition config_ipify : IPService :=
  {| name := "ipify"; url := "https://api.ipify.org"; timeout := 10; enabled := true |}.
Definition config_ipinfo : IPService :=
  {| name := "ipinfo"; url := "https://ipinfo.io/ip"; timeout := 10; enabled := true |}.
Definition config_ifconfig : IPService :=
  {| name := "ifconfig"; url := "https://ifconfig.me/ip"; timeout := 10; enabled := true |}.

Definition default_names : list string := ["ipify"; "ipinfo"; "ifconfig"; "icanhazip"].

(** The shape of a detector built with no argument: three entries of
    its own, at [k], [k+1] and [k+2], and the fourth default object. *)
Definition default_shaped (w : world) (d : PublicIPDetector) (k : nat) : Prop :=
  items_of w (_services d) = [k; S k; S (S k); 3%nat] ∧
  name <$> objects w !! k = Some "ipify" ∧
  name <$> objects w !! S k = Some "ipinfo" ∧
  name <$> objects w !! S (S k) = Some "ifconfig" ∧
  name <$> objects w !! 3%nat = Some "icanhazip".

(** The object [_set_service_enabled] reaches from such a detector. *)
Definition target (k : nat) (n : string) : nat :=
  if bool_decide (n = "ipify") then k
  else if bool_decide (n = "ipinfo") then S k
  else if bool_decide (n = "ifconfig") then S (S k)
  else 3%nat.

(** What [PublicIPDetector()] returns and leaves behind (see
    [init_default_eq] below). *)
Definition init_detector (w : world) : PublicIPDetector :=
  {| _services := length (lists w); _last_used_service := None;
     _config := Config.__init__ |}.

Definition init_world (w : world) : world :=
  {| objects := objects w ++ [config_ipify; config_ipinfo; config_ifconfig];
     lists := lists w ++ [[length (objects w); S (length (objects w));
                           S (S (length (objects w))); 3%nat]];
     trace := trace w |}.


(** [_update_service] read on the registry: the search of [find_name] on
    the records, and the replacement or the append. *)
Fixpoint find_entry (n : string) (reg : list (option IPService)) : option nat :=
  match reg with
  | [] => None
  | Some existing :: rest =>
      if bool_decide (name existing = n) then Some 0%nat
      else S <$> find_entry n rest
  | None :: rest => S <$> find_entry n rest
  end.

Definition upsert (reg : list (option IPService)) (s : IPService) : list (option IPService) :=
  match find_entry (name s) reg with
  | Some i => <[i := Some s]> reg
  | None => reg ++ [Some s]
  end.

(** The entries of the table [save_services_to_config] writes for a
    registry without repeated names. *)
Definition entries_of (services : list IPService) : list (string * Config.value) :=
  (λ s, (name s, config_of_service s)) <$> services.

(** Adding services one after the other. *)
Definition add_all (self : PublicIPDetector) (services : list IPService) (w : world) : world :=
  foldl (λ w s, add_service self (name s) (url s) (timeout s) (enabled s) w) w services.

(** The names of a registry, position by position. *)
Definition names_of (reg : list (option IPService)) : list (option string) :=
  (λ entry : option IPService, name <$> entry) <$> reg.

(** *** A scenario: services A, B, C

    A caller builds three services, hands their list to a new detector and
    removes the entries the configuration added, so that the registry is
    exactly [A; B; C]. On the network, A refuses the connection, B and C
    answer with an address and a line end. *)
Module Scenario.

Definition LF : string := String (ascii_of_nat 10) EmptyString.

Definition A : IPService :=
  {| name := "A"; url := "https://a.example/ip"; timeout := 10; enabled := true |}.
Definition B : IPService :=
  {| name := "B"; url := "https://b.example/ip"; timeout := 10; enabled := true |}.
Definition C : IPService :=
  {| name := "C"; url := "https://c.example/ip"; timeout := 10; enabled := true |}.

Definition network (history : list event) (u : string) (t : Z) : http_result :=
  if bool_decide (u = "https://a.example/ip") then Fails (URLError "Connection refused")
  else if bool_decide (u = "https://b.example/ip") then Body ("203.0.113.7" +:+ LF)
  else if bool_decide (u = "https://c.example/ip") then Body ("198.51.100.9" +:+ LF)
  else Fails (URLError "Name or service not known").

Definition setup : PublicIPDetector * world :=
  let '(a, w1) := new_service A module_world in
  let '(b, w2) := new_service B w1 in
  let '(c, w3) := new_service C w2 in
  let '(l, w4) := new_list [a; b; c] w3 in
  let '(d, w5) := __init__ (Some l) w4 in
  let w6 := (remove_service d "ipify" w5).2 in
  let w7 := (remove_service d "ipinfo" w6).2 in
  let w8 := (remove_service d "ifconfig" w7).2 in
  (d, w8).

Definition detector : PublicIPDetector := setup.1.
Definition start : world := setup.2.

End Scenario.

End PublicIP.

(** ** [services/resolution.py]: the resolution cache and the name resolver *)

Module Resolution.
Import Py.

(** [socket.AddressFamily] and [socket.SocketKind], the enumerations the
    entries of a [getaddrinfo] result carry. *)
Inductive AddressFamily := AF_UNSPEC | AF_INET | AF_INET6.

Inductive SocketKind := SOCK_STREAM | SOCK_DGRAM | SOCK_RAW.

(** [AddressFamily.name]. *)
Definition family_name (f : AddressFamily) : string :=
  match f with
  | AF_UNSPEC => "AF_UNSPEC"
  | AF_INET => "AF_INET"
  | AF_INET6 => "AF_INET6"
  end.

(** One entry [(family, type, proto, canonname, sockaddr)] of a
    [getaddrinfo] result; [sockaddr] starts with the address and the port,
    so [item[4][0]] is [sa_host]. *)
Record addrinfo := {
  ai_family : AddressFamily;
  ai_type : SocketKind;
  ai_proto : Z;
  ai_canonname : string;
  sa_host : string;
  sa_port : Z
}.

(** The forward-lookup primitive as it stands at one moment:
    [socket.getaddrinfo(hostname, None, family=family, type=SOCK_STREAM)]. *)
Definition name_service : Type := string -> AddressFamily -> result (list addrinfo).

(** The reverse-lookup primitive, [socket.gethostbyaddr]. *)
Definition reverse_service : Type := string -> result (string * list string * list string).

Record DNSRecord := {
  hostname : string;
  ip_address : string;
  aliases : list string;
  record_type : string;
  timestamp : Z
}.

(** [DNSRecord.is_expired(ttl)]; [now] is what [time()] returns. *)
Definition is_expired (self : DNSRecord) (ttl now : Z) : bool :=
  (now - timestamp self >? ttl)%Z.

Record DNSResolver := {
  _enable_cache : bool;
  _default_ttl : Z;
  _cache : gmap string DNSRecord;
  _config : Config.ConfigManager
}.

Definition with_cache (self : DNSResolver) (c : gmap string DNSRecord) : DNSResolver :=
  {| _enable_cache := _enable_cache self; _default_ttl := _default_ttl self;
     _cache := c; _config := _config self |}.

(** [_load_config]: both settings are read from the [dns_resolver] table,
    falling back to the current ones. Values are typed as the constructor
    annotates them. *)
Definition _load_config (self : DNSResolver) : DNSResolver :=
  match Config.get (_config self) "dns_resolver" (Config.VDict []) with
  | Config.VDict cache_config =>
      let enable_cache :=
        match Config.dict_get cache_config "enable_cache" (Config.VBool (_enable_cache self)) with
        | Config.VBool b => b
        | _ => _enable_cache self
        end in
      let default_ttl :=
        match Config.dict_get cache_config "default_ttl" (Config.VInt (_default_ttl self)) with
        | Config.VInt n => n
        | _ => _default_ttl self
        end in
      {| _enable_cache := enable_cache; _default_ttl := default_ttl;
         _cache := _cache self; _config := _config self |}
  | _ => self
  end.

(** [DNSResolver(enable_cache, default_ttl)]. *)
Definition __init__ (enable_cache : bool) (default_ttl : Z) : DNSResolver :=
  _load_config {| _enable_cache := enable_cache; _default_ttl := default_ttl;
                  _cache := ∅; _config := Config.__init__ |}.

(** [_get_from_cache(hostname)]; the clock is read only when a record is
    found. A [DNSRecord] is always true as a condition. *)
Definition _get_from_cache (self : DNSResolver) (h : string) (now : Z)
    : option DNSRecord * DNSResolver :=
  if negb (_enable_cache self) then (None, self)
  else
    match _cache self !! h with
    | Some record =>
        if negb (is_expired record (_default_ttl self) now)
        then (Some record, self)
        else (None, with_cache self (delete h (_cache self)))
    | None => (None, self)
    end.

Definition _store_in_cache (self : DNSResolver) (h ip : string) (al : list string)
    (now : Z) : DNSResolver :=
  if negb (_enable_cache self) then self
  else
    let record := {| hostname := h; ip_address := ip; aliases := al;
                     record_type := "A"; timestamp := now |} in
    with_cache self (<[h := record]> (_cache self)).

Definition clear_cache (self : DNSResolver) : DNSResolver :=
  with_cache self ∅.

Definition set_cache_ttl (self : DNSResolver) (ttl : Z) : DNSResolver :=
  {| _enable_cache := _enable_cache self; _default_ttl := ttl;
     _cache := _cache self; _config := _config self |}.

(** [get_cache_stats]: size, enabled, default_ttl, hostnames. *)
Definition get_cache_stats (self : DNSResolver) : nat * bool * Z * list string :=
  (size (_cache self), _enable_cache self, _default_ttl self,
   (map_to_list (_cache self)).*1).

(** The first part of [resolve]: the cache is consulted. *)
Definition resolve_cached (self : DNSResolver) (h : string) (now : Z)
    : option string * DNSResolver :=
  if _enable_cache self then
    let '(cached, self1) := _get_from_cache self h now in
    match cached with
    | Some record => (Some (ip_address record), self1)
    | None => (None, self1)
    end
  else (None, self).

(** The second part of [resolve]: the [try] block. [dns] is the name
    service at the time of the lookup, [now] the clock at the time of the
    store. Both [except] clauses return [None]. *)
Definition resolve_lookup (self : DNSResolver) (h : string) (family : AddressFamily)
    (dns : name_service) (now : Z) : option string * DNSResolver :=
  match dns h family with
  | Return info =>
      let ip_addresses := sa_host <$> info in
      let ip_address := head ip_addresses in
      let self1 :=
        match ip_address with
        | Some ip =>
            if truthy ip && _enable_cache self
            then _store_in_cache self h ip ((λ item, family_name (ai_family item)) <$> info) now
            else self
        | None => self
        end in
      (ip_address, self1)
  | Raise e => (None, self)
  end.

(** [resolve(hostname, family)]: [t_get] is the clock when the cache is
    consulted, [t_store] when the answer is stored. *)
Definition resolve (self : DNSResolver) (h : string) (family : AddressFamily)
    (t_get : Z) (dns : name_service) (t_store : Z) : option string * DNSResolver :=
  match resolve_cached self h t_get with
  | (Some ip, self1) => (Some ip, self1)
  | (None, self1) => resolve_lookup self1 h family dns t_store
  end.

(** The loop of [resolve_all]: an address is appended unless it is
    already in the list. *)
Fixpoint collect_addresses (info : list addrinfo) (ip_addresses : list string) : list string :=
  match info with
  | [] => ip_addresses
  | item :: rest =>
      let ip := sa_host item in
      if bool_decide (ip ∈ ip_addresses)
      then collect_addresses rest ip_addresses
      else collect_addresses rest (ip_addresses ++ [ip])
  end.

Definition resolve_all (self : DNSResolver) (h : string) (family : AddressFamily)
    (t_get : Z) (dns : name_service) (t_store : Z) : list string * DNSResolver :=
  let '(cached, self1) :=
    if _enable_cache self then _get_from_cache self h t_get else (None, self) in
  match cached with
  | Some record => ([ip_address record], self1)
  | None =>
      match dns h family with
      | Return info =>
          let ip_addresses := collect_addresses info [] in
          let self2 :=
            match ip_addresses with
            | first :: _ =>
                if _enable_cache self1
                then _store_in_cache self1 h first
                       ((λ item, family_name (ai_family item)) <$> info) t_store
                else self1
            | [] => self1
            end in
          (ip_addresses, self2)
      | Raise e => ([], self1)
      end
  end.

Definition reverse_resolve (rdns : reverse_service) (ip : string) : option string :=
  match rdns ip with
  | Return (h, _, _) => Some h
  | Raise e => None
  end.

(** *** [batch_resolve]

    Each hostname of the input is one task of the pool, running
    [resolve]. The cache is touched under the lock only, so a task acts on
    the shared resolver in two atomic steps: the cache lookup, then (after
    a miss) the name-service lookup with its store. A schedule is the
    sequence of these steps as the threads happen to take them. *)

Inductive task :=
  | Queued
  | Looking
  | Done (ip : option string).

(** One step of the pool: which task moves, the clock and the name
    service at that moment. *)
Record event := {
  ev_task : nat;
  ev_now : Z;
  ev_dns : name_service
}.

Definition step_task (self : DNSResolver) (h : string) (family : AddressFamily)
    (t : task) (now : Z) (dns : name_service) : task * DNSResolver :=
  match t with
  | Queued =>
      match resolve_cached self h now with
      | (Some ip, self1) => (Done (Some ip), self1)
      | (None, self1) => (Looking, self1)
      end
  | Looking =>
      let '(ip, self1) := resolve_lookup self h family dns now in
      (Done ip, self1)
  | Done ip => (Done ip, self)
  end.

Definition step (hostnames : list string) (family : AddressFamily)
    (st : list task * DNSResolver) (e : event) : list task * DNSResolver :=
  match hostnames !! ev_task e, st.1 !! ev_task e with
  | Some h, Some t =>
      let '(t', self') := step_task st.2 h family t (ev_now e) (ev_dns e) in
      (<[ev_task e := t']> st.1, self')
  | _, _ => st
  end.

Definition run (hostnames : list string) (family : AddressFamily)
    (sched : list event) (st : list task * DNSResolver) : list task * DNSResolver :=
  foldl (step hostnames family) st sched.

Definition is_done (t : task) : bool :=
  match t with
  | Done _ => true
  | _ => false
  end.

(** [hostname, ip = future.result(); results[hostname] = ip]. *)
Definition record_result (hostnames : list string) (tasks : list task)
    (results : gmap string (option string)) (i : nat) : gmap string (option string) :=
  match hostnames !! i, tasks !! i with
  | Some h, Some (Done ip) => <[h := ip]> results
  | _, _ => results
  end.

Definition collect_results (hostnames : list string) (tasks : list task)
    (order : list nat) : gmap string (option string) :=
  foldl (record_result hostnames tasks) ∅ order.

(** [batch_resolve(hostnames, family, max_workers)]. [sched] is the
    interleaving of the tasks' steps, [order] the order in which
    [as_completed] yields the futures. The loop over [as_completed] waits
    for every future, so the executions of the code are those where
    [sched] runs every task to its end and [order] lists every task once.
    A pool cannot be created with no worker. *)
Definition batch_resolve (self : DNSResolver) (hostnames : list string)
    (family : AddressFamily) (max_workers : Z) (sched : list event) (order : list nat)
    : result (gmap string (option string)) * DNSResolver :=
  if max_workers <=? 0
  then (Raise (ValueError "max_workers must be greater than 0"), self)
  else
    let '(tasks, self') :=
      run hostnames family sched (replicate (length hostnames) Queued, self) in
    (Return (collect_results hostnames tasks order), self').

(** A schedule that runs every task to its end. *)
Definition completes (self : DNSResolver) (hostnames : list string)
    (family : AddressFamily) (sched : list event) : Prop :=
  Forall (λ t, is_done t = true)
    (run hostnames family sched (replicate (length hostnames) Queued, self)).1.

(** The schedule of a pool that runs the tasks one after the other. *)
Definition sequential_schedule (n : nat) (now : Z) (dns : name_service) : list event :=
  flat_map (λ i, [ {| ev_task := i; ev_now := now; ev_dns := dns |};
                   {| ev_task := i; ev_now := now; ev_dns := dns |} ]) (seq 0 n).

(** The steps of a schedule taken by the tasks that resolve [h]. *)
Definition steps_for (hostnames : list string) (h : string) (sched : list event) : list event :=
  filter (λ e, hostnames !! ev_task e = Some h) sched.

(** Two resolvers that look the same to a task resolving [h]. *)
Definition agree_on (h : string) (s1 s2 : DNSResolver) : Prop :=
  _enable_cache s1 = _enable_cache s2 ∧
  _default_ttl s1 = _default_ttl s2 ∧
  _cache s1 !! h = _cache s2 !! h.

(** What the tasks of [h] see and do is the same in two pools. *)
Definition same_for (hostnames : list string) (h : string)
    (st1 st2 : list task * DNSResolver) : Prop :=
  (∀ i, hostnames !! i = Some h -> st1.1 !! i = st2.1 !! i) ∧ agree_on h st1.2 st2.2.

(** *** A scenario: one name with two addresses

    [example.test] has an IPv4 and an IPv6 address, the first reported
    twice; no other name resolves. [getaddrinfo], called without
    [AI_CANONNAME], leaves the canonical name of every entry empty. *)
Module Scenario.

Definition entry (f : AddressFamily) (host : string) : addrinfo :=
  {| ai_family := f; ai_type := SOCK_STREAM; ai_proto := 6;
     ai_canonname := EmptyString; sa_host := host; sa_port := 0 |}.

Definition info : list addrinfo :=
  [entry AF_INET "93.184.216.34";
   entry AF_INET6 "2606:2800:220:1:248:1893:25c8:1946";
   entry AF_INET "93.184.216.34"].

Definition dns : name_service := λ h family,
  if bool_decide (h = "example.test") then Return info
  else Raise (gaierror "Name or service not known").

Definition resolver : DNSResolver := __init__ true 300.

End Scenario.

(** [a] occurs in [l] before every occurrence of [b]. *)
Definition before (l : list string) (a b : string) : Prop :=
  ∃ i, l !! i = Some a ∧ ∀ j, l !! j = Some b -> (i < j)%nat.

(** The items of [res] come in the order in which they first occur in [l]. *)
Definition ordered_as (res l : list string) : Prop :=
  ∀ i j a b, (i < j)%nat -> res !! i = Some a -> res !! j = Some b -> before l a b.

(** The states a resolver can be in: constructed, then changed by the
    operations that touch its fields (every method goes through these). *)
Inductive reachable : DNSResolver -> Prop :=
  | reach_init enable_cache default_ttl :
      reachable (__init__ enable_cache default_ttl)
  | reach_get self h now :
      reachable self -> reachable (_get_from_cache self h now).2
  | reach_store self h ip al now :
      reachable self -> reachable (_store_in_cache self h ip al now)
  | reach_clear self :
      reachable self -> reachable (clear_cache self)
  | reach_ttl self ttl :
      reachable self -> reachable (set_cache_ttl self ttl).

End Resolution.

(** * Properties of the service registry and the detector *)

Section DetectorFacts.
Import Py PublicIP.

Variable network : list event -> string -> Z -> http_result.

Lemma service_name_unbound : load_global "service_name" = Raise (NameError "service_name").
Proof. reflexivity. Qed.

Lemma query_service_unbound : load_global "query_service" = Raise (NameError "query_service").
Proof. reflexivity. Qed.

(** The body of the request block never completes. *)
Lemma sync_body_raises text : sync_body text = Raise (NameError "service_name").
Proof. reflexivity. Qed.

(** Whatever the services answer, the sequential walk falls through. *)
Lemma sync_loop_never_succeeds self t items w :
  (sync_loop network self t items w).1.1 = None ∧
  (sync_loop network self t items w).1.2 = self.
Proof.
  revert w. induction items as [|a rest IH]; intros w; simpl; [done|].
  destruct (objects w !! a) as [service|]; [|apply IH].
  destruct (enabled service); simpl; [|apply IH].
  destruct (network (trace w) (url service) (Z.min (timeout service) t));
    simpl; apply IH.
Qed.

Lemma find_name_Some objs n items i :
  find_name objs n items = Some i ->
  ∃ a s, items !! i = Some a ∧ objs !! a = Some s ∧ name s = n.
Proof.
  revert i. induction items as [|a rest IH]; intros i; simpl; [done|].
  destruct (objs !! a) as [s|] eqn:Ha.
  - case_bool_decide as Hn.
    + intros [= <-]. exists a, s. done.
    + destruct (find_name objs n rest) as [j|]; simpl; [|done].
      intros [= <-]. destruct (IH j eq_refl) as (a' & s' & ? & ? & ?).
      exists a', s'. done.
  - destruct (find_name objs n rest) as [j|]; simpl; [|done].
    intros [= <-]. destruct (IH j eq_refl) as (a' & s' & ? & ? & ?).
    exists a', s'. done.
Qed.

Lemma find_name_None objs n items :
  find_name objs n items = None ->
  ∀ a s, a ∈ items -> objs !! a = Some s -> name s ≠ n.
Proof.
  induction items as [|a rest IH]; simpl; intros Hf a' s Hin Hs.
  - by apply elem_of_nil in Hin.
  - apply elem_of_cons in Hin as [->|Hin].
    + rewrite Hs in Hf. case_bool_decide; [done|]. done.
    + apply (IH) with (a := a'); [|done|done].
      destruct (objs !! a) as [s0|]; [case_bool_decide; [done|]|];
        by destruct (find_name objs n rest).
Qed.

Lemma test_service_loop_spec n items w :
  test_service_loop n items w =
    match find_name (objects w) n items with
    | Some _ => Raise (NameError "query_service")
    | None => Return (false, None, Some "Service not found")
    end.
Proof.
  induction items as [|a rest IH]; simpl; [done|].
  destruct (objects w !! a) as [s|].
  - case_bool_decide; [done|]. rewrite IH.
    by destruct (find_name (objects w) n rest).
  - rewrite IH. by destruct (find_name (objects w) n rest).
Qed.

Lemma elem_of_registry w self s :
  Some s ∈ registry w self ↔
  ∃ a, a ∈ items_of w (_services self) ∧ objects w !! a = Some s.
Proof.
  unfold registry. rewrite list_elem_of_fmap. split.
  - intros (a & Hs & Ha). eauto.
  - intros (a & Ha & Hs). eauto.
Qed.

Lemma find_name_is_Some objs n items a s :
  a ∈ items -> objs !! a = Some s -> name s = n ->
  is_Some (find_name objs n items).
Proof.
  intros Hin Hs Hn. destruct (find_name objs n items) eqn:Hf; [eauto|].
  by destruct (find_name_None _ _ _ Hf a s).
Qed.

Lemma find_name_absent objs n items :
  (∀ a s, a ∈ items -> objs !! a = Some s -> name s ≠ n) ->
  find_name objs n items = None.
Proof.
  intros Hall. destruct (find_name objs n items) as [i|] eqn:Hf; [|done].
  destruct (find_name_Some _ _ _ _ Hf) as (a & s & Hi & Hs & Hn).
  destruct (Hall a s); [by eapply list_elem_of_lookup_2|done|done].
Qed.

Lemma sync_loop_all_disabled self t items w :
  (∀ a s, a ∈ items -> objects w !! a = Some s -> enabled s = false) ->
  sync_loop network self t items w = (None, self, w).
Proof.
  induction items as [|a rest IH]; intros Hall; simpl; [done|].
  destruct (objects w !! a) as [service|] eqn:Ha.
  - rewrite (Hall a service); [|left|done]. simpl.
    apply IH. intros a' s' Hin. apply Hall. by right.
  - apply IH. intros a' s' Hin. apply Hall. by right.
Qed.

Lemma filter_enabled_nil w items :
  (∀ a s, a ∈ items -> objects w !! a = Some s -> enabled s = false) ->
  List.filter (is_enabled w) items = [].
Proof.
  induction items as [|a rest IH]; intros Hall; simpl; [done|].
  assert (is_enabled w a = false) as ->.
  { unfold is_enabled. destruct (objects w !! a) as [s|] eqn:Ha; [|done].
    apply (Hall a s); [left|done]. }
  apply IH. intros a' s' Hin. apply Hall. by right.
Qed.


End DetectorFacts.

Section RegistryFacts.
Import Py PublicIP.

Lemma find_name_first objs n items i :
  find_name objs n items = Some i ->
  first_named ((λ a, objs !! a) <$> items) n i.
Proof.
  revert i. induction items as [|a rest IH]; intros i; simpl; [done|].
  destruct (objs !! a) as [s|] eqn:Ha.
  - case_bool_decide as Hn.
    + intros [= <-]. split; [by exists s|]. intros j s' Hj. lia.
    + destruct (find_name objs n rest) as [k|]; simpl; [|done].
      intros [= <-]. destruct (IH k eq_refl) as [Hk Hbefore].
      split; [done|]. intros [|j] s' Hj; simpl.
      * by intros [= <-].
      * apply Hbefore. lia.
  - destruct (find_name objs n rest) as [k|]; simpl; [|done].
    intros [= <-]. destruct (IH k eq_refl) as [Hk Hbefore].
    split; [done|]. intros [|j] s' Hj; simpl.
    * done.
    * apply Hbefore. lia.
Qed.

Lemma first_named_unique reg n i j :
  PublicIP.first_named reg n i -> first_named reg n j -> i = j.
Proof.
  intros [(s & Hi & Hs) Hbi] [(s' & Hj & Hs') Hbj].
  destruct (Nat.lt_trichotomy i j) as [Hlt|[->|Hlt]]; [|done|].
  - by destruct (Hbj i s Hlt Hi).
  - by destruct (Hbi j s' Hlt Hj).
Qed.

Lemma find_name_app_objects objs extra n items :
  Forall (λ a, (a < length objs)%nat) items ->
  find_name (objs ++ extra) n items = find_name objs n items.
Proof.
  induction 1 as [|a rest Ha _ IH]; simpl; [done|].
  by rewrite lookup_app_l, IH.
Qed.

Lemma items_of_store_items w l items :
  (l < length (lists w))%nat -> items_of (store_items w l items) l = items.
Proof. intros Hl. unfold items_of, store_items. simpl. by rewrite list_lookup_insert_eq. Qed.

Lemma items_of_store_items_ne w l l' items :
  l ≠ l' -> items_of (store_items w l items) l' = items_of w l'.
Proof. intros Hl. unfold items_of, store_items. simpl. by rewrite list_lookup_insert_ne. Qed.

Lemma registry_new_service w self s :
  Forall (λ a, (a < length (objects w))%nat) (items_of w (_services self)) ->
  registry (new_service s w).2 self = registry w self.
Proof.
  intros Hwf. unfold registry, new_service, items_of. simpl.
  apply list_eq. intros i. rewrite !list_lookup_fmap.
  destruct (default [] (lists w !! _services self) !! i) as [a|] eqn:Hi; simpl; [|done].
  f_equal. apply lookup_app_l. by eapply Forall_lookup_1 in Hwf.
Qed.

(** [_update_service] on the registry as observed: the first entry with
    the name of the new object gives way to it, or the object goes last. *)
Lemma update_service_registry self service w s :
  (_services self < length (lists w))%nat ->
  objects w !! service = Some s ->
  registry (_update_service self service w) self =
    match find_name (objects w) (name s) (items_of w (_services self)) with
    | Some i => <[i := Some s]> (registry w self)
    | None => (registry w self ++ [Some s])%list
    end.
Proof.
  intros Hl Hs. unfold _update_service. rewrite Hs.
  destruct (find_name _ _ _) as [i|]; unfold registry;
    rewrite items_of_store_items by done; simpl.
  - by rewrite list_fmap_insert, Hs.
  - rewrite fmap_app. simpl. by rewrite Hs.
Qed.

Lemma add_service_registry self n u t e w :
  wf w self ->
  registry (add_service self n u t e w) self =
    let new := {| name := n; url := u; timeout := t; enabled := e |} in
    match find_name (objects w) n (items_of w (_services self)) with
    | Some i => <[i := Some new]> (registry w self)
    | None => (registry w self ++ [Some new])%list
    end.
Proof.
  intros [Hl Hitems]. unfold add_service.
  pose proof (registry_new_service w self
    {| name := n; url := u; timeout := t; enabled := e |} Hitems) as Hreg.
  simpl in *.
  rewrite (update_service_registry _ _ _
    {| name := n; url := u; timeout := t; enabled := e |}).
  - simpl. assert (items_of (with_objects w (objects w ++ [{| name := n; url := u; timeout := t; enabled := e |}])) (_services self) = items_of w (_services self)) as -> by done.
    rewrite find_name_app_objects by done. by rewrite Hreg.
  - done.
  - simpl. by rewrite lookup_app_r, Nat.sub_diag.
Qed.

Lemma first_named_find objs n items i :
  first_named ((λ a, objs !! a) <$> items) n i ->
  find_name objs n items = Some i.
Proof.
  intros Hfirst. pose proof Hfirst as [(s & Hi & Hs) _].
  rewrite list_lookup_fmap in Hi.
  destruct (items !! i) as [a|] eqn:Ha; [|done]. simpl in Hi.
  destruct (find_name_is_Some objs n items a s) as [k Hk];
    [by eapply list_elem_of_lookup_2|congruence|done|].
  rewrite Hk. f_equal.
  eapply first_named_unique; [|done]. by apply find_name_first.
Qed.

Lemma get_available_services_eq self w :
  get_available_services self w =
    (length (lists w), with_lists w (lists w ++ [items_of w (_services self)])).
Proof. done. Qed.

End RegistryFacts.

Section SharingFacts.
Import Py PublicIP.

Lemma registry_with_lists_app w self extra :
  (_services self < length (lists w))%nat ->
  registry (with_lists w (lists w ++ extra)) self = registry w self.
Proof.
  intros Hl. unfold registry, items_of. simpl. by rewrite lookup_app_l.
Qed.

Lemma registry_store_items_ne w self l items :
  l ≠ _services self ->
  registry (store_items w l items) self = registry w self.
Proof.
  intros Hl. unfold registry. by rewrite items_of_store_items_ne.
Qed.

End SharingFacts.

Section DefaultInstances.
Import Py PublicIP.

Lemma builtin_ip_services :
  Config.get Config.__init__ "ip_services" (Config.VDict []) =
  Config.VDict [
    ("ipify", Config.VDict [("url", Config.VStr "https://api.ipify.org");
                            ("timeout", Config.VInt 10); ("enabled", Config.VBool true)]);
    ("ipinfo", Config.VDict [("url", Config.VStr "https://ipinfo.io/ip");
                             ("timeout", Config.VInt 10); ("enabled", Config.VBool true)]);
    ("ifconfig", Config.VDict [("url", Config.VStr "https://ifconfig.me/ip");
                               ("timeout", Config.VInt 10); ("enabled", Config.VBool true)])].
Proof. reflexivity. Qed.

Lemma find_name_here objs n a rest :
  name <$> objs !! a = Some n -> find_name objs n (a :: rest) = Some 0%nat.
Proof.
  simpl. destruct (objs !! a) as [s|]; [|done]. intros [= <-].
  by rewrite bool_decide_true.
Qed.

Lemma find_name_skip objs n m a rest :
  name <$> objs !! a = Some m -> m ≠ n ->
  find_name objs n (a :: rest) = S <$> find_name objs n rest.
Proof.
  simpl. destruct (objs !! a) as [s|]; [|done]. intros [= <-] Hne.
  by rewrite bool_decide_false.
Qed.

Lemma set_enabled_loop_here n b a rest w s :
  objects w !! a = Some s -> name s = n ->
  set_enabled_loop n b (a :: rest) w =
    (true, with_objects w (<[a := set_enabled s b]> (objects w))).
Proof. simpl. intros -> Hn. by rewrite bool_decide_true. Qed.

Lemma set_enabled_loop_skip n b a rest w m :
  name <$> objects w !! a = Some m -> m ≠ n ->
  set_enabled_loop n b (a :: rest) w = set_enabled_loop n b rest w.
Proof.
  simpl. destruct (objects w !! a) as [s|]; [|done]. intros [= <-] Hne.
  by rewrite bool_decide_false.
Qed.

(** One turn of the configuration loop when the name is already in the
    registry at position [i]. *)
Lemma load_loop_replace self w n config s i rest :
  service_of_config n config = Some s ->
  (_services self < length (lists w))%nat ->
  find_name (objects w ++ [s]) n (items_of w (_services self)) = Some i ->
  load_loop self ((n, Config.VDict config) :: rest) w =
    load_loop self rest
      {| objects := objects w ++ [s];
         lists := <[_services self := <[i := length (objects w)]> (items_of w (_services self))]> (lists w);
         trace := trace w |}.
Proof.
  intros Hs Hl Hfind. simpl. rewrite Hs. unfold new_service, _update_service. simpl.
  rewrite lookup_app_r, Nat.sub_diag by done. simpl.
  assert (name s = n) as ->.
  { unfold service_of_config in Hs. repeat case_match; try done. by injection Hs as <-. }
  change (items_of (with_objects w (objects w ++ [s])) (_services self))
    with (items_of w (_services self)).
  by rewrite Hfind.
Qed.

Lemma items_of_last objs base items tr :
  items_of {| objects := objs; lists := base ++ [items]; trace := tr |} (length base) = items.
Proof. unfold items_of. simpl. by rewrite lookup_app_r, Nat.sub_diag. Qed.

Lemma load_loop_replace_last self objs base items items' tr n config s i rest :
  _services self = length base ->
  service_of_config n config = Some s ->
  find_name (objs ++ [s]) n items = Some i ->
  items' = <[i := length objs]> items ->
  load_loop self ((n, Config.VDict config) :: rest)
    {| objects := objs; lists := base ++ [items]; trace := tr |} =
  load_loop self rest
    {| objects := objs ++ [s]; lists := base ++ [items']; trace := tr |}.
Proof.
  intros Hself Hs Hfind ->.
  rewrite (load_loop_replace _ _ _ _ s i); simpl; rewrite ?Hself.
  - rewrite items_of_last. do 2 f_equal.
    rewrite insert_app_r_alt, Nat.sub_diag by done. done.
  - done.
  - rewrite length_app. simpl. lia.
  - by rewrite items_of_last.
Qed.

Ltac len := rewrite ?length_app, ?length_insert; simpl; lia.
Ltac look :=
  repeat first
    [ rewrite lookup_app_l by len
    | rewrite list_lookup_middle by len
    | rewrite list_lookup_insert_eq by len
    | rewrite list_lookup_insert_ne by len ].

Lemma defaults_intact_length w :
  defaults_intact w -> (4 ≤ length (objects w))%nat ∧ (1 ≤ length (lists w))%nat.
Proof.
  intros (Hl & _ & _ & _ & H3). split.
  - destruct (objects w !! 3%nat) eqn:H; [|done].
    apply lookup_lt_Some in H. lia.
  - apply lookup_lt_Some in Hl. unfold DEFAULT_SERVICES in Hl. lia.
Qed.

(** A detector constructed with no argument: its list is a new one, whose
    first three items are new objects made from the built-in
    configuration and whose last item is the fourth default object. *)
Lemma init_default w :
  defaults_intact w ->
  __init__ None w =
    ({| _services := length (lists w); _last_used_service := None;
        _config := Config.__init__ |},
     {| objects := ((objects w ++ [config_ipify]) ++ [config_ipinfo]) ++ [config_ifconfig];
        lists := lists w ++ [[length (objects w); S (length (objects w));
                              S (S (length (objects w))); 3%nat]];
        trace := trace w |}).
Proof.
  intros Hint. pose proof (defaults_intact_length w Hint) as [Hlen _].
  destruct Hint as (Hlists & H0 & H1 & H2 & H3).
  unfold __init__, list_copy, new_list, items_of. rewrite Hlists. simpl.
  f_equal. unfold _load_services_from_config. simpl _config.
  rewrite builtin_ip_services. unfold with_lists.
  set (k := length (objects w)).
  rewrite (load_loop_replace_last _ _ _ _ [k; 1; 2; 3]%nat _ _ _ config_ipify 0);
    [|done|done| |done].
  2:{ apply find_name_here. by look. }
  rewrite (load_loop_replace_last _ _ _ _ [k; S k; 2; 3]%nat _ _ _ config_ipinfo 1);
    [|done|done| |].
  2:{ rewrite (find_name_skip _ _ "ipify"); [|by look|done].
      rewrite find_name_here; [done|]. by look. }
  2:{ simpl. rewrite length_app. simpl. do 2 f_equal. lia. }
  rewrite (load_loop_replace_last _ _ _ _ [k; S k; S (S k); 3]%nat _ _ _ config_ifconfig 2);
    [|done|done| |].
  2:{ rewrite (find_name_skip _ _ "ipify"); [|by look|done].
      rewrite (find_name_skip _ _ "ipinfo"); [|by look|done].
      rewrite find_name_here; [done|]. by look. }
  2:{ simpl. rewrite !length_app. simpl. do 3 f_equal. lia. }
  done.
Qed.

Lemma insert_set_enabled w a s b :
  objects w !! a = Some s ->
  with_objects w (<[a := set_enabled s b]> (objects w)) = entry_set_enabled w a b.
Proof.
  intros Ha. unfold entry_set_enabled. f_equal. apply list_eq. intros i.
  destruct (decide (i = a)) as [->|Hne].
  - rewrite list_lookup_alter_eq, Ha. simpl.
    apply list_lookup_insert_eq. by eapply lookup_lt_Some.
  - by rewrite list_lookup_alter_ne, list_lookup_insert_ne.
Qed.

Lemma name_lookup_is_Some (objs : list IPService) a n :
  name <$> objs !! a = Some n -> ∃ s, objs !! a = Some s ∧ name s = n.
Proof. destruct (objs !! a) as [s|]; [|done]. intros [= <-]. eauto. Qed.

Lemma shaped_set_enabled w d k n b :
  default_shaped w d k -> n ∈ default_names ->
  _set_service_enabled d n b w = (true, entry_set_enabled w (target k n) b).
Proof.
  intros (Hitems & H0 & H1 & H2 & H3) Hn. unfold _set_service_enabled. rewrite Hitems.
  destruct (name_lookup_is_Some _ _ _ H0) as (s0 & Hs0 & Hn0).
  destruct (name_lookup_is_Some _ _ _ H1) as (s1 & Hs1 & Hn1).
  destruct (name_lookup_is_Some _ _ _ H2) as (s2 & Hs2 & Hn2).
  destruct (name_lookup_is_Some _ _ _ H3) as (s3 & Hs3 & Hn3).
  unfold default_names in Hn. rewrite !elem_of_cons in Hn.
  destruct Hn as [->|[->|[->|[->|Hn]]]]; [| | | |by apply elem_of_nil in Hn].
  - rewrite (set_enabled_loop_here _ _ _ _ _ s0) by done.
    by rewrite insert_set_enabled.
  - rewrite (set_enabled_loop_skip _ _ _ _ _ "ipify") by done.
    rewrite (set_enabled_loop_here _ _ _ _ _ s1) by done.
    by rewrite insert_set_enabled.
  - rewrite (set_enabled_loop_skip _ _ _ _ _ "ipify") by done.
    rewrite (set_enabled_loop_skip _ _ _ _ _ "ipinfo") by done.
    rewrite (set_enabled_loop_here _ _ _ _ _ s2) by done.
    by rewrite insert_set_enabled.
  - rewrite (set_enabled_loop_skip _ _ _ _ _ "ipify") by done.
    rewrite (set_enabled_loop_skip _ _ _ _ _ "ipinfo") by done.
    rewrite (set_enabled_loop_skip _ _ _ _ _ "ifconfig") by done.
    rewrite (set_enabled_loop_here _ _ _ _ _ s3) by done.
    by rewrite insert_set_enabled.
Qed.

Lemma shaped_observed w d k n :
  default_shaped w d k -> n ∈ default_names ->
  observed_enabled d n w = enabled <$> objects w !! target k n.
Proof.
  intros (Hitems & H0 & H1 & H2 & H3) Hn.
  unfold observed_enabled, get_available_services, list_copy, new_list, enabled_in.
  unfold with_lists. rewrite items_of_last. simpl. rewrite Hitems.
  unfold default_names in Hn. rewrite !elem_of_cons in Hn.
  destruct Hn as [->|[->|[->|[->|Hn]]]]; [| | | |by apply elem_of_nil in Hn].
  - by rewrite find_name_here.
  - rewrite (find_name_skip _ _ "ipify") by done.
    by rewrite find_name_here.
  - rewrite (find_name_skip _ _ "ipify") by done.
    rewrite (find_name_skip _ _ "ipinfo") by done.
    by rewrite find_name_here.
  - rewrite (find_name_skip _ _ "ipify") by done.
    rewrite (find_name_skip _ _ "ipinfo") by done.
    rewrite (find_name_skip _ _ "ifconfig") by done.
    by rewrite find_name_here.
Qed.

Lemma defaults_intact_grow w objs' lists' tr :
  defaults_intact w ->
  defaults_intact {| objects := objects w ++ objs'; lists := lists w ++ lists'; trace := tr |}.
Proof.
  intros Hint. pose proof (defaults_intact_length w Hint) as [Ho Hl].
  destruct Hint as (Hlists & H0 & H1 & H2 & H3).
  unfold defaults_intact, DEFAULT_SERVICES in *. simpl.
  by rewrite !lookup_app_l by lia.
Qed.

Lemma name_entry_set_enabled w a b a' :
  name <$> objects (entry_set_enabled w a b) !! a' = name <$> objects w !! a'.
Proof.
  unfold entry_set_enabled. simpl. destruct (decide (a = a')) as [->|Hne].
  - rewrite list_lookup_alter_eq. by destruct (objects w !! a').
  - by rewrite list_lookup_alter_ne.
Qed.

Lemma defaults_intact_entry_set_enabled w a b :
  defaults_intact w -> defaults_intact (entry_set_enabled w a b).
Proof.
  intros (Hlists & H0 & H1 & H2 & H3).
  unfold defaults_intact. by rewrite !name_entry_set_enabled.
Qed.

Lemma default_shaped_grow w d k objs' lists' tr :
  (_services d < length (lists w))%nat ->
  default_shaped w d k ->
  default_shaped {| objects := objects w ++ objs'; lists := lists w ++ lists'; trace := tr |} d k.
Proof.
  intros Hl (Hitems & H0 & H1 & H2 & H3).
  unfold default_shaped, items_of in *. simpl.
  rewrite lookup_app_l by done. split; [done|].
  assert (∀ a n, name <$> objects w !! a = Some n ->
                 name <$> (objects w ++ objs') !! a = Some n) as Hkeep.
  { intros a n Ha. rewrite lookup_app_l; [done|].
    destruct (objects w !! a) eqn:E; [|done]. by eapply lookup_lt_Some. }
  auto.
Qed.

Lemma default_shaped_entry_set_enabled w d k a b :
  default_shaped w d k -> default_shaped (entry_set_enabled w a b) d k.
Proof.
  intros (Hitems & H0 & H1 & H2 & H3).
  unfold default_shaped. by rewrite !name_entry_set_enabled.
Qed.

Lemma init_default_eq w :
  defaults_intact w -> __init__ None w = (init_detector w, init_world w).
Proof.
  intros Hint. rewrite init_default by done. unfold init_detector, init_world.
  by rewrite <- !app_assoc.
Qed.

Lemma init_default_shaped w :
  defaults_intact w -> default_shaped (init_world w) (init_detector w) (length (objects w)).
Proof.
  intros Hint. pose proof (defaults_intact_length w Hint) as [Ho Hl].
  destruct Hint as (Hlists & H0 & H1 & H2 & H3).
  unfold default_shaped, init_world, init_detector. simpl.
  rewrite items_of_last. split; [done|].
  rewrite (lookup_app_l _ _ 3) by lia.
  rewrite !lookup_app_r by lia.
  rewrite Nat.sub_diag.
  replace (S (length (objects w)) - length (objects w))%nat with 1%nat by lia.
  replace (S (S (length (objects w))) - length (objects w))%nat with 2%nat by lia.
  done.
Qed.

Lemma init_world_own w j c :
  [config_ipify; config_ipinfo; config_ifconfig] !! j = Some c ->
  objects (init_world w) !! (length (objects w) + j)%nat = Some c.
Proof.
  intros Hj. unfold init_world. simpl. rewrite lookup_app_r by lia.
  by replace (length (objects w) + j - length (objects w))%nat with j by lia.
Qed.

Lemma default_shaped_init_other w d k :
  (_services d < length (lists w))%nat ->
  default_shaped w d k -> default_shaped (init_world w) d k.
Proof. intros. by apply default_shaped_grow. Qed.

Lemma defaults_intact_init w : defaults_intact w -> defaults_intact (init_world w).
Proof. intros. by apply defaults_intact_grow. Qed.

End DefaultInstances.

(** * Facts about the resolution cache and the name resolver *)

Section CacheFacts.
Import Py Resolution.

(** The built-in configuration overrides both constructor arguments. *)
Lemma init_eq enable_cache default_ttl :
  __init__ enable_cache default_ttl =
    {| _enable_cache := true; _default_ttl := 300; _cache := ∅;
       _config := Config.__init__ |}.
Proof. reflexivity. Qed.

Lemma get_from_cache_settings self h now :
  _enable_cache (_get_from_cache self h now).2 = _enable_cache self ∧
  _default_ttl (_get_from_cache self h now).2 = _default_ttl self.
Proof.
  unfold _get_from_cache. destruct (_enable_cache self) eqn:He; simpl; [|done].
  destruct (_cache self !! h) as [record|]; [|done].
  by destruct (is_expired record (_default_ttl self) now).
Qed.

Lemma store_in_cache_settings self h ip al now :
  _enable_cache (_store_in_cache self h ip al now) = _enable_cache self ∧
  _default_ttl (_store_in_cache self h ip al now) = _default_ttl self.
Proof. unfold _store_in_cache. by destruct (_enable_cache self) eqn:He. Qed.

(** No method switches the cache off. *)
Lemma reachable_cache_enabled self : reachable self -> _enable_cache self = true.
Proof.
  induction 1 as [e t|self h now _ IH|self h ip al now _ IH|self _ IH|self ttl _ IH].
  - by rewrite init_eq.
  - by rewrite (proj1 (get_from_cache_settings self h now)).
  - by rewrite (proj1 (store_in_cache_settings self h ip al now)).
  - done.
  - done.
Qed.

Lemma is_expired_spec r ttl now :
  is_expired r ttl now = true ↔ now - timestamp r > ttl.
Proof. unfold is_expired. rewrite Z.gtb_gt. lia. Qed.

Lemma get_from_cache_expired self k r now :
  _enable_cache self = true ->
  _cache self !! k = Some r ->
  is_expired r (_default_ttl self) now = true ->
  _get_from_cache self k now = (None, with_cache self (delete k (_cache self))).
Proof. intros He Hk Hexp. unfold _get_from_cache. by rewrite He, Hk, Hexp. Qed.

Lemma get_from_cache_fresh self k r now :
  _enable_cache self = true ->
  _cache self !! k = Some r ->
  is_expired r (_default_ttl self) now = false ->
  _get_from_cache self k now = (Some r, self).
Proof. intros He Hk Hexp. unfold _get_from_cache. by rewrite He, Hk, Hexp. Qed.

Lemma get_from_cache_hit self k now r :
  (_get_from_cache self k now).1 = Some r ->
  _cache self !! k = Some r ∧ is_expired r (_default_ttl self) now = false ∧
  (_get_from_cache self k now).2 = self.
Proof.
  unfold _get_from_cache. destruct (_enable_cache self); simpl; [|done].
  destruct (_cache self !! k) as [record|]; [|done].
  destruct (is_expired record (_default_ttl self) now) eqn:Hexp; simpl; [done|].
  by intros [= ->].
Qed.

(** After a miss the key is absent and the other keys are as before. *)
Lemma get_from_cache_miss self k now :
  _enable_cache self = true ->
  (_get_from_cache self k now).1 = None ->
  _cache (_get_from_cache self k now).2 = delete k (_cache self).
Proof.
  intros He. unfold _get_from_cache. rewrite He. simpl.
  destruct (_cache self !! k) as [record|] eqn:Hk.
  - by destruct (is_expired record (_default_ttl self) now).
  - intros _. simpl. by rewrite delete_id.
Qed.

Lemma get_from_cache_miss_state self k now :
  _enable_cache self = true ->
  (_get_from_cache self k now).1 = None ->
  (_get_from_cache self k now).2 = with_cache self (delete k (_cache self)).
Proof.
  intros He. unfold _get_from_cache. rewrite He. simpl.
  destruct (_cache self !! k) as [record|] eqn:Hk.
  - by destruct (is_expired record (_default_ttl self) now).
  - intros _. simpl. rewrite delete_id by done. by destruct self.
Qed.

End CacheFacts.

Section ResolveAllFacts.
Import Py Resolution.

Lemma before_snoc l x a b : before l a b -> before (l ++ [x]) a b.
Proof.
  intros (i & Hi & Hb). exists i. split.
  - by apply lookup_app_l_Some.
  - intros j Hj. destruct (decide (j < length l)%nat) as [Hlt|Hge].
    + apply Hb. by rewrite lookup_app_l in Hj.
    + apply lookup_lt_Some in Hi. lia.
Qed.

Lemma before_new l x a : a ∈ l -> x ∉ l -> before (l ++ [x]) a x.
Proof.
  intros Ha Hx. apply list_elem_of_lookup in Ha as [i Hi]. exists i. split.
  - by apply lookup_app_l_Some.
  - intros j Hj. destruct (decide (j < length l)%nat) as [Hlt|Hge].
    + rewrite lookup_app_l in Hj by done.
      destruct Hx. by eapply list_elem_of_lookup_2.
    + apply lookup_lt_Some in Hi. lia.
Qed.

(** The loop of [resolve_all], from any point of its run: [seen] are the
    addresses already gone through, [acc] the list built from them. *)
Lemma collect_addresses_inv info seen acc :
  NoDup acc ->
  (∀ a, a ∈ acc ↔ a ∈ seen) ->
  ordered_as acc seen ->
  NoDup (collect_addresses info acc) ∧
  (∀ a, a ∈ collect_addresses info acc ↔ a ∈ seen ++ (sa_host <$> info)) ∧
  ordered_as (collect_addresses info acc) (seen ++ (sa_host <$> info)) ∧
  acc `prefix_of` collect_addresses info acc.
Proof.
  revert seen acc. induction info as [|item rest IH]; intros seen acc Hnd Hel Hord; simpl.
  - rewrite app_nil_r. done.
  - assert (∀ l, seen ++ sa_host item :: l = (seen ++ [sa_host item]) ++ l) as Hre
      by (intros; by rewrite <- app_assoc).
    rewrite (Hre (list_fmap _ _ sa_host rest)). clear Hre.
    case_bool_decide as Hin.
    + apply IH; [done| |].
      * intros a. rewrite elem_of_app, list_elem_of_singleton, <- Hel.
        split; [auto|]. intros [?| ->]; done.
      * intros i j a b Hij Hi Hj. apply before_snoc. eauto.
    + destruct (IH (seen ++ [sa_host item]) (acc ++ [sa_host item])) as (H1 & H2 & H3 & H4).
      * apply NoDup_app. split_and!; [done| |apply NoDup_singleton].
        intros a Ha. rewrite list_elem_of_singleton. by intros ->.
      * intros a. rewrite !elem_of_app, Hel. done.
      * intros i j a b Hij Hi Hj.
        destruct (decide (j < length acc)%nat) as [Hlt|Hge].
        -- rewrite lookup_app_l in Hi by lia. rewrite lookup_app_l in Hj by done.
           apply before_snoc. eauto.
        -- assert (j = length acc) as ->.
           { apply lookup_lt_Some in Hj. rewrite length_app in Hj. simpl in Hj. lia. }
           rewrite list_lookup_middle in Hj by done. injection Hj as <-.
           rewrite lookup_app_l in Hi by done.
           apply before_new.
           ++ apply Hel. by eapply list_elem_of_lookup_2.
           ++ by rewrite <- Hel.
      * split_and!; [done..|].
        destruct H4 as [k ->]. exists ([sa_host item] ++ k). by rewrite app_assoc.
Qed.

Lemma collect_addresses_spec info :
  let res := collect_addresses info [] in
  let hosts := sa_host <$> info in
  NoDup res ∧ (∀ a, a ∈ res ↔ a ∈ hosts) ∧ ordered_as res hosts ∧ head res = head hosts.
Proof.
  intros res hosts.
  destruct (collect_addresses_inv info [] []) as (H1 & H2 & H3 & _).
  - apply NoDup_nil_2.
  - done.
  - intros i j a b _ Hi. done.
  - split_and!; [done..|].
    unfold res, hosts. destruct info as [|item rest]; [done|]. simpl.
    destruct (collect_addresses_inv rest [sa_host item] [sa_host item]) as (_ & _ & _ & [k Hk]).
    + apply NoDup_singleton.
    + done.
    + intros [|i] [|j] a b Hij Hi Hj; try lia; done.
    + by rewrite Hk.
Qed.

End ResolveAllFacts.

Section ResolveFacts.
Import Py Resolution.

Lemma resolve_all_miss self h family t_get dns t_store info :
  _enable_cache self = true ->
  (_get_from_cache self h t_get).1 = None ->
  dns h family = Return info ->
  resolve_all self h family t_get dns t_store =
    (collect_addresses info [],
     match collect_addresses info [] with
     | first :: _ =>
         with_cache self
           (<[h := {| hostname := h; ip_address := first;
                      aliases := (λ item, family_name (ai_family item)) <$> info;
                      record_type := "A"; timestamp := t_store |}]> (_cache self))
     | [] => with_cache self (delete h (_cache self))
     end).
Proof.
  intros He Hmiss Hdns. unfold resolve_all. rewrite He.
  pose proof (get_from_cache_miss_state self h t_get He Hmiss) as Hstate.
  destruct (_get_from_cache self h t_get) as [cached self1]. simpl in *. subst.
  rewrite Hdns. f_equal.
  destruct (collect_addresses info []) as [|first more]; [done|].
  simpl. rewrite He. unfold _store_in_cache. simpl. rewrite He. simpl.
  unfold with_cache. simpl. by rewrite insert_delete_eq.
Qed.

Lemma resolve_all_hit self h family t_get dns t_store r :
  _enable_cache self = true ->
  _cache self !! h = Some r ->
  is_expired r (_default_ttl self) t_get = false ->
  resolve_all self h family t_get dns t_store = ([ip_address r], self).
Proof.
  intros He Hk Hexp. unfold resolve_all.
  by rewrite He, (get_from_cache_fresh self h r t_get).
Qed.

Lemma resolve_all_NoDup self h family t_get dns t_store :
  NoDup (resolve_all self h family t_get dns t_store).1.
Proof.
  unfold resolve_all.
  destruct (if _enable_cache self then _get_from_cache self h t_get else (None, self))
    as [[record|] self1]; simpl.
  - apply NoDup_singleton.
  - destruct (dns h family) as [info|e]; simpl.
    + apply collect_addresses_spec.
    + apply NoDup_nil_2.
Qed.

(** What [resolve] does after a miss that the primitive answers with a
    non-empty first address. *)
Lemma resolve_miss self h family t_get dns t_store info first :
  _enable_cache self = true ->
  (_get_from_cache self h t_get).1 = None ->
  dns h family = Return info ->
  head (sa_host <$> info) = Some first ->
  truthy first = true ->
  resolve self h family t_get dns t_store =
    (Some first,
     with_cache self
       (<[h := {| hostname := h; ip_address := first;
                  aliases := (λ item, family_name (ai_family item)) <$> info;
                  record_type := "A"; timestamp := t_store |}]> (_cache self))).
Proof.
  intros He Hmiss Hdns Hfirst Htrue. unfold resolve, resolve_cached. rewrite He.
  pose proof (get_from_cache_miss_state self h t_get He Hmiss) as Hstate.
  destruct (_get_from_cache self h t_get) as [cached self1]. simpl in *. subst.
  unfold resolve_lookup. rewrite Hdns. simpl. rewrite Hfirst, Htrue, He. simpl.
  unfold _store_in_cache. simpl. rewrite He. simpl.
  unfold with_cache. simpl. by rewrite insert_delete_eq.
Qed.

(** Every method that changes the resolver stays within the reachable
    states. *)
Lemma reachable_resolve_cached self h now :
  reachable self -> reachable (resolve_cached self h now).2.
Proof.
  intros Hreach. unfold resolve_cached. destruct (_enable_cache self); [|done].
  pose proof (reach_get self h now Hreach) as Hget.
  by destruct (_get_from_cache self h now) as [[record|] self1].
Qed.

Lemma reachable_resolve_lookup self h family dns now :
  reachable self -> reachable (resolve_lookup self h family dns now).2.
Proof.
  intros Hreach. unfold resolve_lookup. destruct (dns h family) as [info|e]; [|done].
  simpl. destruct (head (sa_host <$> info)) as [ip|]; [|done].
  destruct (truthy ip && _enable_cache self); [|done].
  by apply reach_store.
Qed.

Lemma reachable_resolve self h family t_get dns t_store :
  reachable self -> reachable (resolve self h family t_get dns t_store).2.
Proof.
  intros Hreach. unfold resolve.
  pose proof (reachable_resolve_cached self h t_get Hreach) as Hc.
  destruct (resolve_cached self h t_get) as [[ip|] self1]; [done|].
  by apply reachable_resolve_lookup.
Qed.

Lemma reachable_resolve_all self h family t_get dns t_store :
  reachable self -> reachable (resolve_all self h family t_get dns t_store).2.
Proof.
  intros Hreach. unfold resolve_all.
  assert (reachable (if _enable_cache self then _get_from_cache self h t_get
                     else (None, self)).2) as Hget.
  { destruct (_enable_cache self); [by apply reach_get|done]. }
  destruct (if _enable_cache self then _get_from_cache self h t_get else (None, self))
    as [[record|] self1]; [done|].
  simpl in Hget. destruct (dns h family) as [info|e]; [|done]. simpl.
  destruct (collect_addresses info []) as [|first more]; [done|].
  destruct (_enable_cache self1); [|done]. by apply reach_store.
Qed.

End ResolveFacts.

Section BatchFacts.
Import Py Resolution.

Context (hostnames : list string) (family : AddressFamily).

Lemma step_length st e :
  length (step hostnames family st e).1 = length st.1.
Proof.
  unfold step. destruct (hostnames !! ev_task e) as [h|]; [|done].
  destruct (st.1 !! ev_task e) as [t|]; [|done].
  destruct (step_task st.2 h family t (ev_now e) (ev_dns e)) as [t' self'].
  simpl. by rewrite length_insert.
Qed.

Lemma run_length sched st :
  length (run hostnames family sched st).1 = length st.1.
Proof.
  unfold run. revert st. induction sched as [|e sched IH]; intros st; [done|].
  simpl. by rewrite IH, step_length.
Qed.

Lemma step_task_done self h ip now dns :
  step_task self h family (Done ip) now dns = (Done ip, self).
Proof. done. Qed.

(** A finished task stays finished, with the same result. *)
Lemma step_keeps_done st e i ip :
  st.1 !! i = Some (Done ip) ->
  (step hostnames family st e).1 !! i = Some (Done ip).
Proof.
  intros Hi. unfold step. destruct (hostnames !! ev_task e) as [h|]; [|done].
  destruct (st.1 !! ev_task e) as [t|] eqn:Ht; [|done].
  destruct (step_task st.2 h family t (ev_now e) (ev_dns e)) as [t' self'] eqn:Hstep.
  simpl. destruct (decide (ev_task e = i)) as [Heq|Hne].
  - rewrite Heq in Ht. rewrite Hi in Ht. injection Ht as <-.
    simpl in Hstep. injection Hstep as <- <-.
    rewrite Heq. apply list_lookup_insert_eq. by eapply lookup_lt_Some.
  - by rewrite list_lookup_insert_ne.
Qed.

Lemma run_keeps_done sched st i ip :
  st.1 !! i = Some (Done ip) ->
  (run hostnames family sched st).1 !! i = Some (Done ip).
Proof.
  unfold run. revert st. induction sched as [|e sched IH]; intros st Hi; [done|].
  simpl. apply IH. by apply step_keeps_done.
Qed.

Lemma reachable_step st e :
  reachable st.2 -> reachable (step hostnames family st e).2.
Proof.
  intros Hreach. unfold step. destruct (hostnames !! ev_task e) as [h|]; [|done].
  destruct (st.1 !! ev_task e) as [t|]; [|done].
  destruct t as [| |ip]; simpl.
  - pose proof (reachable_resolve_cached st.2 h (ev_now e) Hreach) as Hc.
    by destruct (resolve_cached st.2 h (ev_now e)) as [[ip|] self1].
  - pose proof (reachable_resolve_lookup st.2 h family (ev_dns e) (ev_now e) Hreach) as Hc.
    by destruct (resolve_lookup st.2 h family (ev_dns e) (ev_now e)) as [ip self1].
  - done.
Qed.

Lemma reachable_run sched st :
  reachable st.2 -> reachable (run hostnames family sched st).2.
Proof.
  unfold run. revert st. induction sched as [|e sched IH]; intros st Hreach; [done|].
  simpl. apply IH. by apply reachable_step.
Qed.

(** Two steps finish a task. *)
Lemma two_steps_finish st e1 e2 i :
  ev_task e1 = i -> ev_task e2 = i ->
  is_Some (hostnames !! i) -> is_Some (st.1 !! i) ->
  ∃ ip, (step hostnames family (step hostnames family st e1) e2).1 !! i = Some (Done ip).
Proof.
  intros H1 H2 [h Hh] [t Ht].
  assert (i < length st.1)%nat as Hlt by (by eapply lookup_lt_Some).
  assert (∃ t1, (step hostnames family st e1).1 !! i = Some t1 ∧
                (t1 = Looking ∨ ∃ ip, t1 = Done ip)) as (t1 & Ht1 & Hcase).
  { unfold step. rewrite H1, Hh, Ht.
    destruct (step_task st.2 h family t (ev_now e1) (ev_dns e1)) as [t' self'] eqn:Hstep.
    simpl. rewrite list_lookup_insert_eq by done. exists t'. split; [done|].
    destruct t as [| |ip]; simpl in Hstep.
    - destruct (resolve_cached st.2 h (ev_now e1)) as [[ip|] s1];
        injection Hstep as <- <-; eauto.
    - destruct (resolve_lookup st.2 h family (ev_dns e1) (ev_now e1)) as [ip s1].
      injection Hstep as <- <-. eauto.
    - injection Hstep as <- <-. eauto. }
  destruct Hcase as [->|[ip ->]].
  - unfold step at 1. rewrite H2, Hh, Ht1. simpl.
    destruct (resolve_lookup _ h family (ev_dns e2) (ev_now e2)) as [ip s2].
    simpl. exists ip. apply list_lookup_insert_eq. by rewrite step_length.
  - exists ip. by apply step_keeps_done.
Qed.

Lemma run_cons e sched st :
  run hostnames family (e :: sched) st = run hostnames family sched (step hostnames family st e).
Proof. done. Qed.

Lemma run_each_twice now dns (indices : list nat) st i :
  length st.1 = length hostnames ->
  Forall (λ j, j < length hostnames)%nat indices ->
  i ∈ indices ->
  ∃ ip, (run hostnames family
           (flat_map (λ j, [ {| ev_task := j; ev_now := now; ev_dns := dns |};
                             {| ev_task := j; ev_now := now; ev_dns := dns |} ]) indices)
           st).1 !! i = Some (Done ip).
Proof.
  revert st. induction indices as [|j rest IH]; intros st Hlen Hall Hin.
  - by apply elem_of_nil in Hin.
  - apply Forall_cons in Hall as [Hj Hall]. cbn [flat_map app]. rewrite !run_cons.
    destruct (decide (i = j)) as [->|Hne].
    + destruct (two_steps_finish st
                  {| ev_task := j; ev_now := now; ev_dns := dns |}
                  {| ev_task := j; ev_now := now; ev_dns := dns |} j)
        as [ip Hip]; [done|done|by apply lookup_lt_is_Some|
                      apply lookup_lt_is_Some; lia|].
      exists ip. by apply run_keeps_done.
    + apply elem_of_cons in Hin as [?|Hin]; [done|].
      apply IH; [by rewrite !step_length|done|done].
Qed.

(** Every input has a schedule that finishes all its tasks. *)
Lemma sequential_schedule_completes self now dns :
  completes self hostnames family (sequential_schedule (length hostnames) now dns).
Proof.
  unfold completes. apply Forall_lookup. intros i t Hi.
  assert (i < length hostnames)%nat as Hlt.
  { apply lookup_lt_Some in Hi. rewrite run_length in Hi. simpl in Hi.
    by rewrite length_replicate in Hi. }
  destruct (run_each_twice now dns (seq 0 (length hostnames))
              (replicate (length hostnames) Queued, self) i) as [ip Hip].
  - simpl. by rewrite length_replicate.
  - apply Forall_forall. intros j Hj. apply elem_of_seq in Hj. lia.
  - apply elem_of_seq. lia.
  - unfold sequential_schedule in Hi. rewrite Hip in Hi. by injection Hi as <-.
Qed.

(** *** The mapping built from the finished tasks *)

Lemma record_result_lookup_ne tasks results i h :
  hostnames !! i ≠ Some h ->
  record_result hostnames tasks results i !! h = results !! h.
Proof.
  intros Hne. unfold record_result.
  destruct (hostnames !! i) as [h'|]; [|done].
  destruct (tasks !! i) as [[| |ip]|]; try done.
  apply lookup_insert_ne. congruence.
Qed.

Lemma collect_from_lookup tasks order results h v :
  foldl (record_result hostnames tasks) results order !! h = Some v ->
  results !! h = Some v ∨
  ∃ i, i ∈ order ∧ hostnames !! i = Some h ∧ tasks !! i = Some (Done v).
Proof.
  revert results. induction order as [|i order IH]; intros results; simpl; [auto|].
  intros Hv. apply IH in Hv as [Hv|(j & Hj & Hh & Ht)].
  - unfold record_result in Hv.
    destruct (hostnames !! i) as [h'|] eqn:Hh; [|auto].
    destruct (tasks !! i) as [[| |ip]|] eqn:Ht; auto.
    destruct (decide (h' = h)) as [->|Hne].
    + rewrite lookup_insert_eq in Hv. injection Hv as ->.
      right. exists i. split; [left|done].
    + rewrite lookup_insert_ne in Hv by done. auto.
  - right. exists j. split; [by right|done].
Qed.

Lemma collect_from_is_Some tasks order results h :
  is_Some (results !! h) ∨
    (∃ i ip, i ∈ order ∧ hostnames !! i = Some h ∧ tasks !! i = Some (Done ip)) ->
  is_Some (foldl (record_result hostnames tasks) results order !! h).
Proof.
  revert results. induction order as [|i order IH]; intros results; simpl.
  - intros [?|(i & ip & Hi & _)]; [done|]. by apply elem_of_nil in Hi.
  - intros [Hres|(j & ip & Hj & Hh & Ht)].
    + apply IH. left. unfold record_result.
      destruct (hostnames !! i) as [h'|]; [|done].
      destruct (tasks !! i) as [[| |ip]|]; try done.
      destruct (decide (h' = h)) as [->|Hne].
      * rewrite lookup_insert_eq. eauto.
      * by rewrite lookup_insert_ne.
    + apply elem_of_cons in Hj as [->|Hj].
      * apply IH. left. unfold record_result. rewrite Hh, Ht.
        rewrite lookup_insert_eq. eauto.
      * apply IH. right. eauto.
Qed.

(** The entry of [h] is made from the tasks of [h] alone. *)
Lemma collect_results_local tasks1 tasks2 order h :
  (∀ i, hostnames !! i = Some h -> tasks1 !! i = tasks2 !! i) ->
  collect_results hostnames tasks1 order !! h = collect_results hostnames tasks2 order !! h.
Proof.
  intros Hsame. unfold collect_results.
  assert (∀ r1 r2 : gmap string (option string), r1 !! h = r2 !! h ->
            foldl (record_result hostnames tasks1) r1 order !! h =
            foldl (record_result hostnames tasks2) r2 order !! h) as Hgen; [|by apply Hgen].
  induction order as [|i order IH]; intros r1 r2 Hr; simpl; [done|].
  apply IH. destruct (decide (hostnames !! i = Some h)) as [Hh|Hne].
  - unfold record_result. rewrite Hh, (Hsame i Hh).
    destruct (tasks2 !! i) as [[| |ip]|]; try done.
    by rewrite !lookup_insert_eq.
  - by rewrite !record_result_lookup_ne.
Qed.

(** *** Tasks of different hostnames do not meet *)

Lemma agree_on_refl h s : agree_on h s s.
Proof. done. Qed.

Lemma agree_on_trans h s1 s2 s3 : agree_on h s1 s2 -> agree_on h s2 s3 -> agree_on h s1 s3.
Proof. intros (? & ? & ?) (? & ? & ?). unfold agree_on. split_and!; congruence. Qed.

Lemma agree_on_sym h s1 s2 : agree_on h s1 s2 -> agree_on h s2 s1.
Proof. intros (? & ? & ?). unfold agree_on. split_and!; congruence. Qed.

Lemma get_from_cache_agree h s1 s2 now :
  agree_on h s1 s2 ->
  (_get_from_cache s1 h now).1 = (_get_from_cache s2 h now).1 ∧
  agree_on h (_get_from_cache s1 h now).2 (_get_from_cache s2 h now).2.
Proof.
  intros Hag. pose proof Hag as (He & Httl & Hc).
  unfold _get_from_cache. rewrite <- He, <- Httl, <- Hc.
  destruct (_enable_cache s1) eqn:E; simpl; [|done].
  destruct (_cache s1 !! h) as [record|] eqn:Hk; [|done].
  destruct (is_expired record (_default_ttl s1) now); simpl; [|done].
  split; [done|]. unfold agree_on. simpl.
  split_and!; [congruence|congruence|by rewrite !lookup_delete_eq].
Qed.

Lemma get_from_cache_other h h' s now :
  h' ≠ h -> agree_on h s (_get_from_cache s h' now).2.
Proof.
  intros Hne. unfold _get_from_cache.
  destruct (_enable_cache s) eqn:E; simpl; [|done].
  destruct (_cache s !! h') as [record|] eqn:Hk; [|done].
  destruct (is_expired record (_default_ttl s) now); simpl; [|done].
  unfold agree_on. simpl. by rewrite lookup_delete_ne.
Qed.

Lemma store_in_cache_agree h s1 s2 ip al now :
  agree_on h s1 s2 ->
  agree_on h (_store_in_cache s1 h ip al now) (_store_in_cache s2 h ip al now).
Proof.
  intros Hag. pose proof Hag as (He & Httl & Hc).
  unfold _store_in_cache. rewrite <- He.
  destruct (_enable_cache s1) eqn:E; simpl; [|done].
  unfold agree_on. simpl.
  split_and!; [congruence|congruence|by rewrite !lookup_insert_eq].
Qed.

Lemma store_in_cache_other h h' s ip al now :
  h' ≠ h -> agree_on h s (_store_in_cache s h' ip al now).
Proof.
  intros Hne. unfold _store_in_cache.
  destruct (_enable_cache s) eqn:E; simpl; [|done].
  unfold agree_on. simpl. by rewrite lookup_insert_ne.
Qed.

Lemma resolve_cached_agree h s1 s2 now :
  agree_on h s1 s2 ->
  (resolve_cached s1 h now).1 = (resolve_cached s2 h now).1 ∧
  agree_on h (resolve_cached s1 h now).2 (resolve_cached s2 h now).2.
Proof.
  intros Hag. pose proof (get_from_cache_agree h s1 s2 now Hag) as [Hv Hs].
  unfold resolve_cached. pose proof Hag as (He & _). rewrite <- He.
  destruct (_enable_cache s1) eqn:E; [|done].
  destruct (_get_from_cache s1 h now) as [c1 t1], (_get_from_cache s2 h now) as [c2 t2].
  simpl in *. subst c2. by destruct c1.
Qed.

Lemma resolve_cached_other h h' s now :
  h' ≠ h -> agree_on h s (resolve_cached s h' now).2.
Proof.
  intros Hne. pose proof (get_from_cache_other h h' s now Hne) as Hs.
  unfold resolve_cached. destruct (_enable_cache s); [|done].
  destruct (_get_from_cache s h' now) as [[c|] t]; done.
Qed.

Lemma resolve_lookup_agree h s1 s2 dns now :
  agree_on h s1 s2 ->
  (resolve_lookup s1 h family dns now).1 = (resolve_lookup s2 h family dns now).1 ∧
  agree_on h (resolve_lookup s1 h family dns now).2 (resolve_lookup s2 h family dns now).2.
Proof.
  intros Hag. unfold resolve_lookup. destruct (dns h family) as [info|e]; [|done].
  simpl. split; [done|]. destruct (head (sa_host <$> info)) as [ip|]; [|done].
  pose proof Hag as (He & _). rewrite <- He.
  destruct (truthy ip && _enable_cache s1); [|done].
  by apply store_in_cache_agree.
Qed.

Lemma resolve_lookup_other h h' s dns now :
  h' ≠ h -> agree_on h s (resolve_lookup s h' family dns now).2.
Proof.
  intros Hne. unfold resolve_lookup. destruct (dns h' family) as [info|e]; [|done].
  simpl. destruct (head (sa_host <$> info)) as [ip|]; [|done].
  destruct (truthy ip && _enable_cache s); [|done].
  by apply store_in_cache_other.
Qed.

Lemma step_task_agree h s1 s2 t now dns :
  agree_on h s1 s2 ->
  (step_task s1 h family t now dns).1 = (step_task s2 h family t now dns).1 ∧
  agree_on h (step_task s1 h family t now dns).2 (step_task s2 h family t now dns).2.
Proof.
  intros Hag. destruct t as [| |ip]; simpl.
  - pose proof (resolve_cached_agree h s1 s2 now Hag) as [Hv Hs].
    destruct (resolve_cached s1 h now) as [c1 t1], (resolve_cached s2 h now) as [c2 t2].
    simpl in *. subst c2. by destruct c1.
  - pose proof (resolve_lookup_agree h s1 s2 dns now Hag) as [Hv Hs].
    destruct (resolve_lookup s1 h family dns now) as [c1 t1],
             (resolve_lookup s2 h family dns now) as [c2 t2].
    simpl in *. by subst c2.
  - done.
Qed.

Lemma step_task_other h h' s t now dns :
  h' ≠ h -> agree_on h s (step_task s h' family t now dns).2.
Proof.
  intros Hne. destruct t as [| |ip]; simpl.
  - pose proof (resolve_cached_other h h' s now Hne) as Hs.
    by destruct (resolve_cached s h' now) as [[c|] t1].
  - pose proof (resolve_lookup_other h h' s dns now Hne) as Hs.
    by destruct (resolve_lookup s h' family dns now) as [c t1].
  - done.
Qed.

Lemma step_same h st1 st2 e :
  hostnames !! ev_task e = Some h ->
  same_for hostnames h st1 st2 ->
  same_for hostnames h (step hostnames family st1 e) (step hostnames family st2 e).
Proof.
  intros Hh [Htasks Hag]. simpl in Htasks. unfold step. rewrite Hh, <- (Htasks _ Hh).
  destruct (st1.1 !! ev_task e) as [t|] eqn:Ht; [|done].
  pose proof (step_task_agree h st1.2 st2.2 t (ev_now e) (ev_dns e) Hag) as [Hv Hs].
  destruct (step_task st1.2 h family t (ev_now e) (ev_dns e)) as [t1 s1],
           (step_task st2.2 h family t (ev_now e) (ev_dns e)) as [t2 s2].
  simpl in *. subst t2. split; [|done]. simpl. intros i Hi.
  destruct (decide (i = ev_task e)) as [->|Hne].
  - rewrite !list_lookup_insert_eq; [done| |].
    + rewrite (Htasks _ Hh) in Ht. by eapply lookup_lt_Some.
    + by eapply lookup_lt_Some.
  - rewrite !list_lookup_insert_ne by done. by apply Htasks.
Qed.

Lemma step_other h st1 st2 e :
  hostnames !! ev_task e ≠ Some h ->
  same_for hostnames h st1 st2 ->
  same_for hostnames h (step hostnames family st1 e) st2.
Proof.
  intros Hh [Htasks Hag]. unfold step.
  destruct (hostnames !! ev_task e) as [h'|] eqn:Hh'; [|done].
  destruct (st1.1 !! ev_task e) as [t|] eqn:Ht; [|done].
  assert (h' ≠ h) as Hne by congruence.
  pose proof (step_task_other h h' st1.2 t (ev_now e) (ev_dns e) Hne) as Hs.
  destruct (step_task st1.2 h' family t (ev_now e) (ev_dns e)) as [t1 s1].
  simpl in *. split; simpl.
  - intros i Hi. rewrite list_lookup_insert_ne by congruence. by apply Htasks.
  - eapply agree_on_trans; [|done]. by apply agree_on_sym.
Qed.

(** Leaving out the steps of the other hostnames changes nothing for [h]. *)
Lemma run_steps_for h sched st1 st2 :
  same_for hostnames h st1 st2 ->
  same_for hostnames h (run hostnames family sched st1)
             (run hostnames family (steps_for hostnames h sched) st2).
Proof.
  revert st1 st2. induction sched as [|e sched IH]; intros st1 st2 Hsame; [done|].
  rewrite run_cons. unfold steps_for.
  destruct (decide (hostnames !! ev_task e = Some h)) as [Hh|Hne].
  - rewrite filter_cons_True by done. rewrite run_cons.
    apply IH. by apply step_same.
  - rewrite filter_cons_False by done. apply IH. by apply step_other.
Qed.

(** A task that takes its two steps computes [resolve], with the clock of
    its first step for the cache and the name service and clock of its
    second step for the lookup. *)
Lemma task_runs_resolve self h now1 dns1 now2 dns2 :
  let '(t1, self1) := step_task self h family Queued now1 dns1 in
  step_task self1 h family t1 now2 dns2 =
    (Done (resolve self h family now1 dns2 now2).1,
     (resolve self h family now1 dns2 now2).2).
Proof.
  unfold resolve. simpl.
  destruct (resolve_cached self h now1) as [[ip|] self1]; simpl; [done|].
  by destruct (resolve_lookup self1 h family dns2 now2).
Qed.

End BatchFacts.

(** * The properties *)

(** ** Sequential fallback *)

(** C1. The sequential walk never returns an address: whatever the
    registry and the network, [detect_public_ip_sync] returns [None] and
    records no service. In the scenario, where A fails and B and C succeed,
    it sends the three requests in registry order and returns [None]: after
    B's body is read and trimmed to ["203.0.113.7"], the assignment
    [self._last_used_service = service_name] raises [NameError], which the
    handler for [Exception] takes for a failure of the service. The
    concurrent mode, on the same registry and network, returns B's
    address. *)
Theorem detect_public_ip_sync_loses_first_success :
  (∀ network self timeout w,
     (PublicIP.detect_public_ip_sync network self timeout w).1 = (None, self)) ∧
  PublicIP.registry PublicIP.Scenario.start PublicIP.Scenario.detector
    = [Some PublicIP.Scenario.A; Some PublicIP.Scenario.B; Some PublicIP.Scenario.C] ∧
  PublicIP.detect_public_ip_sync PublicIP.Scenario.network
      PublicIP.Scenario.detector 10 PublicIP.Scenario.start
    = (None, PublicIP.Scenario.detector,
       {| PublicIP.objects := PublicIP.objects PublicIP.Scenario.start;
          PublicIP.lists := PublicIP.lists PublicIP.Scenario.start;
          PublicIP.trace := [PublicIP.Urlopen "https://a.example/ip" 10;
                             PublicIP.Urlopen "https://b.example/ip" 10;
                             PublicIP.Urlopen "https://c.example/ip" 10] |}) ∧
  (PublicIP.query_service PublicIP.Scenario.network PublicIP.Scenario.B
      (PublicIP.emit PublicIP.Scenario.start (PublicIP.Urlopen "https://a.example/ip" 10))).1
    = ("B", Some "203.0.113.7", None) ∧
  (PublicIP.detect_public_ip PublicIP.Scenario.network
      PublicIP.Scenario.detector 10 3 [0; 1; 2]%nat PublicIP.Scenario.start).1.1
    = Py.Return (Some "203.0.113.7").
Proof.
  split.
  - intros network self timeout w. unfold PublicIP.detect_public_ip_sync.
    pose proof (sync_loop_never_succeeds network self timeout
                  (PublicIP.items_of w (PublicIP._services self)) w) as [H1 H2].
    destruct (PublicIP.sync_loop _ _ _ _ _) as [[r d] w']. simpl in *. by subst.
  - vm_compute. done.
Qed.

(** ** Testing one service *)

(** C2. [test_service(n)] for a name the registry holds raises [NameError]:
    [query_service] is a function local to [detect_public_ip] and is not
    bound where [test_service] uses it, so no probe is made and no triple is
    returned. For a name the registry does not hold, the result is
    [(False, None, "Service not found")]. *)
Theorem test_service_outcome
    (self : PublicIP.PublicIPDetector) (n : string) (w : PublicIP.world) :
  ((∃ s, Some s ∈ PublicIP.registry w self ∧ PublicIP.name s = n) ->
     PublicIP.test_service self n w = Py.Raise (Py.NameError "query_service")) ∧
  ((∀ s, Some s ∈ PublicIP.registry w self -> PublicIP.name s ≠ n) ->
     PublicIP.test_service self n w = Py.Return (false, None, Some "Service not found")).
Proof.
  unfold PublicIP.test_service. rewrite test_service_loop_spec. split.
  - intros (s & Hin & Hn). apply elem_of_registry in Hin as (a & Ha & Hs).
    by destruct (find_name_is_Some _ _ _ _ _ Ha Hs Hn) as [i ->].
  - intros Hnone. rewrite find_name_absent; [done|].
    intros a s Ha Hs. apply Hnone, elem_of_registry. eauto.
Qed.

Lemma test_service_outcome_witness :
  (∃ s, Some s ∈ PublicIP.registry PublicIP.Scenario.start PublicIP.Scenario.detector ∧
        PublicIP.name s = "B") ∧
  PublicIP.test_service PublicIP.Scenario.detector "B" PublicIP.Scenario.start
    = Py.Raise (Py.NameError "query_service") ∧
  (∀ s, Some s ∈ PublicIP.registry PublicIP.Scenario.start PublicIP.Scenario.detector ->
        PublicIP.name s ≠ "ipify") ∧
  PublicIP.test_service PublicIP.Scenario.detector "ipify" PublicIP.Scenario.start
    = Py.Return (false, None, Some "Service not found").
Proof.
  assert (∃ s, Some s ∈ PublicIP.registry PublicIP.Scenario.start PublicIP.Scenario.detector ∧
               PublicIP.name s = "B") as HB.
  { exists PublicIP.Scenario.B. split; [|reflexivity].
    change (PublicIP.registry PublicIP.Scenario.start PublicIP.Scenario.detector)
      with [Some PublicIP.Scenario.A; Some PublicIP.Scenario.B; Some PublicIP.Scenario.C].
    apply list_elem_of_further, list_elem_of_here. }
  assert (∀ s, Some s ∈ PublicIP.registry PublicIP.Scenario.start PublicIP.Scenario.detector ->
               PublicIP.name s ≠ "ipify") as Hnone.
  { change (PublicIP.registry PublicIP.Scenario.start PublicIP.Scenario.detector)
      with [Some PublicIP.Scenario.A; Some PublicIP.Scenario.B; Some PublicIP.Scenario.C].
    intros s Hs. rewrite !elem_of_cons in Hs.
    destruct Hs as [[= ->]|[[= ->]|[[= ->]|Hs]]]; [done|done|done|].
    by apply elem_of_nil in Hs. }
  split_and!; [exact HB| |exact Hnone|].
  - exact (proj1 (test_service_outcome _ "B" _) HB).
  - exact (proj2 (test_service_outcome _ "ipify" _) Hnone).
Defined.

(** ** Listing the services *)

(** C3, the claim as stated fails: a caller that lists the services of a
    detector and clears the [enabled] flag of the first entry it was given
    has disabled that service in the detector's registry. *)
Lemma listing_entry_is_registry_entry :
  let '(d, w) := PublicIP.__init__ None PublicIP.module_world in
  let '(l, w1) := PublicIP.get_available_services d w in
  ∃ a, PublicIP.items_of w1 l !! 0%nat = Some a ∧
       PublicIP.observed_enabled d "ipify" w1 = Some true ∧
       PublicIP.observed_enabled d "ipify" (PublicIP.entry_set_enabled w1 a false) = Some false ∧
       PublicIP.registry (PublicIP.entry_set_enabled w1 a false) d ≠ PublicIP.registry w1 d.
Proof. vm_compute. exists 4%nat. split_and!; try done. Qed.

(** C3 (as the code has it). [get_available_services] returns a new list
    that holds the registry's own entries. Whatever the caller does to the
    returned list itself (its items replaced by any others) leaves the
    registry as it was; but an entry reached through the returned list is
    the registry's entry, so setting its [enabled] flag or its [url] shows
    in the registry at that position. *)
Theorem get_available_services_copies_list_only
    (self : PublicIP.PublicIPDetector) (w : PublicIP.world) :
  PublicIP.wf w self ->
  let l := (PublicIP.get_available_services self w).1 in
  let w1 := (PublicIP.get_available_services self w).2 in
  l ≠ PublicIP._services self ∧
  PublicIP.items_of w1 l = PublicIP.items_of w (PublicIP._services self) ∧
  PublicIP.registry w1 self = PublicIP.registry w self ∧
  (∀ items', PublicIP.registry (PublicIP.store_items w1 l items') self
             = PublicIP.registry w self) ∧
  (∀ i a s, PublicIP.items_of w1 l !! i = Some a ->
            PublicIP.objects w !! a = Some s ->
     (∀ b, PublicIP.registry (PublicIP.entry_set_enabled w1 a b) self !! i
           = Some (Some (PublicIP.set_enabled s b))) ∧
     (∀ u, PublicIP.registry (PublicIP.entry_set_url w1 a u) self !! i
           = Some (Some (PublicIP.set_url s u)))).
Proof.
  intros [Hl Hitems] l w1. unfold l, w1. rewrite get_available_services_eq. simpl.
  assert (PublicIP.items_of
            (PublicIP.with_lists w (PublicIP.lists w ++ [PublicIP.items_of w (PublicIP._services self)]))
            (length (PublicIP.lists w)) = PublicIP.items_of w (PublicIP._services self)) as Hcopy.
  { unfold PublicIP.items_of at 1. simpl.
    by rewrite lookup_app_r, Nat.sub_diag by done. }
  split_and!.
  - lia.
  - done.
  - by apply registry_with_lists_app.
  - intros items'. rewrite registry_store_items_ne by lia.
    by apply registry_with_lists_app.
  - intros i a s Hi Ha. rewrite Hcopy in Hi. unfold PublicIP.items_of in Hi.
    split; intros x; unfold PublicIP.registry, PublicIP.items_of; simpl;
      rewrite lookup_app_l by done;
      rewrite list_lookup_fmap, Hi; simpl;
      by rewrite list_lookup_alter_eq, Ha.
Qed.

Lemma get_available_services_copies_list_only_witness :
  PublicIP.wf PublicIP.Scenario.start PublicIP.Scenario.detector ∧
  (∀ items', PublicIP.registry
      (PublicIP.store_items (PublicIP.get_available_services PublicIP.Scenario.detector
                               PublicIP.Scenario.start).2
         (PublicIP.get_available_services PublicIP.Scenario.detector PublicIP.Scenario.start).1
         items') PublicIP.Scenario.detector
    = PublicIP.registry PublicIP.Scenario.start PublicIP.Scenario.detector).
Proof.
  assert (PublicIP.wf PublicIP.Scenario.start PublicIP.Scenario.detector) as Hwf.
  { split; [vm_compute; lia|]. vm_compute. repeat constructor. }
  split; [exact Hwf|].
  exact (proj1 (proj2 (proj2 (proj2
           (get_available_services_copies_list_only _ _ Hwf))))).
Defined.

(** ** What resolve caches *)

(** C4. In the scenario the cache is empty and the primitive answers with
    entries whose canonical names are empty. [resolve] returns the first
    address and stores a record under the hostname, but the record's
    [aliases] are the names of the address families of the entries
    ([item[0].name]), not names reported for the host. *)
Theorem resolve_stores_family_names_as_aliases :
  (Resolution._get_from_cache Resolution.Scenario.resolver "example.test" 1000).1 = None ∧
  Resolution.Scenario.dns "example.test" Resolution.AF_UNSPEC
    = Py.Return Resolution.Scenario.info ∧
  Resolution.ai_canonname <$> Resolution.Scenario.info = [EmptyString; EmptyString; EmptyString] ∧
  let '(ip, self') :=
    Resolution.resolve Resolution.Scenario.resolver "example.test" Resolution.AF_UNSPEC
      1000 Resolution.Scenario.dns 1001 in
  ip = Some "93.184.216.34" ∧
  Resolution._cache self' !! "example.test" =
    Some {| Resolution.hostname := "example.test";
            Resolution.ip_address := "93.184.216.34";
            Resolution.aliases := ["AF_INET"; "AF_INET6"; "AF_INET"];
            Resolution.record_type := "A";
            Resolution.timestamp := 1001 |} ∧
  (Resolution.aliases <$> Resolution._cache self' !! "example.test")
    ≠ Some (Resolution.ai_canonname <$> Resolution.Scenario.info).
Proof. vm_compute. split_and!; done. Qed.

(** ** No enabled service *)

(** C5. When the registry is empty or every entry is disabled, both
    [detect_public_ip] and [detect_public_ip_sync] return [None] and leave
    the world as it was: no request is sent and no probe is handed to a
    worker (the trace is unchanged), whatever the network and the scheduler
    would have done. *)
Theorem no_enabled_service_no_probe
    (network : list PublicIP.event -> string -> Z -> PublicIP.http_result)
    (self : PublicIP.PublicIPDetector) (w : PublicIP.world)
    (timeout max_workers : Z) (yielded : list nat) :
  (∀ s, Some s ∈ PublicIP.registry w self -> PublicIP.enabled s = false) ->
  PublicIP.detect_public_ip network self timeout max_workers yielded w
    = (Py.Return None, self, w) ∧
  PublicIP.detect_public_ip_sync network self timeout w = (None, self, w).
Proof.
  intros Hall.
  assert (∀ a s, a ∈ PublicIP.items_of w (PublicIP._services self) ->
                 PublicIP.objects w !! a = Some s -> PublicIP.enabled s = false) as Hitems.
  { intros a s Hin Hs. apply Hall, elem_of_registry. eauto. }
  split.
  - unfold PublicIP.detect_public_ip. by rewrite filter_enabled_nil.
  - by apply sync_loop_all_disabled.
Qed.

Lemma no_enabled_service_no_probe_witness :
  let w := PublicIP.entry_set_enabled
             (PublicIP.entry_set_enabled
               (PublicIP.entry_set_enabled PublicIP.Scenario.start 4 false) 5 false) 6 false in
  (∀ s, Some s ∈ PublicIP.registry w PublicIP.Scenario.detector -> PublicIP.enabled s = false) ∧
  PublicIP.detect_public_ip PublicIP.Scenario.network PublicIP.Scenario.detector 10 3 [] w
    = (Py.Return None, PublicIP.Scenario.detector, w) ∧
  PublicIP.detect_public_ip_sync PublicIP.Scenario.network PublicIP.Scenario.detector 10 w
    = (None, PublicIP.Scenario.detector, w).
Proof.
  intros w.
  assert (∀ s, Some s ∈ PublicIP.registry w PublicIP.Scenario.detector ->
               PublicIP.enabled s = false) as Hall.
  { change (PublicIP.registry w PublicIP.Scenario.detector)
      with [Some (PublicIP.set_enabled PublicIP.Scenario.A false);
            Some (PublicIP.set_enabled PublicIP.Scenario.B false);
            Some (PublicIP.set_enabled PublicIP.Scenario.C false)].
    intros s Hs. rewrite !elem_of_cons in Hs.
    destruct Hs as [[= ->]|[[= ->]|[[= ->]|Hs]]]; [done|done|done|].
    by apply elem_of_nil in Hs. }
  split; [exact Hall|].
  exact (no_enabled_service_no_probe PublicIP.Scenario.network
           PublicIP.Scenario.detector w 10 3 [] Hall).
Defined.

(** ** Adding a service under a used name *)

(** C6. [add_service] (through [_update_service]) replaces, at its position,
    the first entry that has the new entry's name: the registry keeps its
    length, every other position keeps its entry, and the position holds the
    new URL, timeout and enabled flag. When no entry has that name the new
    entry is appended at the end. *)
Theorem add_service_replaces_or_appends
    (self : PublicIP.PublicIPDetector) (w : PublicIP.world)
    (n u : string) (t : Z) (e : bool) :
  PublicIP.wf w self ->
  let new := {| PublicIP.name := n; PublicIP.url := u;
                PublicIP.timeout := t; PublicIP.enabled := e |} in
  let reg := PublicIP.registry w self in
  let reg' := PublicIP.registry (PublicIP.add_service self n u t e w) self in
  (∀ i, PublicIP.first_named reg n i ->
     reg' = <[i := Some new]> reg ∧
     length reg' = length reg ∧
     reg' !! i = Some (Some new) ∧
     ∀ j, j ≠ i -> reg' !! j = reg !! j) ∧
  ((∀ s, Some s ∈ reg -> PublicIP.name s ≠ n) ->
     reg' = (reg ++ [Some new])%list).
Proof.
  intros Hwf new reg reg'.
  pose proof (add_service_registry self n u t e w Hwf) as Hadd.
  fold new reg reg' in Hadd. simpl in Hadd. split.
  - intros i Hfirst. pose proof Hfirst as [(s & Hi & _) _].
    unfold reg, PublicIP.registry in Hfirst.
    apply first_named_find in Hfirst. rewrite Hfirst in Hadd.
    rewrite Hadd. split_and!.
    + done.
    + by rewrite length_insert.
    + apply list_lookup_insert_eq. by eapply lookup_lt_Some.
    + intros j Hj. by apply list_lookup_insert_ne.
  - intros Hnone. rewrite find_name_absent in Hadd; [done|].
    intros a s Ha Hs. apply Hnone, elem_of_registry. eauto.
Qed.

Lemma add_service_replaces_or_appends_witness :
  let '(d, w) := PublicIP.__init__ None PublicIP.module_world in
  PublicIP.wf w d ∧
  PublicIP.first_named (PublicIP.registry w d) "ipinfo" 1 ∧
  PublicIP.registry (PublicIP.add_service d "ipinfo" "https://ipinfo.io/json" 4 false w) d
    = <[1%nat := Some {| PublicIP.name := "ipinfo"; PublicIP.url := "https://ipinfo.io/json";
                         PublicIP.timeout := 4; PublicIP.enabled := false |}]>
        (PublicIP.registry w d).
Proof.
  assert (PublicIP.wf (PublicIP.__init__ None PublicIP.module_world).2
                      (PublicIP.__init__ None PublicIP.module_world).1) as Hwf.
  { split; [vm_compute; lia|]. vm_compute. repeat constructor. }
  assert (PublicIP.first_named (PublicIP.registry (PublicIP.__init__ None PublicIP.module_world).2
                      (PublicIP.__init__ None PublicIP.module_world).1) "ipinfo" 1) as Hfirst.
  { split; [eexists; split; [vm_compute; reflexivity|reflexivity]|].
    intros [|[|j]] s' Hj; [|lia|lia]. vm_compute. by intros [= <-]. }
  split_and!; [exact Hwf|exact Hfirst|].
  exact (proj1 (proj1 (add_service_replaces_or_appends _ _ "ipinfo" "https://ipinfo.io/json" 4 false Hwf) 1%nat Hfirst)).
Defined.

(** ** Expiry *)

(** C7. A record is expired exactly when the clock has moved more than
    [ttl] past its timestamp. A cache lookup that finds an expired record
    for its key reports a miss and leaves the cache without a record for
    that key, in every state a resolver can reach; and a record that a
    lookup returns is the one stored under the key and is not expired. *)
Theorem expired_records_are_purged :
  (∀ r ttl now,
     Resolution.is_expired r ttl now = true ↔ now - Resolution.timestamp r > ttl) ∧
  (∀ self k r now,
     Resolution.reachable self ->
     Resolution._cache self !! k = Some r ->
     Resolution.is_expired r (Resolution._default_ttl self) now = true ->
     (Resolution._get_from_cache self k now).1 = None ∧
     Resolution._cache (Resolution._get_from_cache self k now).2 !! k = None) ∧
  (∀ self k now r,
     (Resolution._get_from_cache self k now).1 = Some r ->
     Resolution._cache self !! k = Some r ∧
     Resolution.is_expired r (Resolution._default_ttl self) now = false).
Proof.
  split_and!.
  - apply is_expired_spec.
  - intros self k r now Hreach Hk Hexp.
    rewrite (get_from_cache_expired self k r now);
      [|by apply reachable_cache_enabled|done|done].
    simpl. split; [done|]. apply lookup_delete_eq.
  - intros self k now r Hhit.
    by destruct (get_from_cache_hit self k now r Hhit) as (? & ? & _).
Qed.

Lemma expired_records_are_purged_witness :
  let self := Resolution._store_in_cache (Resolution.__init__ true 300)
                "example.test" "93.184.216.34" ["AF_INET"] 1000 in
  let r := {| Resolution.hostname := "example.test";
              Resolution.ip_address := "93.184.216.34";
              Resolution.aliases := ["AF_INET"];
              Resolution.record_type := "A";
              Resolution.timestamp := 1000 |} in
  Resolution.reachable self ∧
  Resolution._cache self !! "example.test" = Some r ∧
  Resolution.is_expired r (Resolution._default_ttl self) 1301 = true ∧
  (Resolution._get_from_cache self "example.test" 1301).1 = None ∧
  Resolution._cache (Resolution._get_from_cache self "example.test" 1301).2
    !! "example.test" = None.
Proof.
  intros self r.
  assert (Resolution.reachable self) as Hreach
    by (apply Resolution.reach_store, Resolution.reach_init).
  assert (Resolution._cache self !! "example.test" = Some r) as Hk
    by (apply lookup_insert_eq).
  assert (Resolution.is_expired r (Resolution._default_ttl self) 1301 = true) as Hexp
    by reflexivity.
  split_and!; [exact Hreach|exact Hk|exact Hexp| |];
    apply (proj1 (proj2 expired_records_are_purged) self "example.test" r 1301 Hreach Hk Hexp).
Defined.

(** ** All the addresses of a name *)

(** C8. [resolve_all] returns a sequence without duplicates. After a cache
    miss answered by the primitive, the sequence holds exactly the addresses
    the primitive reported, each once, in the order of their first
    occurrence; the cache then holds, under the hostname, one record with
    the first address only, and a later [resolve_all] for the hostname at a
    time within the TTL of that record returns just that address, whatever
    the primitive would answer then. *)
Theorem resolve_all_distinct_and_caches_first
    (self : Resolution.DNSResolver) (h : string) (family : Resolution.AddressFamily)
    (t_get : Z) (dns : Resolution.name_service) (t_store : Z) :
  Resolution.reachable self ->
  let res := (Resolution.resolve_all self h family t_get dns t_store).1 in
  let self' := (Resolution.resolve_all self h family t_get dns t_store).2 in
  NoDup res ∧
  (∀ info,
     (Resolution._get_from_cache self h t_get).1 = None ->
     dns h family = Py.Return info ->
     let hosts := Resolution.sa_host <$> info in
     (∀ a, a ∈ res ↔ a ∈ hosts) ∧
     Resolution.ordered_as res hosts ∧
     head res = head hosts ∧
     ∀ first, head hosts = Some first ->
       Resolution._cache self' =
         <[h := {| Resolution.hostname := h;
                   Resolution.ip_address := first;
                   Resolution.aliases :=
                     (λ item, Resolution.family_name (Resolution.ai_family item)) <$> info;
                   Resolution.record_type := "A";
                   Resolution.timestamp := t_store |}]> (Resolution._cache self) ∧
       ∀ t_get' dns' t_store',
         t_get' - t_store <= Resolution._default_ttl self ->
         (Resolution.resolve_all self' h family t_get' dns' t_store').1 = [first]).
Proof.
  intros Hreach res self'. pose proof (reachable_cache_enabled self Hreach) as He.
  split; [apply resolve_all_NoDup|].
  intros info Hmiss Hdns hosts.
  pose proof (resolve_all_miss self h family t_get dns t_store info He Hmiss Hdns) as Hall.
  pose proof (collect_addresses_spec info) as (Hnd & Hel & Hord & Hhead).
  unfold res, self'. rewrite Hall. simpl.
  split_and!; [done..|].
  intros first Hfirst. fold hosts in Hhead. rewrite Hfirst in Hhead.
  destruct (Resolution.collect_addresses info []) as [|first' more]; [done|].
  injection Hhead as ->. split; [reflexivity|].
  intros t_get' dns' t_store' Hwithin.
  rewrite (resolve_all_hit _ h family t_get' dns' t_store'
             {| Resolution.hostname := h;
                Resolution.ip_address := first;
                Resolution.aliases :=
                  (λ item, Resolution.family_name (Resolution.ai_family item)) <$> info;
                Resolution.record_type := "A";
                Resolution.timestamp := t_store |}).
  - reflexivity.
  - exact He.
  - apply lookup_insert_eq.
  - unfold Resolution.is_expired. simpl. rewrite Z.gtb_ltb. apply Z.ltb_ge. lia.
Qed.

Lemma resolve_all_distinct_and_caches_first_witness :
  Resolution.reachable Resolution.Scenario.resolver ∧
  (Resolution._get_from_cache Resolution.Scenario.resolver "example.test" 1000).1 = None ∧
  Resolution.Scenario.dns "example.test" Resolution.AF_UNSPEC
    = Py.Return Resolution.Scenario.info ∧
  NoDup (Resolution.resolve_all Resolution.Scenario.resolver "example.test"
           Resolution.AF_UNSPEC 1000 Resolution.Scenario.dns 1001).1 ∧
  ∀ a, a ∈ (Resolution.resolve_all Resolution.Scenario.resolver "example.test"
              Resolution.AF_UNSPEC 1000 Resolution.Scenario.dns 1001).1
       ↔ a ∈ Resolution.sa_host <$> Resolution.Scenario.info.
Proof.
  assert (Resolution.reachable Resolution.Scenario.resolver) as Hreach
    by apply Resolution.reach_init.
  assert ((Resolution._get_from_cache Resolution.Scenario.resolver "example.test" 1000).1
          = None) as Hmiss by reflexivity.
  assert (Resolution.Scenario.dns "example.test" Resolution.AF_UNSPEC
          = Py.Return Resolution.Scenario.info) as Hdns by reflexivity.
  split_and!; [exact Hreach|exact Hmiss|exact Hdns| |].
  - exact (proj1 (resolve_all_distinct_and_caches_first Resolution.Scenario.resolver
             "example.test" Resolution.AF_UNSPEC 1000 Resolution.Scenario.dns 1001 Hreach)).
  - exact (proj1 (proj2 (resolve_all_distinct_and_caches_first Resolution.Scenario.resolver
             "example.test" Resolution.AF_UNSPEC 1000 Resolution.Scenario.dns 1001 Hreach)
             Resolution.Scenario.info Hmiss Hdns)).
Defined.

(** The example of C8 run: three entries, two distinct addresses; the
    second call, 300 ticks after the store, gets the cached one only. *)
Lemma resolve_all_example :
  let '(first_call, self') :=
    Resolution.resolve_all Resolution.Scenario.resolver "example.test"
      Resolution.AF_UNSPEC 1000 Resolution.Scenario.dns 1001 in
  first_call = ["93.184.216.34"; "2606:2800:220:1:248:1893:25c8:1946"] ∧
  (Resolution.resolve_all self' "example.test" Resolution.AF_UNSPEC 1301
     Resolution.Scenario.dns 1302).1 = ["93.184.216.34"].
Proof. vm_compute. done. Qed.

(** ** Batch resolution *)

(** C9. For a pool with at least one worker, every schedule that runs the
    tasks to their end and every order in which the finished tasks are
    collected give a mapping whose keys are exactly the distinct hostnames
    of the input. The value under a hostname is the result of one of the
    tasks that resolved it, and a task computes [resolve]. The entry of a
    hostname is the same when the steps of all tasks for other hostnames
    are left out: what those lookups answer, failure included, does not
    reach it. *)
Theorem batch_resolve_one_entry_per_hostname
    (self : Resolution.DNSResolver) (hostnames : list string)
    (family : Resolution.AddressFamily) (max_workers : Z)
    (sched : list Resolution.event) (order : list nat) :
  0 < max_workers ->
  Resolution.completes self hostnames family sched ->
  order ≡ₚ seq 0 (length hostnames) ->
  let start := (replicate (length hostnames) Resolution.Queued, self) in
  ∃ results,
    (Resolution.batch_resolve self hostnames family max_workers sched order).1
      = Py.Return results ∧
    dom results = list_to_set hostnames ∧
    (∀ h v, results !! h = Some v ->
       ∃ i, hostnames !! i = Some h ∧
            (Resolution.run hostnames family sched start).1 !! i = Some (Resolution.Done v)) ∧
    (∀ s h now1 dns1 now2 dns2,
       let '(t1, s1) := Resolution.step_task s h family Resolution.Queued now1 dns1 in
       Resolution.step_task s1 h family t1 now2 dns2 =
         (Resolution.Done (Resolution.resolve s h family now1 dns2 now2).1,
          (Resolution.resolve s h family now1 dns2 now2).2)) ∧
    (∀ h, results !! h =
          Resolution.collect_results hostnames
            (Resolution.run hostnames family
               (Resolution.steps_for hostnames h sched) start).1 order !! h).
Proof.
  intros Hworkers Hdone Hperm start.
  unfold Resolution.batch_resolve. rewrite (proj2 (Z.leb_gt _ _)) by done.
  fold start. unfold Resolution.completes in Hdone. fold start in Hdone.
  destruct (Resolution.run hostnames family sched start) as [tasks self'] eqn:Hrun.
  simpl in *. eexists. split; [done|].
  assert (length tasks = length hostnames) as Hlen.
  { pose proof (run_length hostnames family sched start) as Hl.
    rewrite Hrun in Hl. simpl in Hl. by rewrite length_replicate in Hl. }
  split_and!.
  - apply set_eq. intros h. rewrite elem_of_dom, elem_of_list_to_set. split.
    + intros [v Hv]. apply collect_from_lookup in Hv as [Hv|(i & _ & Hh & _)]; [done|].
      by eapply list_elem_of_lookup_2.
    + intros Hin. apply list_elem_of_lookup in Hin as [i Hh].
      assert (i < length hostnames)%nat as Hlt by (by eapply lookup_lt_Some).
      destruct (lookup_lt_is_Some_2 tasks i) as [t Ht]; [lia|].
      pose proof (Forall_lookup_1 _ _ _ _ Hdone Ht) as Ht'.
      destruct t as [| |ip]; [done|done|].
      apply collect_from_is_Some. right. exists i, ip. split_and!; [|done|done].
      rewrite Hperm. apply elem_of_seq. lia.
  - intros h v Hv. apply collect_from_lookup in Hv as [Hv|(i & _ & Hh & Ht)]; [done|].
    eauto.
  - intros s h now1 dns1 now2 dns2.
    exact (task_runs_resolve family s h now1 dns1 now2 dns2).
  - intros h. apply collect_results_local. intros i Hi.
    pose proof (run_steps_for hostnames family h sched start start) as [Htasks _].
    { split; [done|apply agree_on_refl]. }
    rewrite Hrun in Htasks. by apply Htasks.
Qed.

Lemma batch_resolve_one_entry_per_hostname_witness :
  let hostnames := ["example.test"; "example.test"; "missing.test"] in
  let sched := Resolution.sequential_schedule 3 1000 Resolution.Scenario.dns in
  0 < 5 ∧
  Resolution.completes Resolution.Scenario.resolver hostnames Resolution.AF_UNSPEC sched ∧
  [2; 0; 1]%nat ≡ₚ seq 0 (length hostnames) ∧
  ∃ results,
    (Resolution.batch_resolve Resolution.Scenario.resolver hostnames Resolution.AF_UNSPEC 5
       sched [2; 0; 1]%nat).1 = Py.Return results ∧
    dom results = list_to_set hostnames.
Proof.
  intros hostnames sched.
  assert (0 < 5) as Hw by lia.
  assert (Resolution.completes Resolution.Scenario.resolver hostnames
            Resolution.AF_UNSPEC sched) as Hdone
    by (apply (sequential_schedule_completes hostnames)).
  assert ([2; 0; 1]%nat ≡ₚ seq 0 (length hostnames)) as Hperm.
  { exact (Permutation_cons_app [0; 1]%nat [] 2%nat (Permutation_refl _)). }
  split_and!; [exact Hw|exact Hdone|exact Hperm|].
  destruct (batch_resolve_one_entry_per_hostname Resolution.Scenario.resolver hostnames
              Resolution.AF_UNSPEC 5 sched [2; 0; 1]%nat Hw Hdone Hperm)
    as (results & Hres & Hdom & _).
  exists results. split; [exact Hres|exact Hdom].
Defined.

(** The example of the design document: the input a, a, b gives the two
    keys a and b (here b does not resolve). *)
Lemma batch_resolve_example :
  let dns : Resolution.name_service := λ h family,
    if bool_decide (h = "a")
    then Py.Return [Resolution.Scenario.entry Resolution.AF_INET "192.0.2.1"]
    else Py.Raise (Py.gaierror "Name or service not known") in
  (Resolution.batch_resolve Resolution.Scenario.resolver ["a"; "a"; "b"]
     Resolution.AF_UNSPEC 5 (Resolution.sequential_schedule 3 0 dns) [0; 1; 2]%nat).1
  = Py.Return (<["a" := Some "192.0.2.1"]> (<["b" := None]> ∅)).
Proof. vm_compute. done. Qed.

(** ** The default services across detectors *)

(** C10, the claim as stated fails for [ipify]: after one default-built
    detector disables it, another one built before the call and one built
    after it still see it enabled. *)
Lemma default_instances_do_not_share_ipify :
  let '(d1, w1) := PublicIP.__init__ None PublicIP.module_world in
  let '(d2, w2) := PublicIP.__init__ None w1 in
  let '(found, w3) := PublicIP.disable_service d1 "ipify" w2 in
  let '(d3, w4) := PublicIP.__init__ None w3 in
  found = true ∧
  PublicIP.observed_enabled d1 "ipify" w4 = Some false ∧
  PublicIP.observed_enabled d2 "ipify" w4 ≠ Some false ∧
  PublicIP.observed_enabled d3 "ipify" w4 ≠ Some false.
Proof. vm_compute. split_and!; done. Qed.

(** C10 (as the code has it). A detector constructed with no argument
    copies the class-level list and then, reading the built-in
    configuration, puts objects of its own in place of [ipify], [ipinfo] and
    [ifconfig]; only the [icanhazip] object stays shared with the class and
    with every other such detector. From any state in which the class
    attribute is intact: construct [d1], construct [d2], let [d1] set the
    flag of the default service [n] to [b] (this is [enable_service] and
    [disable_service]), construct [d3]. The call finds the service, [d1]
    observes [b] through [get_available_services], and [d2] (older than the
    call) and [d3] (newer) observe [b] exactly when [n] is [icanhazip]; for
    the other three names they still observe their own flag, [True]. *)
Theorem default_instances_share_icanhazip_only
    (w : PublicIP.world) (n : string) (b : bool) :
  PublicIP.defaults_intact w ->
  n ∈ PublicIP.default_names ->
  let '(d1, w1) := PublicIP.__init__ None w in
  let '(d2, w2) := PublicIP.__init__ None w1 in
  let '(found, w3) := PublicIP._set_service_enabled d1 n b w2 in
  let '(d3, w4) := PublicIP.__init__ None w3 in
  found = true ∧
  PublicIP.observed_enabled d1 n w4 = Some b ∧
  PublicIP.observed_enabled d2 n w4 = Some (if bool_decide (n = "icanhazip") then b else true) ∧
  PublicIP.observed_enabled d3 n w4 = Some (if bool_decide (n = "icanhazip") then b else true).
Proof.
  intros Hint Hn.
  pose proof (defaults_intact_length w Hint) as [Ho Hl].
  rewrite init_default_eq by done.
  pose proof (init_default_shaped w Hint) as Hd1.
  pose proof (defaults_intact_init w Hint) as Hint1.
  rewrite init_default_eq by done.
  pose proof (init_default_shaped _ Hint1) as Hd2.
  pose proof (defaults_intact_init _ Hint1) as Hint2.
  apply (default_shaped_init_other (PublicIP.init_world w)) in Hd1;
    [|simpl; rewrite length_app; simpl; lia].
  set (w2 := PublicIP.init_world (PublicIP.init_world w)) in *.
  set (d1 := PublicIP.init_detector w) in *.
  set (d2 := PublicIP.init_detector (PublicIP.init_world w)) in *.
  set (k1 := length (PublicIP.objects w)) in *.
  set (k2 := length (PublicIP.objects (PublicIP.init_world w))) in *.
  assert (k2 = k1 + 3)%nat as Hk2.
  { unfold k2, k1. simpl. rewrite length_app. simpl. lia. }
  rewrite (shaped_set_enabled w2 d1 k1) by done.
  set (w3 := PublicIP.entry_set_enabled w2 (PublicIP.target k1 n) b).
  pose proof (defaults_intact_entry_set_enabled w2 (PublicIP.target k1 n) b Hint2) as Hint3.
  fold w3 in Hint3.
  apply (default_shaped_entry_set_enabled _ _ _ (PublicIP.target k1 n) b) in Hd1, Hd2.
  fold w3 in Hd1, Hd2.
  rewrite init_default_eq by done.
  pose proof (init_default_shaped _ Hint3) as Hd3.
  assert (length (PublicIP.lists w3) = length (PublicIP.lists w) + 2)%nat as Hl3.
  { unfold w3, w2. simpl. rewrite !length_app. simpl. lia. }
  apply (default_shaped_init_other w3) in Hd1; [|rewrite Hl3; unfold d1; simpl; lia].
  apply (default_shaped_init_other w3) in Hd2;
    [|rewrite Hl3; unfold d2; simpl; rewrite length_app; simpl; lia].
  set (d3 := PublicIP.init_detector w3) in *.
  set (k3 := length (PublicIP.objects w3)) in *.
  assert (k3 = k1 + 6)%nat as Hk3.
  { unfold k3, w3, w2, k1. simpl. rewrite length_alter, !length_app. simpl. lia. }
  rewrite (shaped_observed _ d1 k1), (shaped_observed _ d2 k2), (shaped_observed _ d3 k3)
    by done.
  assert (∀ a, (a < k3)%nat ->
            PublicIP.enabled <$> PublicIP.objects (PublicIP.init_world w3) !! a =
            if bool_decide (a = PublicIP.target k1 n) then Some b
            else PublicIP.enabled <$> PublicIP.objects w2 !! a) as Hold.
  { intros a Ha. unfold PublicIP.init_world, w3, PublicIP.entry_set_enabled. simpl.
    rewrite lookup_app_l by done. case_bool_decide as Heq.
    - subst a. rewrite list_lookup_alter_eq.
      destruct (_ !! PublicIP.target k1 n) eqn:E; [done|].
      apply lookup_ge_None in E. rewrite !length_app in E. simpl in E.
      unfold k1 in *. lia.
    - rewrite list_lookup_alter_ne by done. done. }
  assert (PublicIP.target k1 n < k3)%nat as Ht.
  { unfold PublicIP.target. repeat case_bool_decide; lia. }
  split_and!.
  - done.
  - rewrite Hold by done. by rewrite bool_decide_true.
  - unfold PublicIP.default_names in Hn. rewrite !elem_of_cons in Hn.
    destruct Hn as [->|[->|[->|[->|Hn]]]]; [| | | |by apply elem_of_nil in Hn];
      unfold PublicIP.target in *; simpl bool_decide in *; cbv iota in *.
    + rewrite Hold by lia. rewrite bool_decide_false by lia.
      replace k2 with (k2 + 0)%nat by lia.
      unfold w2, k2. by rewrite (init_world_own _ 0 PublicIP.config_ipify).
    + rewrite Hold by lia. rewrite bool_decide_false by lia.
      replace (S k2) with (k2 + 1)%nat by lia.
      unfold w2, k2. by rewrite (init_world_own _ 1 PublicIP.config_ipinfo).
    + rewrite Hold by lia. rewrite bool_decide_false by lia.
      replace (S (S k2)) with (k2 + 2)%nat by lia.
      unfold w2, k2. by rewrite (init_world_own _ 2 PublicIP.config_ifconfig).
    + rewrite Hold by lia. by rewrite bool_decide_true.
  - unfold PublicIP.default_names in Hn. rewrite !elem_of_cons in Hn.
    destruct Hn as [->|[->|[->|[->|Hn]]]]; [| | | |by apply elem_of_nil in Hn];
      unfold PublicIP.target in *; simpl bool_decide in *; cbv iota in *.
    + replace k3 with (k3 + 0)%nat by lia.
      unfold k3. by rewrite (init_world_own _ 0 PublicIP.config_ipify).
    + replace (S k3) with (k3 + 1)%nat by lia.
      unfold k3. by rewrite (init_world_own _ 1 PublicIP.config_ipinfo).
    + replace (S (S k3)) with (k3 + 2)%nat by lia.
      unfold k3. by rewrite (init_world_own _ 2 PublicIP.config_ifconfig).
    + rewrite Hold by lia. by rewrite bool_decide_true.
Qed.

Lemma default_instances_share_icanhazip_only_witness :
  PublicIP.defaults_intact PublicIP.module_world ∧
  "icanhazip" ∈ PublicIP.default_names ∧
  let '(d1, w1) := PublicIP.__init__ None PublicIP.module_world in
  let '(d2, w2) := PublicIP.__init__ None w1 in
  let '(found, w3) := PublicIP._set_service_enabled d1 "icanhazip" false w2 in
  let '(d3, w4) := PublicIP.__init__ None w3 in
  found = true ∧
  PublicIP.observed_enabled d1 "icanhazip" w4 = Some false ∧
  PublicIP.observed_enabled d2 "icanhazip" w4
    = Some (if bool_decide ("icanhazip" = "icanhazip") then false else true) ∧
  PublicIP.observed_enabled d3 "icanhazip" w4
    = Some (if bool_decide ("icanhazip" = "icanhazip") then false else true).
Proof.
  assert (PublicIP.defaults_intact PublicIP.module_world) as Hint
    by (repeat split; reflexivity).
  assert ("icanhazip" ∈ PublicIP.default_names) as Hn
    by (do 3 apply list_elem_of_further; apply list_elem_of_here).
  split; [exact Hint|]. split; [exact Hn|].
  exact (default_instances_share_icanhazip_only PublicIP.module_world "icanhazip" false Hint Hn).
Defined.

(** * The rest of the three modules

    The functions the properties above do not reach: the other methods
    of the configuration manager, the remaining registry operations and
    the probes of the detector, and the resolver's cache as its callers
    drive it. *)

(** ** [utils/config.py] *)

Section ConfigFacts.
Import Py Config.

Lemma split_dot_nonempty key : split_dot key ≠ [].
Proof.
  destruct key as [|c rest]; simpl; [done|].
  destruct (Ascii.eqb c "."); [done|]. by destruct (split_dot rest).
Qed.

Lemma get_unfold self key d :
  get self key d =
    match walk self (split_dot key) (_config self) (split_dot key) with
    | Some v => Config.or_default v d
    | None => d
    end.
Proof. unfold get. by destruct (walk _ _ _ _) as [[]|]. Qed.

(** A path that exists is followed to its end. *)
Lemma walk_found self all v parts r :
  walk_defaults v parts = Some r -> walk self all v parts = Some r.
Proof.
  revert v. induction parts as [|part rest IH]; intros v; simpl; [done|].
  destruct (index v part) as [v'|]; [apply IH|done].
Qed.

(** Once the walk stands on a value that is not a [dict], every further
    part sends it back to the defaults. *)
Lemma walk_leaf self all d parts :
  walk_defaults (_defaults self) all = Some d ->
  Config.is_dict d = false ->
  walk self all d parts = Some d.
Proof.
  intros Hdef Hleaf. induction parts as [|part rest IH]; simpl; [done|].
  assert (index d part = None) as -> by (by destruct d).
  by rewrite Hdef.
Qed.

Lemma walk_missing self all v parts :
  walk_defaults v parts = None ->
  match walk_defaults (_defaults self) all with
  | None => walk self all v parts = None
  | Some d => Config.is_dict d = false -> walk self all v parts = Some d
  end.
Proof.
  revert v. induction parts as [|part rest IH]; intros v; simpl; [done|].
  destruct (index v part) as [v'|]; [apply IH|]. intros _.
  destruct (walk_defaults (_defaults self) all) as [d|] eqn:Hdef; [|done].
  intros Hleaf. by apply walk_leaf.
Qed.

Lemma walk_missing_last self all v part :
  index v part = None ->
  walk self all v [part] = walk_defaults (_defaults self) all.
Proof. simpl. intros ->. by destruct (walk_defaults _ _). Qed.


Lemma assoc_set_eq k v items : assoc k (assoc_set k v items) = Some v.
Proof.
  induction items as [|[k' v'] rest IH]; simpl.
  - by rewrite bool_decide_true.
  - case_bool_decide as Hk; simpl.
    + by rewrite bool_decide_true.
    + by rewrite bool_decide_false.
Qed.




Lemma set_path_step config part p2 rest v :
  set_path config (part :: p2 :: rest) v =
    match config with
    | VDict items =>
        match set_path (match assoc part items with
                        | Some s => s
                        | None => VDict []
                        end) (p2 :: rest) v with
        | Return sub' => Return (VDict (assoc_set part sub' items))
        | Raise e => Raise e
        end
    | _ => Raise (TypeError "object does not support item assignment")
    end.
Proof. by destruct config. Qed.


Lemma set_path_is_dict config parts v c' :
  set_path config parts v = Return c' -> Config.is_dict config = true ∧ Config.is_dict c' = true.
Proof.
  destruct parts as [|part [|p2 rest]]; [done| |].
  - simpl. destruct config; try done. by intros [= <-].
  - rewrite set_path_step. destruct config; try done.
    destruct (set_path _ (p2 :: rest) v) as [sub'|e]; [|done]. by intros [= <-].
Qed.







End ConfigFacts.

(** A key whose path does not exist in the configuration. *)
Lemma get_not_configured
    (self : Config.ConfigManager) (key : string) (d : Config.value) :
  Config.walk_defaults (Config._config self) (Py.split_dot key) = None ->
  match Config.walk_defaults (Config._defaults self) (Py.split_dot key) with
  | None => Config.get self key d = d
  | Some v =>
      Config.is_dict v = false ∨ length (Py.split_dot key) = 1%nat ->
      Config.get self key d = Config.or_default v d
  end.
Proof.
  intros Hc. rewrite get_unfold. set (parts := Py.split_dot key) in *.
  pose proof (walk_missing self parts _ _ Hc) as Hm.
  destruct (Config.walk_defaults (Config._defaults self) parts) as [v|] eqn:Hd.
  - intros [Hleaf|Hone].
    + by rewrite Hm.
    + destruct parts as [|p [|p2 rest]] eqn:Hp; [done| |done].
      simpl in Hc. destruct (Config.index (Config._config self) p) eqn:Hi; [done|].
      rewrite walk_missing_last by done. by rewrite Hd.
  - by rewrite Hm.
Qed.

Section ConfigFacts2.
Import Py Config.


End ConfigFacts2.




Section MergeFacts.
Import Py Config.







Lemma assoc_None k items : assoc k items = None -> k ∉ items.*1.
Proof.
  induction items as [|[k' v'] rest IH]; simpl; [intros _; apply not_elem_of_nil|].
  case_bool_decide as Hk; [done|]. intros H. apply not_elem_of_cons. split; [done|by apply IH].
Qed.




End MergeFacts.

(** X4. After [reset()] nothing is configured and the built-in defaults are
    as before (a manager whose defaults are the built-in ones is as new):
    [get] answers with the built-in default at the path of the key (when it
    is not a table, or the key has a single part), or with the caller's
    default when there is none. *)
Theorem reset_leaves_builtin_defaults
    (self : Config.ConfigManager) (key : string) (d : Config.value) :
  let self' := Config.reset self in
  Config._config self' = Config.VDict [] ∧
  Config._defaults self' = Config._defaults self ∧
  (Config._defaults self = Config._defaults Config.__init__ -> self' = Config.__init__) ∧
  match Config.walk_defaults (Config._defaults self) (Py.split_dot key) with
  | None => Config.get self' key d = d
  | Some v =>
      Config.is_dict v = false ∨ length (Py.split_dot key) = 1%nat ->
      Config.get self' key d = Config.or_default v d
  end.
Proof.
  intros self'. split_and!; [done|done| |].
  - intros Hd. unfold self', Config.reset. by rewrite Hd.
  - apply (get_not_configured self' key d). unfold self', Config.reset. cbn [Config._config].
    destruct (Py.split_dot key) as [|p rest] eqn:Hparts; [by destruct (split_dot_nonempty key)|].
    done.
Qed.





(** ** [services/public_ip.py] *)

Section RegistryOps.
Import Py PublicIP.

Lemma find_name_list_exists w self n i :
  find_name (objects w) n (items_of w (_services self)) = Some i ->
  (_services self < length (lists w))%nat.
Proof.
  unfold items_of. destruct (lists w !! _services self) as [items|] eqn:Hl; [|done].
  intros _. by eapply lookup_lt_Some.
Qed.

Lemma registry_store_items w self items :
  (_services self < length (lists w))%nat ->
  registry (store_items w (_services self) items) self = (λ a, objects w !! a) <$> items.
Proof. intros Hl. unfold registry. by rewrite items_of_store_items. Qed.

Lemma remove_service_found self n w i :
  first_named (registry w self) n i ->
  remove_service self n w =
    (true, store_items w (_services self) (delete i (items_of w (_services self)))).
Proof.
  intros Hfirst. unfold remove_service.
  by rewrite (first_named_find _ _ _ _ Hfirst).
Qed.

Lemma remove_service_absent self n w :
  (∀ s, Some s ∈ registry w self -> name s ≠ n) ->
  remove_service self n w = (false, w).
Proof.
  intros Hnone. unfold remove_service. rewrite find_name_absent; [done|].
  intros a s Ha Hs. apply Hnone, elem_of_registry. eauto.
Qed.

Lemma set_enabled_loop_spec n b items w :
  set_enabled_loop n b items w =
    match find_name (objects w) n items with
    | Some i =>
        match items !! i with
        | Some a => (true, entry_set_enabled w a b)
        | None => (false, w)
        end
    | None => (false, w)
    end.
Proof.
  induction items as [|a rest IH]; simpl; [done|].
  destruct (objects w !! a) as [s|] eqn:Ha.
  - case_bool_decide as Hn; simpl.
    + by rewrite insert_set_enabled.
    + rewrite IH. by destruct (find_name (objects w) n rest).
  - rewrite IH. by destruct (find_name (objects w) n rest).
Qed.

Lemma set_service_enabled_found self n b w i :
  first_named (registry w self) n i ->
  ∃ a s, items_of w (_services self) !! i = Some a ∧ objects w !! a = Some s ∧
         name s = n ∧
         _set_service_enabled self n b w = (true, entry_set_enabled w a b).
Proof.
  intros Hfirst. unfold _set_service_enabled. rewrite set_enabled_loop_spec.
  pose proof (first_named_find _ _ _ _ Hfirst) as Hfind. rewrite Hfind.
  destruct (find_name_Some _ _ _ _ Hfind) as (a & s & Hi & Hs & Hn).
  exists a, s. by rewrite Hi.
Qed.

Lemma registry_entry_set_enabled w self a b :
  registry (entry_set_enabled w a b) self =
    (λ a', if bool_decide (a' = a) then (λ s, set_enabled s b) <$> objects w !! a'
           else objects w !! a') <$> items_of w (_services self).
Proof.
  unfold registry. apply list_fmap_ext. intros j a' _. simpl.
  case_bool_decide as Heq.
  - subst. apply list_lookup_alter_eq.
  - by apply list_lookup_alter_ne.
Qed.

Lemma first_named_names reg1 reg2 n i :
  (∀ j, fmap name <$> reg1 !! j = fmap name <$> reg2 !! j) ->
  first_named reg1 n i -> first_named reg2 n i.
Proof.
  intros Hnames [(s & Hi & Hs) Hbefore]. split.
  - pose proof (Hnames i) as Hn. rewrite Hi in Hn. simpl in Hn.
    destruct (reg2 !! i) as [[s2|]|]; try done. simpl in Hn.
    exists s2. split; [done|]. congruence.
  - intros j s' Hj Hs'. pose proof (Hnames j) as Hn. rewrite Hs' in Hn. simpl in Hn.
    destruct (reg1 !! j) as [[s1|]|] eqn:H1; try done. simpl in Hn.
    assert (name s1 = name s') as <- by congruence. by apply (Hbefore j s1).
Qed.

Lemma registry_names_entry_set_enabled w self a b j :
  fmap name <$> registry (entry_set_enabled w a b) self !! j =
  fmap name <$> registry w self !! j.
Proof.
  unfold registry. rewrite !list_lookup_fmap.
  change (items_of (entry_set_enabled w a b) (_services self))
    with (items_of w (_services self)).
  destruct (items_of w (_services self) !! j) as [a'|]; [|done]. simpl.
  f_equal. apply name_entry_set_enabled.
Qed.

Lemma first_named_entry_set_enabled w self a b n i :
  first_named (registry w self) n i ->
  first_named (registry (entry_set_enabled w a b) self) n i.
Proof.
  apply first_named_names. intros j. symmetry. apply registry_names_entry_set_enabled.
Qed.

Lemma entry_set_enabled_twice w a b1 b2 :
  entry_set_enabled (entry_set_enabled w a b1) a b2 = entry_set_enabled w a b2.
Proof.
  unfold entry_set_enabled, with_objects. simpl. f_equal.
  apply list_eq. intros j. destruct (decide (j = a)) as [->|Hne].
  - rewrite !list_lookup_alter_eq. by destruct (objects w !! a).
  - by rewrite !list_lookup_alter_ne.
Qed.

Lemma entry_set_enabled_same w a s :
  objects w !! a = Some s ->
  entry_set_enabled w a (enabled s) = w.
Proof.
  intros Hs. unfold entry_set_enabled, with_objects. destruct w as [objs ls tr]. simpl in *.
  f_equal. apply list_eq. intros j. destruct (decide (j = a)) as [->|Hne].
  - rewrite list_lookup_alter_eq, Hs. simpl. by destruct s.
  - by rewrite list_lookup_alter_ne.
Qed.

End RegistryOps.

(** X7. [remove_service(name)] takes the first entry of that name out of
    the detector's list and returns [True]: the registry is the old one
    without that position, no object is changed, and the registry of a
    detector that has another list is as before (an entry it shares stays
    there). When no entry has the name it returns [False] and changes
    nothing. *)
Theorem remove_service_outcome
    (self : PublicIP.PublicIPDetector) (n : string) (w : PublicIP.world) :
  (∀ i, PublicIP.first_named (PublicIP.registry w self) n i ->
     (PublicIP.remove_service self n w).1 = true ∧
     PublicIP.registry (PublicIP.remove_service self n w).2 self
       = delete i (PublicIP.registry w self) ∧
     PublicIP.objects (PublicIP.remove_service self n w).2 = PublicIP.objects w ∧
     ∀ other, PublicIP._services other ≠ PublicIP._services self ->
       PublicIP.registry (PublicIP.remove_service self n w).2 other
         = PublicIP.registry w other) ∧
  ((∀ s, Some s ∈ PublicIP.registry w self -> PublicIP.name s ≠ n) ->
     PublicIP.remove_service self n w = (false, w)).
Proof.
  split; [|apply remove_service_absent].
  intros i Hfirst. rewrite (remove_service_found self n w i Hfirst). simpl.
  pose proof (first_named_find _ _ _ _ Hfirst) as Hfind.
  pose proof (find_name_list_exists w self n i Hfind) as Hl.
  split_and!; [done| |done|].
  - rewrite registry_store_items by done. by rewrite list_fmap_delete.
  - intros other Hne. by apply registry_store_items_ne.
Qed.

(** X8. [enable_service] and [disable_service] ([_set_service_enabled])
    return [True] when an entry has the name and set the flag of the first
    such entry, in place: that position of the registry shows the entry
    with the new flag and its name, URL and timeout as before, the lists are
    untouched, and a position that holds another object is unchanged. When
    no entry has the name they return [False] and change nothing. *)
Theorem set_service_enabled_outcome
    (self : PublicIP.PublicIPDetector) (n : string) (b : bool) (w : PublicIP.world) :
  (∀ i s, PublicIP.first_named (PublicIP.registry w self) n i ->
     PublicIP.registry w self !! i = Some (Some s) ->
     let w' := (PublicIP._set_service_enabled self n b w).2 in
     (PublicIP._set_service_enabled self n b w).1 = true ∧
     PublicIP.registry w' self !! i = Some (Some (PublicIP.set_enabled s b)) ∧
     PublicIP.lists w' = PublicIP.lists w ∧
     length (PublicIP.objects w') = length (PublicIP.objects w) ∧
     ∀ j a a', PublicIP.items_of w (PublicIP._services self) !! i = Some a ->
               PublicIP.items_of w (PublicIP._services self) !! j = Some a' -> a' ≠ a ->
               PublicIP.registry w' self !! j = PublicIP.registry w self !! j) ∧
  ((∀ s, Some s ∈ PublicIP.registry w self -> PublicIP.name s ≠ n) ->
     PublicIP._set_service_enabled self n b w = (false, w)).
Proof.
  split.
  - intros i s Hfirst Hi w'.
    destruct (set_service_enabled_found self n b w i Hfirst) as (a & s0 & Ha & Hs0 & _ & Hset).
    unfold w'. rewrite Hset. simpl.
    assert (s0 = s) as ->.
    { unfold PublicIP.registry in Hi. rewrite list_lookup_fmap, Ha in Hi. simpl in Hi.
      congruence. }
    split_and!; [done| |done|by rewrite length_alter|].
    + rewrite registry_entry_set_enabled, list_lookup_fmap, Ha. simpl.
      by rewrite bool_decide_true, Hs0.
    + intros j a1 a2 Ha1 Ha2 Hne. rewrite Ha in Ha1. injection Ha1 as <-.
      rewrite registry_entry_set_enabled. unfold PublicIP.registry.
      rewrite !list_lookup_fmap, Ha2. simpl. by rewrite bool_decide_false.
  - intros Hnone. unfold PublicIP._set_service_enabled. rewrite set_enabled_loop_spec.
    rewrite find_name_absent; [done|].
    intros a s Ha Hs. apply Hnone, elem_of_registry. eauto.
Qed.

(** X9. Disabling a service that is enabled and enabling it again gives
    back the state before the two calls, exactly; both calls return
    [True]. *)
Theorem disable_then_enable_restores
    (self : PublicIP.PublicIPDetector) (n : string) (w : PublicIP.world) (i : nat)
    (s : PublicIP.IPService) :
  PublicIP.first_named (PublicIP.registry w self) n i ->
  PublicIP.registry w self !! i = Some (Some s) ->
  PublicIP.enabled s = true ->
  (PublicIP.disable_service self n w).1 = true ∧
  PublicIP.enable_service self n (PublicIP.disable_service self n w).2 = (true, w).
Proof.
  intros Hfirst Hi Hen. unfold PublicIP.disable_service, PublicIP.enable_service.
  destruct (set_service_enabled_found self n false w i Hfirst)
    as (a & s0 & Ha & Hs0 & _ & Hset).
  rewrite Hset. simpl. split; [done|].
  assert (s0 = s) as ->.
  { unfold PublicIP.registry in Hi. rewrite list_lookup_fmap, Ha in Hi. simpl in Hi.
    congruence. }
  pose proof (first_named_entry_set_enabled w self a false n i Hfirst) as Hfirst'.
  destruct (set_service_enabled_found self n true _ i Hfirst')
    as (a' & s' & Ha' & _ & _ & Hset').
  rewrite Hset'. f_equal.
  change (PublicIP.items_of (PublicIP.entry_set_enabled w a false) (PublicIP._services self))
    with (PublicIP.items_of w (PublicIP._services self)) in Ha'.
  rewrite Ha in Ha'. injection Ha' as <-.
  rewrite entry_set_enabled_twice. rewrite <- Hen. by apply entry_set_enabled_same.
Qed.

Lemma disable_then_enable_restores_witness :
  PublicIP.first_named
    (PublicIP.registry PublicIP.Scenario.start PublicIP.Scenario.detector) "B" 1 ∧
  PublicIP.registry PublicIP.Scenario.start PublicIP.Scenario.detector !! 1%nat
    = Some (Some PublicIP.Scenario.B) ∧
  PublicIP.enabled PublicIP.Scenario.B = true ∧
  PublicIP.enable_service PublicIP.Scenario.detector "B"
    (PublicIP.disable_service PublicIP.Scenario.detector "B" PublicIP.Scenario.start).2
  = (true, PublicIP.Scenario.start).
Proof.
  assert (PublicIP.first_named
            (PublicIP.registry PublicIP.Scenario.start PublicIP.Scenario.detector) "B" 1)
    as Hfirst.
  { split; [exists PublicIP.Scenario.B; split; reflexivity|].
    intros [|[|j]] s' Hj; [|lia|lia]. vm_compute. by intros [= <-]. }
  assert (PublicIP.registry PublicIP.Scenario.start PublicIP.Scenario.detector !! 1%nat
          = Some (Some PublicIP.Scenario.B)) as Hi by reflexivity.
  assert (PublicIP.enabled PublicIP.Scenario.B = true) as Hen by reflexivity.
  split_and!; [exact Hfirst|exact Hi|exact Hen|].
  exact (proj2 (disable_then_enable_restores PublicIP.Scenario.detector "B"
                  PublicIP.Scenario.start 1 PublicIP.Scenario.B Hfirst Hi Hen)).
Defined.

Section ProbeFacts.
Import Py PublicIP.

Variable network : list event -> string -> Z -> http_result.







Lemma race_None outcomes yielded :
  race outcomes yielded = None ->
  ∀ i n ip err, i ∈ yielded -> outcomes !! i = Some (n, Some ip, err) -> truthy ip = false.
Proof.
  induction yielded as [|i rest IH]; simpl; intros Hrace j n ip err Hj Ho.
  - by apply elem_of_nil in Hj.
  - apply elem_of_cons in Hj as [->|Hj].
    + rewrite Ho in Hrace. by destruct (truthy ip).
    + apply (IH) with (i := j) (n := n) (err := err); [|done|done].
      destruct (outcomes !! i) as [[[n' [ip'|]] err']|]; try done.
      by destruct (truthy ip').
Qed.

End ProbeFacts.



Section RaceFacts.
Import Py PublicIP.
Variable network : list event -> string -> Z -> http_result.


End RaceFacts.



Section UpsertFacts.
Import Py PublicIP.

Lemma find_name_find_entry objs n items :
  find_name objs n items = find_entry n ((λ a, objs !! a) <$> items).
Proof.
  induction items as [|a rest IH]; simpl; [done|].
  destruct (objs !! a) as [s|]; [case_bool_decide; [done|]|]; by rewrite IH.
Qed.

Lemma find_entry_first n reg i :
  find_entry n reg = Some i -> first_named reg n i.
Proof.
  revert i. induction reg as [|[s|] rest IH]; intros i; simpl; [done| |].
  - case_bool_decide as Hn.
    + intros [= <-]. split; [by exists s|]. intros j s' Hj. lia.
    + destruct (find_entry n rest) as [k|]; simpl; [|done].
      intros [= <-]. destruct (IH k eq_refl) as [Hk Hbefore].
      split; [done|]. intros [|j] s' Hj; simpl.
      * by intros [= <-].
      * apply Hbefore. lia.
  - destruct (find_entry n rest) as [k|]; simpl; [|done].
    intros [= <-]. destruct (IH k eq_refl) as [Hk Hbefore].
    split; [done|]. intros [|j] s' Hj; simpl; [done|].
    apply Hbefore. lia.
Qed.

Lemma find_entry_None n reg :
  find_entry n reg = None -> ∀ s, Some s ∈ reg -> name s ≠ n.
Proof.
  induction reg as [|[s0|] rest IH]; simpl; intros Hf s Hin.
  - by apply elem_of_nil in Hin.
  - case_bool_decide as Hn; [done|].
    apply elem_of_cons in Hin as [[= ->]|Hin]; [done|].
    apply IH; [|done]. by destruct (find_entry n rest).
  - apply elem_of_cons in Hin as [?|Hin]; [done|].
    apply IH; [|done]. by destruct (find_entry n rest).
Qed.

Lemma upsert_names reg s j :
  (j < length reg)%nat ->
  fmap name <$> upsert reg s !! j = fmap name <$> reg !! j.
Proof.
  intros Hj. unfold upsert. destruct (find_entry (name s) reg) as [i|] eqn:Hf.
  - apply find_entry_first in Hf as [(s' & Hi & Hn) _].
    destruct (decide (j = i)) as [->|Hne].
    + rewrite list_lookup_insert_eq by done. rewrite Hi. simpl. by rewrite Hn.
    + by rewrite list_lookup_insert_ne.
  - by rewrite lookup_app_l.
Qed.

Lemma upsert_length reg s :
  (length reg <= length (upsert reg s))%nat.
Proof.
  unfold upsert. destruct (find_entry (name s) reg).
  - by rewrite length_insert.
  - rewrite length_app. lia.
Qed.

Lemma upsert_keep reg s j s' :
  reg !! j = Some (Some s') -> name s' ≠ name s ->
  upsert reg s !! j = Some (Some s').
Proof.
  intros Hj Hne. unfold upsert. destruct (find_entry (name s) reg) as [i|] eqn:Hf.
  - apply find_entry_first in Hf as [(s0 & Hi & Hn) _].
    rewrite list_lookup_insert_ne; [done|]. intros ->. congruence.
  - by apply lookup_app_l_Some.
Qed.

Lemma upsert_new reg s :
  ∃ i, upsert reg s !! i = Some (Some s) ∧ first_named (upsert reg s) (name s) i.
Proof.
  unfold upsert. destruct (find_entry (name s) reg) as [i|] eqn:Hf.
  - pose proof (find_entry_first _ _ _ Hf) as [(s0 & Hi & Hn) Hbefore].
    assert (i < length reg)%nat as Hlt by (by eapply lookup_lt_Some).
    exists i. rewrite list_lookup_insert_eq by done. split; [done|]. split.
    + exists s. by rewrite list_lookup_insert_eq.
    + intros j s' Hjlt. rewrite list_lookup_insert_ne by lia. by apply Hbefore.
  - exists (length reg). rewrite list_lookup_middle by done. split; [done|]. split.
    + exists s. by rewrite list_lookup_middle.
    + intros j s' Hjlt. rewrite lookup_app_l by done. intros Hj.
      eapply find_entry_None; [done|]. by eapply list_elem_of_lookup_2.
Qed.

Lemma upsert_first_named reg s m j :
  first_named reg m j -> first_named (upsert reg s) m j.
Proof.
  intros [(s0 & Hj & Hm) Hbefore].
  assert (j < length reg)%nat as Hlt by (by eapply lookup_lt_Some).
  split.
  - pose proof (upsert_names reg s j Hlt) as Hn. rewrite Hj in Hn. simpl in Hn.
    destruct (upsert reg s !! j) as [[s2|]|]; try done. simpl in Hn.
    exists s2. split; [done|]. congruence.
  - intros k s' Hk Hs'.
    pose proof (upsert_names reg s k ltac:(lia)) as Hn. rewrite Hs' in Hn. simpl in Hn.
    destruct (reg !! k) as [[s1|]|] eqn:H1; try done. simpl in Hn.
    assert (name s1 = name s') as <- by congruence. by apply (Hbefore k s1).
Qed.

Lemma foldl_upsert_length ss reg :
  (length reg <= length (foldl upsert reg ss))%nat.
Proof.
  revert reg. induction ss as [|s rest IH]; intros reg; simpl; [done|].
  pose proof (upsert_length reg s). pose proof (IH (upsert reg s)). lia.
Qed.

Lemma foldl_upsert_names ss reg j :
  (j < length reg)%nat ->
  fmap name <$> foldl upsert reg ss !! j = fmap name <$> reg !! j.
Proof.
  revert reg. induction ss as [|s rest IH]; intros reg Hj; simpl; [done|].
  rewrite IH; [by apply upsert_names|]. pose proof (upsert_length reg s). lia.
Qed.

Lemma foldl_upsert_first_named ss reg m j :
  first_named reg m j -> first_named (foldl upsert reg ss) m j.
Proof.
  revert reg. induction ss as [|s rest IH]; intros reg Hfirst; simpl; [done|].
  by apply IH, upsert_first_named.
Qed.

Lemma foldl_upsert_keep ss reg j s' :
  reg !! j = Some (Some s') -> name s' ∉ name <$> ss ->
  foldl upsert reg ss !! j = Some (Some s').
Proof.
  revert reg. induction ss as [|s rest IH]; intros reg Hj Hnot; simpl; [done|].
  rewrite fmap_cons in Hnot. apply not_elem_of_cons in Hnot as [Hne Hnot].
  apply IH; [|done]. by apply upsert_keep.
Qed.

Lemma foldl_upsert_new ss reg s :
  NoDup (name <$> ss) -> s ∈ ss ->
  ∃ i, foldl upsert reg ss !! i = Some (Some s) ∧
       first_named (foldl upsert reg ss) (name s) i.
Proof.
  revert reg. induction ss as [|s0 rest IH]; intros reg Hnd Hin; simpl.
  - by apply elem_of_nil in Hin.
  - rewrite fmap_cons in Hnd. apply NoDup_cons in Hnd as [Hfresh Hnd].
    apply elem_of_cons in Hin as [->|Hin]; [|by apply IH].
    destruct (upsert_new reg s0) as (i & Hi & Hfirst). exists i. split.
    + by apply foldl_upsert_keep.
    + by apply foldl_upsert_first_named.
Qed.

(** *** The model's operations on the registry *)

Lemma add_service_upsert self n u t e w :
  wf w self ->
  registry (add_service self n u t e w) self =
    upsert (registry w self) {| name := n; url := u; timeout := t; enabled := e |}.
Proof.
  intros Hwf. rewrite add_service_registry by done. cbv zeta.
  unfold upsert. cbn [name]. by rewrite find_name_find_entry.
Qed.

Lemma add_service_frame self n u t e w :
  wf w self ->
  let w' := add_service self n u t e w in
  wf w' self ∧
  trace w' = trace w ∧
  objects w' = objects w ++ [{| name := n; url := u; timeout := t; enabled := e |}] ∧
  length (lists w') = length (lists w) ∧
  ∀ l', l' ≠ _services self -> items_of w' l' = items_of w l'.
Proof.
  intros [Hl Hitems]. unfold add_service, new_service, _update_service. cbn [fst snd].
  cbn [objects with_objects]. rewrite lookup_app_r, Nat.sub_diag by done. cbn [lookup list_lookup].
  change (items_of (with_objects w _) (_services self)) with (items_of w (_services self)).
  assert (Forall (λ a, (a < length (objects w ++ [{| name := n; url := u; timeout := t; enabled := e |}]))%nat)
            (items_of w (_services self))) as Hitems'.
  { eapply Forall_impl; [exact Hitems|]. intros a Ha. simpl in Ha. rewrite length_app. simpl. lia. }
  assert (length (objects w) < length (objects w ++ [{| name := n; url := u; timeout := t; enabled := e |}]))%nat
    as Hnew by (rewrite length_app; simpl; lia).
  destruct (find_name _ _ _) as [i|]; cbv zeta; unfold wf;
    (rewrite items_of_store_items by done); cbn [store_items with_lists with_objects objects lists trace];
    rewrite length_insert; split_and!; try done.
  - by apply Forall_insert.
  - intros l' Hne. by rewrite items_of_store_items_ne.
  - apply Forall_app. split; [done|]. by constructor.
  - intros l' Hne. by rewrite items_of_store_items_ne.
Qed.

End UpsertFacts.

Section LoadFacts.
Import Py PublicIP.

Lemma service_of_config_of_service s :
  service_of_config (name s)
    [("url", Config.VStr (url s)); ("timeout", Config.VInt (timeout s));
     ("enabled", Config.VBool (enabled s))] = Some s.
Proof. by destruct s. Qed.

Lemma load_loop_entries self ss w :
  load_loop self (entries_of ss) w = PublicIP.add_all self ss w.
Proof.
  revert w. induction ss as [|s rest IH]; intros w; [done|].
  unfold PublicIP.add_all. cbn [entries_of fmap list_fmap foldl]. unfold config_of_service.
  cbn [load_loop]. rewrite service_of_config_of_service.
  unfold add_service. destruct s as [n u t e]. cbn [name url timeout enabled].
  destruct (new_service _ w) as [service w1]. apply IH.
Qed.

Lemma add_all_cons self s rest w :
  PublicIP.add_all self (s :: rest) w =
  PublicIP.add_all self rest (add_service self (name s) (url s) (timeout s) (enabled s) w).
Proof. reflexivity. Qed.

Lemma add_all_frame self ss w :
  wf w self ->
  wf (PublicIP.add_all self ss w) self ∧
  registry (PublicIP.add_all self ss w) self = foldl upsert (registry w self) ss ∧
  trace (PublicIP.add_all self ss w) = trace w ∧
  objects (PublicIP.add_all self ss w) = objects w ++ ss ∧
  length (lists (PublicIP.add_all self ss w)) = length (lists w) ∧
  ∀ l', l' ≠ _services self -> items_of (PublicIP.add_all self ss w) l' = items_of w l'.
Proof.
  revert w. induction ss as [|s rest IH]; intros w Hwf.
  - unfold PublicIP.add_all. simpl. rewrite app_nil_r. done.
  - rewrite add_all_cons. cbn [foldl].
    destruct (add_service_frame self (name s) (url s) (timeout s) (enabled s) w Hwf)
      as (Hwf1 & Htr1 & Hobj1 & Hlen1 & Hoth1).
    destruct (IH _ Hwf1) as (Hwf2 & Hreg2 & Htr2 & Hobj2 & Hlen2 & Hoth2).
    split_and!.
    + done.
    + rewrite Hreg2, add_service_upsert by done. by destruct s.
    + congruence.
    + rewrite Hobj2, Hobj1, <- app_assoc. by destruct s.
    + congruence.
    + intros l' Hne. by rewrite Hoth2, Hoth1.
Qed.

Lemma update_service_services self1 self2 service w :
  _services self1 = _services self2 ->
  _update_service self1 service w = _update_service self2 service w.
Proof. intros H. unfold _update_service. by rewrite H. Qed.

Lemma load_loop_services self1 self2 entries w :
  _services self1 = _services self2 ->
  load_loop self1 entries w = load_loop self2 entries w.
Proof.
  intros H. revert w. induction entries as [|[n v] rest IH]; intros w; [done|].
  cbn [load_loop]. destruct v; try apply IH.
  destruct (service_of_config n items) as [s|]; [|apply IH].
  destruct (new_service s w) as [service w1].
  rewrite (update_service_services self1 self2) by done. apply IH.
Qed.

Lemma builtin_entries :
  Config.get Config.__init__ "ip_services" (Config.VDict []) =
  Config.VDict (entries_of [config_ipify; config_ipinfo; config_ifconfig]).
Proof. reflexivity. Qed.

Lemma registry_some w self :
  wf w self ->
  registry w self = Some <$> omap (λ a, objects w !! a) (items_of w (_services self)).
Proof.
  intros [_ Hitems]. unfold registry.
  induction Hitems as [|a rest Ha _ IH]; [done|].
  cbn [fmap list_fmap omap list_omap].
  destruct (lookup_lt_is_Some_2 (objects w) a Ha) as [s Hs]. rewrite Hs.
  cbn [fmap list_fmap]. by rewrite IH.
Qed.

Lemma assoc_set_fresh k v items :
  k ∉ items.*1 -> Config.assoc_set k v items = items ++ [(k, v)].
Proof.
  induction items as [|[k' v'] rest IH]; intros Hk; simpl; [done|].
  rewrite fmap_cons in Hk. apply not_elem_of_cons in Hk as [Hne Hk]. simpl in Hne.
  rewrite bool_decide_eq_false_2 by done. by rewrite IH.
Qed.

Lemma service_configs_entries objs items acc :
  NoDup (acc.*1 ++ (name <$> omap (λ a, objs !! a) items)) ->
  service_configs objs items acc = acc ++ entries_of (omap (λ a, objs !! a) items).
Proof.
  revert acc. induction items as [|a rest IH]; intros acc Hnd.
  - simpl. by rewrite app_nil_r.
  - cbn [service_configs omap list_omap] in *.
    destruct (objs !! a) as [s|]; [|by apply IH].
    cbn [fmap list_fmap] in Hnd.
    assert (name s ∉ acc.*1) as Hfresh.
    { apply NoDup_app in Hnd as (_ & Hdisj & _). intros Hin.
      apply (Hdisj _ Hin). by left. }
    rewrite assoc_set_fresh by done. rewrite IH.
    + unfold entries_of. cbn [fmap list_fmap]. by rewrite <- app_assoc.
    + rewrite fmap_app. cbn [fmap list_fmap fst]. rewrite <- app_assoc. exact Hnd.
Qed.

End LoadFacts.

Section InitFacts.
Import Py PublicIP.

Lemma load_builtin self w :
  Config.get (_config self) "ip_services" (Config.VDict []) =
    Config.get Config.__init__ "ip_services" (Config.VDict []) ->
  _load_services_from_config self w =
    PublicIP.add_all self [config_ipify; config_ipinfo; config_ifconfig] w.
Proof.
  intros Hcfg. unfold _load_services_from_config. rewrite Hcfg, builtin_entries.
  apply load_loop_entries.
Qed.

Lemma defaults_registry w self :
  defaults_intact w ->
  _services self = length (lists w) ->
  let w1 := (list_copy DEFAULT_SERVICES w).2 in
  wf w1 self ∧
  registry w1 self = [objects w !! 0%nat; objects w !! 1%nat; objects w !! 2%nat; objects w !! 3%nat].
Proof.
  intros Hint Hl. pose proof (defaults_intact_length w Hint) as [Hlen _].
  destruct Hint as (Hlists & _).
  unfold list_copy, new_list, items_of. rewrite Hlists. cbn [snd default].
  unfold wf, registry, items_of. cbn [with_lists lists objects]. rewrite Hl.
  rewrite list_lookup_middle by done. cbn [default]. split; [|done].
  split; [rewrite length_app; simpl; lia|].
  repeat constructor; lia.
Qed.

End InitFacts.

(** X14. A detector constructed over a caller's list keeps that very list
    and writes the configured services into it: afterwards each of ipify,
    ipinfo and ifconfig has a first entry, which is the configured one
    (URL, timeout and flag from the built-in configuration, whatever the
    caller's entry of that name said); entries with other names stay where
    they were; an entry that was the first of its name still holds the
    first position of that name; nothing is sent. *)
Theorem init_with_callers_list_overrides_configured_names
    (l : nat) (w : PublicIP.world) :
  let d := {| PublicIP._services := l; PublicIP._last_used_service := None;
              PublicIP._config := Config.__init__ |} in
  PublicIP.wf w d ->
  (PublicIP.__init__ (Some l) w).1 = d ∧
  let w' := (PublicIP.__init__ (Some l) w).2 in
  (∀ c, c ∈ [PublicIP.config_ipify; PublicIP.config_ipinfo; PublicIP.config_ifconfig] ->
     ∃ i, PublicIP.first_named (PublicIP.registry w' d) (PublicIP.name c) i ∧
          PublicIP.registry w' d !! i = Some (Some c)) ∧
  (∀ j s, PublicIP.registry w d !! j = Some (Some s) ->
          PublicIP.name s ∉ ["ipify"; "ipinfo"; "ifconfig"] ->
          PublicIP.registry w' d !! j = Some (Some s)) ∧
  (∀ n j, PublicIP.first_named (PublicIP.registry w d) n j ->
          PublicIP.first_named (PublicIP.registry w' d) n j) ∧
  PublicIP.trace w' = PublicIP.trace w.
Proof.
  intros d Hwf. unfold PublicIP.__init__. cbn [fst snd]. fold d. split; [done|].
  rewrite load_builtin by done.
  destruct (add_all_frame d [PublicIP.config_ipify; PublicIP.config_ipinfo; PublicIP.config_ifconfig]
              w Hwf) as (_ & Hreg & Htr & _).
  cbv zeta. rewrite Hreg. split_and!.
  - intros c Hc.
    destruct (foldl_upsert_new
                [PublicIP.config_ipify; PublicIP.config_ipinfo; PublicIP.config_ifconfig]
                (PublicIP.registry w d) c) as (i & Hi & Hfirst); [|done|by exists i].
    apply (bool_decide_unpack _). by vm_compute.
  - intros j s Hj Hs. by apply foldl_upsert_keep.
  - intros n j. apply foldl_upsert_first_named.
  - done.
Qed.

Lemma init_with_callers_list_overrides_configured_names_witness :
  let w := (PublicIP.new_list [0; 1; 4]%nat
             (PublicIP.new_service PublicIP.Scenario.A PublicIP.module_world).2).2 in
  let d := {| PublicIP._services := 1%nat; PublicIP._last_used_service := None;
              PublicIP._config := Config.__init__ |} in
  PublicIP.wf w d ∧
  PublicIP.registry (PublicIP.__init__ (Some 1%nat) w).2 d !! 2%nat = Some (Some PublicIP.Scenario.A).
Proof.
  assert (PublicIP.wf
            (PublicIP.new_list [0; 1; 4]%nat
               (PublicIP.new_service PublicIP.Scenario.A PublicIP.module_world).2).2
            {| PublicIP._services := 1%nat; PublicIP._last_used_service := None;
               PublicIP._config := Config.__init__ |}) as Hwf.
  { split; [vm_compute; lia|]. vm_compute. repeat constructor. }
  split; [exact Hwf|].
  apply (proj1 (proj2 (proj2 (init_with_callers_list_overrides_configured_names _ _ Hwf)))).
  - reflexivity.
  - apply (bool_decide_unpack _). by vm_compute.
Defined.

(** X15. [refresh_services], with the built-in [ip_services] table and the
    class attribute intact, gives the detector a new list: the three
    configured services as new objects, and the fourth default object as
    it is now (it stays shared and keeps its flag). Services added before
    are not in the registry any more; the lists that existed are
    untouched; nothing is sent. *)
Theorem refresh_services_rebuilds_from_defaults
    (self : PublicIP.PublicIPDetector) (w : PublicIP.world) :
  PublicIP.defaults_intact w ->
  Config.get (PublicIP._config self) "ip_services" (Config.VDict []) =
    Config.get Config.__init__ "ip_services" (Config.VDict []) ->
  let self' := (PublicIP.refresh_services self w).1 in
  let w' := (PublicIP.refresh_services self w).2 in
  self' = PublicIP.with_services self (length (PublicIP.lists w)) ∧
  PublicIP.registry w' self' =
    [Some PublicIP.config_ipify; Some PublicIP.config_ipinfo; Some PublicIP.config_ifconfig;
     PublicIP.objects w !! 3%nat] ∧
  PublicIP.objects w' =
    PublicIP.objects w ++ [PublicIP.config_ipify; PublicIP.config_ipinfo; PublicIP.config_ifconfig] ∧
  (∀ l, (l < length (PublicIP.lists w))%nat ->
        PublicIP.items_of w' l = PublicIP.items_of w l) ∧
  PublicIP.trace w' = PublicIP.trace w.
Proof.
  intros Hint Hcfg. unfold PublicIP.refresh_services.
  pose proof (defaults_registry w (PublicIP.with_services self (length (PublicIP.lists w)))
                Hint eq_refl) as [Hwf Hreg].
  assert ((PublicIP.list_copy PublicIP.DEFAULT_SERVICES w).1 = length (PublicIP.lists w)) as Hl
    by done.
  destruct (PublicIP.list_copy PublicIP.DEFAULT_SERVICES w) as [l w1] eqn:Hcopy.
  cbn [fst snd] in *. subst l. split; [done|].
  rewrite load_builtin by done.
  destruct (add_all_frame _ [PublicIP.config_ipify; PublicIP.config_ipinfo; PublicIP.config_ifconfig]
              w1 Hwf) as (_ & Hreg' & Htr & Hobj & _ & Hoth).
  assert (w1 = PublicIP.with_lists w (PublicIP.lists w ++
            [PublicIP.items_of w PublicIP.DEFAULT_SERVICES])) as Hw1.
  { unfold PublicIP.list_copy, PublicIP.new_list in Hcopy. by injection Hcopy as <-. }
  split_and!.
  - rewrite Hreg', Hreg.
    destruct Hint as (_ & H0 & H1 & H2 & _).
    destruct (PublicIP.objects w !! 0%nat) as [s0|]; [|done].
    destruct (PublicIP.objects w !! 1%nat) as [s1|]; [|done].
    destruct (PublicIP.objects w !! 2%nat) as [s2|]; [|done].
    injection H0 as H0. injection H1 as H1. injection H2 as H2.
    cbn [foldl]. unfold PublicIP.upsert. cbn [PublicIP.find_entry PublicIP.name PublicIP.config_ipify
      PublicIP.config_ipinfo PublicIP.config_ifconfig].
    rewrite H0. rewrite bool_decide_eq_true_2 by done. cbn [insert list_insert].
    cbn [PublicIP.find_entry PublicIP.name]. rewrite bool_decide_eq_false_2 by done.
    rewrite H1. rewrite bool_decide_eq_true_2 by done. cbn [fmap option_fmap option_map insert list_insert].
    cbn [PublicIP.find_entry PublicIP.name]. rewrite !bool_decide_eq_false_2 by done.
    rewrite H2. rewrite bool_decide_eq_true_2 by done. done.
  - rewrite Hobj. by rewrite Hw1.
  - intros l Hlt. rewrite Hoth by (cbn; lia). rewrite Hw1.
    unfold PublicIP.items_of. cbn [PublicIP.with_lists PublicIP.lists].
    by rewrite lookup_app_l.
  - rewrite Htr. by rewrite Hw1.
Qed.

Lemma refresh_services_rebuilds_from_defaults_witness :
  PublicIP.defaults_intact PublicIP.Scenario.start ∧
  PublicIP.registry (PublicIP.refresh_services PublicIP.Scenario.detector PublicIP.Scenario.start).2
      (PublicIP.refresh_services PublicIP.Scenario.detector PublicIP.Scenario.start).1 =
    [Some PublicIP.config_ipify; Some PublicIP.config_ipinfo; Some PublicIP.config_ifconfig;
     PublicIP.objects PublicIP.Scenario.start !! 3%nat].
Proof.
  assert (PublicIP.defaults_intact PublicIP.Scenario.start) as Hint.
  { by vm_compute. }
  split; [exact Hint|].
  exact (proj1 (proj2 (refresh_services_rebuilds_from_defaults
                         PublicIP.Scenario.detector PublicIP.Scenario.start Hint eq_refl))).
Defined.

Section SaveFacts.
Import Py PublicIP.

Lemma save_services_to_config_table self w :
  Config.is_dict (Config._config (_config self)) = true ->
  ∃ self1,
    save_services_to_config self w = Return self1 ∧
    _services self1 = _services self ∧
    _last_used_service self1 = _last_used_service self ∧
    ∀ d, Config.get (_config self1) "ip_services" d =
         Config.VDict (service_configs (objects w) (items_of w (_services self)) []).
Proof.
  intros Hdict. unfold save_services_to_config, Config.set.
  change (split_dot "ip_services") with ["ip_services"].
  destruct (Config._config (_config self)) as [| | | |items] eqn:Hc; try done.
  cbn [Config.set_path]. eexists. split; [done|]. split; [done|]. split; [done|].
  intros d. rewrite get_unfold. cbn [Config._config].
  change (split_dot "ip_services") with ["ip_services"].
  rewrite (walk_found _ _ _ _
             (Config.VDict (service_configs (objects w) (items_of w (_services self)) [])));
    [done|].
  cbn [Config.walk_defaults Config.index _config Config._config].
  by rewrite assoc_set_eq.
Qed.

End SaveFacts.

(** X16. [save_services_to_config] followed by [refresh_services], for a
    registry without repeated names and a configuration that is a table:
    saving succeeds, and after the refresh every saved service is the first
    entry of its name, with its URL, timeout and flag; the four default
    names hold the first four positions (a default that had been removed is
    back); and a default object whose name was not saved is there
    unchanged. *)
Theorem save_then_refresh_keeps_saved_services
    (self : PublicIP.PublicIPDetector) (w : PublicIP.world) :
  PublicIP.wf w self ->
  PublicIP.defaults_intact w ->
  NoDup (PublicIP.names_of (PublicIP.registry w self)) ->
  Config.is_dict (Config._config (PublicIP._config self)) = true ->
  ∃ self1,
    PublicIP.save_services_to_config self w = Py.Return self1 ∧
    let self2 := (PublicIP.refresh_services self1 w).1 in
    let w2 := (PublicIP.refresh_services self1 w).2 in
    (∀ s, Some s ∈ PublicIP.registry w self ->
       ∃ i, PublicIP.first_named (PublicIP.registry w2 self2) (PublicIP.name s) i ∧
            PublicIP.registry w2 self2 !! i = Some (Some s)) ∧
    (∀ j n, PublicIP.default_names !! j = Some n ->
       ∃ s', PublicIP.registry w2 self2 !! j = Some (Some s') ∧ PublicIP.name s' = n) ∧
    (∀ j s0, (j < 4)%nat -> PublicIP.objects w !! j = Some s0 ->
       (∀ s, Some s ∈ PublicIP.registry w self -> PublicIP.name s ≠ PublicIP.name s0) ->
       PublicIP.registry w2 self2 !! j = Some (Some s0)).
Proof.
  intros Hwf Hint Hnd Hdict.
  destruct (save_services_to_config_table self w Hdict) as (self1 & Hsave & Hl & _ & Hget).
  exists self1. split; [done|].
  set (ss := omap (λ a, PublicIP.objects w !! a) (PublicIP.items_of w (PublicIP._services self))).
  pose proof (registry_some w self Hwf) as Hreg0. fold ss in Hreg0.
  assert (NoDup (PublicIP.name <$> ss)) as Hnd'.
  { unfold PublicIP.names_of in Hnd. rewrite Hreg0, <- list_fmap_compose in Hnd.
    change (NoDup ((Some ∘ PublicIP.name) <$> ss)) in Hnd.
    rewrite list_fmap_compose in Hnd. by apply NoDup_fmap in Hnd; [|apply _]. }
  assert (service_configs_eq :
    PublicIP.service_configs (PublicIP.objects w) (PublicIP.items_of w (PublicIP._services self)) []
      = PublicIP.entries_of ss).
  { by rewrite service_configs_entries. }
  unfold PublicIP.refresh_services.
  pose proof (defaults_registry w (PublicIP.with_services self1 (length (PublicIP.lists w)))
                Hint eq_refl) as [Hwf1 Hreg1].
  assert ((PublicIP.list_copy PublicIP.DEFAULT_SERVICES w).1 = length (PublicIP.lists w)) as Hlen
    by done.
  destruct (PublicIP.list_copy PublicIP.DEFAULT_SERVICES w) as [l w1] eqn:Hcopy.
  cbn [fst snd] in *. subst l.
  unfold PublicIP._load_services_from_config.
  change (PublicIP._config (PublicIP.with_services self1 (length (PublicIP.lists w))))
    with (PublicIP._config self1).
  rewrite Hget, service_configs_eq, load_loop_entries.
  destruct (add_all_frame _ ss w1 Hwf1) as (_ & Hreg2 & _).
  rewrite Hreg2, Hreg1.
  assert (∀ s, Some s ∈ PublicIP.registry w self -> s ∈ ss) as Hin.
  { intros s. rewrite Hreg0. rewrite list_elem_of_fmap. by intros (s' & [= <-] & ?). }
  destruct Hint as (_ & H0 & H1 & H2 & H3).
  destruct (PublicIP.objects w !! 0%nat) as [o0|] eqn:E0; [|done].
  destruct (PublicIP.objects w !! 1%nat) as [o1|] eqn:E1; [|done].
  destruct (PublicIP.objects w !! 2%nat) as [o2|] eqn:E2; [|done].
  destruct (PublicIP.objects w !! 3%nat) as [o3|] eqn:E3; [|done].
  injection H0 as H0. injection H1 as H1. injection H2 as H2. injection H3 as H3.
  split_and!.
  - intros s Hs.
    destruct (foldl_upsert_new ss [Some o0; Some o1; Some o2; Some o3] s Hnd' (Hin s Hs))
      as (i & Hi & Hfirst). by exists i.
  - intros j n Hj.
    assert (j < length [Some o0; Some o1; Some o2; Some o3])%nat as Hlt.
    { apply lookup_lt_Some in Hj. simpl in *. lia. }
    pose proof (foldl_upsert_names ss _ j Hlt) as Hn.
    destruct j as [|[|[|[|j]]]]; simpl in Hj, Hn; try done; injection Hj as <-;
      (destruct (foldl PublicIP.upsert _ ss !! _) as [[s'|]|]; [|done|done]);
      simpl in Hn; exists s'; (split; [done|congruence]).
  - intros j s0 Hj Hs0 Hfresh. apply foldl_upsert_keep.
    + destruct j as [|[|[|[|j]]]]; simpl; try lia; congruence.
    + intros Hmem. apply list_elem_of_fmap in Hmem as (s & Hname & Hs).
      apply (Hfresh s); [|done]. rewrite Hreg0. apply list_elem_of_fmap. eauto.
Qed.

Lemma save_then_refresh_keeps_saved_services_witness :
  PublicIP.wf PublicIP.Scenario.start PublicIP.Scenario.detector ∧
  PublicIP.defaults_intact PublicIP.Scenario.start ∧
  NoDup (PublicIP.names_of
           (PublicIP.registry PublicIP.Scenario.start PublicIP.Scenario.detector)) ∧
  ∃ self1,
    PublicIP.save_services_to_config PublicIP.Scenario.detector PublicIP.Scenario.start
      = Py.Return self1 ∧
    ∃ i, PublicIP.registry (PublicIP.refresh_services self1 PublicIP.Scenario.start).2
           (PublicIP.refresh_services self1 PublicIP.Scenario.start).1 !! i
         = Some (Some PublicIP.Scenario.B).
Proof.
  assert (PublicIP.wf PublicIP.Scenario.start PublicIP.Scenario.detector) as Hwf.
  { split; [vm_compute; lia|]. vm_compute. repeat constructor. }
  assert (PublicIP.defaults_intact PublicIP.Scenario.start) as Hint by (by vm_compute).
  assert (NoDup (PublicIP.names_of
                   (PublicIP.registry PublicIP.Scenario.start PublicIP.Scenario.detector))) as Hnd.
  { apply (bool_decide_unpack _). by vm_compute. }
  split_and!; [exact Hwf|exact Hint|exact Hnd|].
  destruct (save_then_refresh_keeps_saved_services _ _ Hwf Hint Hnd eq_refl)
    as (self1 & Hsave & Hkeep & _).
  exists self1. split; [exact Hsave|].
  destruct (Hkeep PublicIP.Scenario.B) as (i & _ & Hi).
  { apply (list_elem_of_lookup_2 _ 1%nat). by vm_compute. }
  by exists i.
Defined.

(** ** [services/resolution.py] *)

Section ResolveMore.
Import Py Resolution.

Lemma resolve_cached_hit self h now r :
  _enable_cache self = true ->
  _cache self !! h = Some r ->
  is_expired r (_default_ttl self) now = false ->
  resolve_cached self h now = (Some (ip_address r), self).
Proof.
  intros He Hr Hfresh. unfold resolve_cached. rewrite He.
  by rewrite (get_from_cache_fresh self h r now).
Qed.

Lemma resolve_hit self h family t_get dns t_store r :
  _enable_cache self = true ->
  _cache self !! h = Some r ->
  is_expired r (_default_ttl self) t_get = false ->
  resolve self h family t_get dns t_store = (Some (ip_address r), self).
Proof.
  intros He Hr Hfresh. unfold resolve.
  by rewrite (resolve_cached_hit self h t_get r).
Qed.

Lemma is_expired_false r ttl now :
  is_expired r ttl now = false ↔ now - timestamp r <= ttl.
Proof. unfold is_expired. rewrite Z.gtb_ltb, Z.ltb_ge. done. Qed.

(** The state after the cache has been consulted and missed. *)
Lemma resolve_cached_miss self h now :
  (resolve_cached self h now).1 = None ->
  (resolve_cached self h now).2 =
    if _enable_cache self then with_cache self (delete h (_cache self)) else self.
Proof.
  unfold resolve_cached. destruct (_enable_cache self) eqn:He; [|done].
  pose proof (get_from_cache_miss_state self h now He) as Hstate.
  destruct (_get_from_cache self h now) as [[r|] self1]; simpl in *; [done|].
  intros _. by apply Hstate.
Qed.

Lemma resolve_cached_settings self h now :
  _enable_cache (resolve_cached self h now).2 = _enable_cache self ∧
  _default_ttl (resolve_cached self h now).2 = _default_ttl self.
Proof.
  unfold resolve_cached. destruct (_enable_cache self) eqn:He; [|done].
  pose proof (get_from_cache_settings self h now) as [H1 H2].
  destruct (_get_from_cache self h now) as [[r|] self1]; simpl in *; by rewrite H1, H2.
Qed.

Lemma resolve_cached_Some self h now ip :
  (resolve_cached self h now).1 = Some ip ->
  ∃ r, _enable_cache self = true ∧ _cache self !! h = Some r ∧ ip_address r = ip ∧
       is_expired r (_default_ttl self) now = false ∧
       (resolve_cached self h now).2 = self.
Proof.
  unfold resolve_cached. destruct (_enable_cache self) eqn:He; [|done].
  destruct (_get_from_cache self h now) as [[r|] self1] eqn:Hget; simpl; [|done].
  intros [= <-]. exists r.
  destruct (get_from_cache_hit self h now r) as (Hr & Hfresh & Hst); [by rewrite Hget|].
  rewrite Hget in Hst. simpl in Hst. by subst.
Qed.

Lemma resolve_Some self h family t_get dns t_store ip :
  _enable_cache self = true ->
  (resolve self h family t_get dns t_store).1 = Some ip ->
  truthy ip = true ->
  ∃ r,
    _enable_cache (resolve self h family t_get dns t_store).2 = true ∧
    _default_ttl (resolve self h family t_get dns t_store).2 = _default_ttl self ∧
    _cache (resolve self h family t_get dns t_store).2 !! h = Some r ∧
    ip_address r = ip ∧
    (_cache self !! h = Some r ∨ timestamp r = t_store).
Proof.
  intros He. unfold resolve.
  destruct (resolve_cached self h t_get) as [[ip0|] self1] eqn:Hc.
  - cbn [fst snd]. intros [= ->] _.
    destruct (resolve_cached_Some self h t_get ip) as (r & _ & Hr & Hipr & Hfresh & Hst);
      [by rewrite Hc|].
    rewrite Hc in Hst. simpl in Hst. subst self1. exists r. split_and!; try done. by left.
  - pose proof (resolve_cached_settings self h t_get) as [He1 Httl1].
    rewrite Hc in He1, Httl1. simpl in He1, Httl1.
    unfold resolve_lookup.
    destruct (dns h family) as [info|e]; [|done]. cbn [fst snd].
    intros Hhead Hip. rewrite Hhead, Hip, He1, He. cbn [andb].
    unfold _store_in_cache. rewrite He1, He. cbn [negb].
    eexists. split_and!.
    + simpl. by rewrite He1.
    + done.
    + simpl. apply lookup_insert_eq.
    + done.
    + by right.
Qed.

End ResolveMore.

(** X17. With the cache enabled, when [resolve] returns a non-empty address
    the cache holds a record for the hostname with that address, either
    the one that was there or one stamped with the time of the store; and
    a later [resolve] for the hostname within the TTL of that record's
    timestamp returns the same address and changes nothing, whatever the
    name service would answer. *)
Theorem resolve_answers_from_cache_within_ttl
    (self : Resolution.DNSResolver) (h : string) (family : Resolution.AddressFamily)
    (t_get : Z) (dns : Resolution.name_service) (t_store : Z) (ip : string) :
  Resolution._enable_cache self = true ->
  (Resolution.resolve self h family t_get dns t_store).1 = Some ip ->
  Py.truthy ip = true ->
  let self' := (Resolution.resolve self h family t_get dns t_store).2 in
  ∃ r,
    Resolution._cache self' !! h = Some r ∧
    Resolution.ip_address r = ip ∧
    (Resolution._cache self !! h = Some r ∨ Resolution.timestamp r = t_store) ∧
    Resolution._default_ttl self' = Resolution._default_ttl self ∧
    ∀ t_get' dns' t_store',
      t_get' - Resolution.timestamp r <= Resolution._default_ttl self ->
      Resolution.resolve self' h family t_get' dns' t_store' = (Some ip, self').
Proof.
  intros He Hres Hip self'.
  destruct (resolve_Some self h family t_get dns t_store ip He Hres Hip)
    as (r & He' & Httl & Hr & Hipr & Hfrom).
  fold self' in He', Httl, Hr. exists r. split_and!; try done.
  intros t_get' dns' t_store' Hwithin. rewrite <- Hipr.
  apply resolve_hit; [done|done|]. apply is_expired_false. by rewrite Httl.
Qed.

Lemma resolve_answers_from_cache_within_ttl_witness :
  Resolution._enable_cache Resolution.Scenario.resolver = true ∧
  (Resolution.resolve Resolution.Scenario.resolver "example.test" Resolution.AF_UNSPEC
     1000 Resolution.Scenario.dns 1001).1 = Some "93.184.216.34" ∧
  ∃ r, Resolution._cache
         (Resolution.resolve Resolution.Scenario.resolver "example.test" Resolution.AF_UNSPEC
            1000 Resolution.Scenario.dns 1001).2 !! "example.test" = Some r ∧
       Resolution.ip_address r = "93.184.216.34".
Proof.
  split; [reflexivity|]. split; [reflexivity|].
  destruct (resolve_answers_from_cache_within_ttl Resolution.Scenario.resolver "example.test"
              Resolution.AF_UNSPEC 1000 Resolution.Scenario.dns 1001 "93.184.216.34"
              eq_refl eq_refl eq_refl) as (r & Hr & Hip & _).
  exists r. by split.
Defined.

(** X18. [resolve] returns [None] exactly when the cache gives no fresh
    record and the name service fails or returns no entry. The resolver
    is then as before, except that with the cache enabled a record for the
    hostname (an expired one) has been dropped: nothing is cached for the
    hostname. *)
Theorem resolve_failure_is_not_cached
    (self : Resolution.DNSResolver) (h : string) (family : Resolution.AddressFamily)
    (t_get : Z) (dns : Resolution.name_service) (t_store : Z) :
  let out := Resolution.resolve self h family t_get dns t_store in
  (out.1 = None ↔
     (Resolution.resolve_cached self h t_get).1 = None ∧
     (dns h family = Py.Return [] ∨ ∃ e, dns h family = Py.Raise e)) ∧
  (out.1 = None ->
     out.2 = (if Resolution._enable_cache self
              then Resolution.with_cache self (delete h (Resolution._cache self))
              else self) ∧
     (Resolution._enable_cache self = true -> Resolution._cache out.2 !! h = None)).
Proof.
  intros out. unfold out. clear out. unfold Resolution.resolve.
  pose proof (resolve_cached_miss self h t_get) as Hmiss.
  destruct (Resolution.resolve_cached self h t_get) as [[ip|] self1]; cbn [fst snd] in *.
  - split; [split; [done|by intros [? _]]|done].
  - specialize (Hmiss eq_refl). unfold Resolution.resolve_lookup.
    destruct (dns h family) as [[|item info]|e]; cbn [fst snd fmap list_fmap head].
    + split; [split; [intros _; split; [done|by left]|done]|].
      intros _. rewrite Hmiss. split; [done|]. intros ->. simpl. apply lookup_delete_eq.
    + split; [|done]. split; [done|]. intros [_ [?|[e ?]]]; done.
    + split; [split; [intros _; split; [done|right; by exists e]|done]|].
      intros _. rewrite Hmiss. split; [done|]. intros ->. simpl. apply lookup_delete_eq.
Qed.

(** X19. After [clear_cache] the statistics show size zero and no
    hostname, with the settings as before; every cache lookup misses and
    leaves the resolver as it is; [resolve] goes to the name service, and
    [resolve_all] returns what the name service's answer gives. *)
Theorem clear_cache_forgets_every_record (self : Resolution.DNSResolver) :
  let self' := Resolution.clear_cache self in
  Resolution.get_cache_stats self' =
    (0%nat, Resolution._enable_cache self, Resolution._default_ttl self, []) ∧
  (∀ h now, Resolution._get_from_cache self' h now = (None, self')) ∧
  (∀ h family t_get dns t_store,
     Resolution.resolve self' h family t_get dns t_store =
       Resolution.resolve_lookup self' h family dns t_store) ∧
  (∀ h family t_get dns t_store info,
     dns h family = Py.Return info ->
     (Resolution.resolve_all self' h family t_get dns t_store).1 =
       Resolution.collect_addresses info []).
Proof.
  intros self'. split_and!.
  - unfold Resolution.get_cache_stats, self', Resolution.clear_cache. simpl.
    by rewrite map_to_list_empty.
  - intros h now. unfold Resolution._get_from_cache, self', Resolution.clear_cache. simpl.
    destruct (Resolution._enable_cache self); simpl; [|done]. by rewrite lookup_empty.
  - intros h family t_get dns t_store.
    unfold Resolution.resolve, Resolution.resolve_cached, Resolution._get_from_cache,
      self', Resolution.clear_cache. simpl.
    destruct (Resolution._enable_cache self); simpl; [|done]. by rewrite lookup_empty.
  - intros h family t_get dns t_store info Hdns.
    unfold Resolution.resolve_all, Resolution._get_from_cache, self', Resolution.clear_cache.
    simpl. destruct (Resolution._enable_cache self); simpl.
    + rewrite lookup_empty. rewrite Hdns. done.
    + rewrite Hdns. done.
Qed.

(** X20. [set_cache_ttl] leaves the cache as it is, and the new TTL decides
    about the records already stored: with the cache enabled, a lookup
    returns a stored record exactly when its age is at most the new TTL,
    and drops it otherwise. *)
Theorem set_cache_ttl_applies_to_stored_records
    (self : Resolution.DNSResolver) (ttl : Z) (h : string) (r : Resolution.DNSRecord)
    (now : Z) :
  Resolution._enable_cache self = true ->
  Resolution._cache self !! h = Some r ->
  let self' := Resolution.set_cache_ttl self ttl in
  Resolution._cache self' = Resolution._cache self ∧
  Resolution._get_from_cache self' h now =
    if bool_decide (now - Resolution.timestamp r <= ttl)
    then (Some r, self')
    else (None, Resolution.with_cache self' (delete h (Resolution._cache self))).
Proof.
  intros He Hr self'. split; [done|].
  case_bool_decide as Hwithin.
  - apply get_from_cache_fresh; [done|done|]. by apply is_expired_false.
  - rewrite (get_from_cache_expired self' h r now); [done|done|done|].
    apply is_expired_spec. simpl. lia.
Qed.

Lemma set_cache_ttl_applies_to_stored_records_witness :
  let self := Resolution._store_in_cache (Resolution.__init__ true 300)
                "example.test" "93.184.216.34" ["AF_INET"] 1000 in
  let r := {| Resolution.hostname := "example.test";
              Resolution.ip_address := "93.184.216.34";
              Resolution.aliases := ["AF_INET"];
              Resolution.record_type := "A";
              Resolution.timestamp := 1000 |} in
  Resolution._enable_cache self = true ∧
  Resolution._cache self !! "example.test" = Some r ∧
  (Resolution._get_from_cache (Resolution.set_cache_ttl self 5) "example.test" 1100).1 = None.
Proof.
  split; [reflexivity|]. split; [reflexivity|].
  pose proof (proj2 (set_cache_ttl_applies_to_stored_records
    (Resolution._store_in_cache (Resolution.__init__ true 300)
       "example.test" "93.184.216.34" ["AF_INET"] 1000) 5 "example.test" _ 1100
    eq_refl eq_refl)) as H.
  rewrite H. reflexivity.
Defined.

(** X21. In every state a resolver can reach from its constructor through
    cache lookups, stores, [clear_cache] and [set_cache_ttl], the cache is
    enabled, the configuration is the built-in one, and every record is
    stored under its own hostname, with record type [A]. *)
Theorem reachable_cache_records_are_keyed_by_hostname (self : Resolution.DNSResolver) :
  Resolution.reachable self ->
  Resolution._enable_cache self = true ∧
  Resolution._config self = Config.__init__ ∧
  ∀ k r, Resolution._cache self !! k = Some r ->
         Resolution.hostname r = k ∧ Resolution.record_type r = "A".
Proof.
  induction 1 as [e t|self h now _ IH|self h ip al now _ IH|self _ IH|self ttl _ IH].
  - rewrite init_eq. simpl. split_and!; [done..|]. intros k r. by rewrite lookup_empty.
  - destruct IH as (He & Hc & Hrec).
    unfold Resolution._get_from_cache. rewrite He. simpl.
    destruct (Resolution._cache self !! h) as [r0|] eqn:Hh; [|done].
    destruct (Resolution.is_expired r0 _ now); simpl; [|done].
    split_and!; [done..|]. intros k r Hk.
    apply lookup_delete_Some in Hk as [_ Hk]. by apply Hrec.
  - destruct IH as (He & Hc & Hrec).
    unfold Resolution._store_in_cache. rewrite He. simpl.
    split_and!; [done..|]. intros k r Hk.
    apply lookup_insert_Some in Hk as [[<- <-]|[_ Hk]]; [done|by apply Hrec].
  - destruct IH as (He & Hc & Hrec). simpl. split_and!; [done..|].
    intros k r. by rewrite lookup_empty.
  - done.
Qed.

Lemma reachable_cache_records_are_keyed_by_hostname_witness :
  let self := Resolution._store_in_cache (Resolution.__init__ false 60)
                "example.test" "93.184.216.34" ["AF_INET"] 1000 in
  Resolution.reachable self ∧ Resolution._enable_cache self = true.
Proof.
  assert (Resolution.reachable
            (Resolution._store_in_cache (Resolution.__init__ false 60)
               "example.test" "93.184.216.34" ["AF_INET"] 1000)) as Hreach.
  { apply Resolution.reach_store, Resolution.reach_init. }
  split; [exact Hreach|].
  exact (proj1 (reachable_cache_records_are_keyed_by_hostname _ Hreach)).
Defined.

(** X22. The arguments of the constructor have no effect: [_load_config]
    overwrites both settings from the built-in configuration (cache
    enabled, TTL 300), so a resolver asked for with the cache disabled
    still stores what it resolves. *)
Theorem constructor_arguments_are_overridden_by_configuration
    (enable_cache : bool) (default_ttl : Z) :
  Resolution.__init__ enable_cache default_ttl = Resolution.__init__ true 300 ∧
  Resolution._enable_cache (Resolution.__init__ enable_cache default_ttl) = true ∧
  Resolution._default_ttl (Resolution.__init__ enable_cache default_ttl) = 300 ∧
  ∀ h family t_get dns t_store info first,
    dns h family = Py.Return info ->
    head (Resolution.sa_host <$> info) = Some first ->
    Py.truthy first = true ->
    Resolution.ip_address <$>
      Resolution._cache
        (Resolution.resolve (Resolution.__init__ enable_cache default_ttl)
           h family t_get dns t_store).2 !! h = Some first.
Proof.
  split_and!; [done..|].
  intros h family t_get dns t_store info first Hdns Hhead Htrue.
  rewrite (resolve_miss _ h family t_get dns t_store info first); [| |done..].
  - simpl. by rewrite lookup_insert_eq.
  - reflexivity.
Qed.

(** X23. [resolve] returns the first of the addresses [resolve_all]
    returns, for the same resolver, clock and name service, and both leave
    the same resolver, except when the first address is the empty string,
    which [resolve] does not cache. *)
Theorem resolve_returns_first_of_resolve_all
    (self : Resolution.DNSResolver) (h : string) (family : Resolution.AddressFamily)
    (t_get : Z) (dns : Resolution.name_service) (t_store : Z) :
  let one := Resolution.resolve self h family t_get dns t_store in
  let all := Resolution.resolve_all self h family t_get dns t_store in
  one.1 = head all.1 ∧
  match one.1 with
  | Some ip => Py.truthy ip = true -> one.2 = all.2
  | None => one.2 = all.2
  end.
Proof.
  intros one all. unfold one, all. clear one all.
  unfold Resolution.resolve, Resolution.resolve_all, Resolution.resolve_cached.
  pose proof (get_from_cache_settings self h t_get) as [He1 _].
  destruct (Resolution._enable_cache self) eqn:He.
  - destruct (Resolution._get_from_cache self h t_get) as [[r|] self1]; cbn [fst snd] in *.
    + done.
    + unfold Resolution.resolve_lookup. destruct (dns h family) as [info|e]; [|done].
      pose proof (collect_addresses_spec info) as (_ & _ & _ & Hhead).
      cbn [fst snd]. split; [done|].
      destruct (Resolution.collect_addresses info []) as [|first more];
        destruct (Resolution.sa_host <$> info) as [|ip ips]; try done.
      cbn [head] in *. injection Hhead as ->. intros ->. by rewrite He1.
  - cbn [fst snd]. unfold Resolution.resolve_lookup. destruct (dns h family) as [info|e]; [|done].
    pose proof (collect_addresses_spec info) as (_ & _ & _ & Hhead).
    cbn [fst snd]. split; [done|].
    destruct (Resolution.collect_addresses info []) as [|first more];
      destruct (Resolution.sa_host <$> info) as [|ip ips]; try done.
    cbn [head] in *. injection Hhead as ->. rewrite He. by rewrite andb_false_r.
Qed.

Section BatchSingle.
Import Py Resolution.
Context (hostnames : list string) (family : AddressFamily).

Lemma steps_for_task h sched e :
  e ∈ steps_for hostnames h sched -> hostnames !! ev_task e = Some h.
Proof. unfold steps_for. rewrite list_elem_of_filter. by intros [? _]. Qed.

(** The first two steps of a task resolve its hostname. *)
Lemma first_two_steps self tasks i h e1 e2 :
  hostnames !! i = Some h ->
  tasks !! i = Some Queued ->
  ev_task e1 = i -> ev_task e2 = i ->
  (step hostnames family (step hostnames family (tasks, self) e1) e2).1 !! i =
    Some (Done (resolve self h family (ev_now e1) (ev_dns e2) (ev_now e2)).1).
Proof.
  intros Hh Ht H1 H2.
  pose proof (task_runs_resolve family self h (ev_now e1) (ev_dns e1) (ev_now e2) (ev_dns e2))
    as Hres.
  unfold step at 2. cbn [fst snd]. rewrite H1, Hh, Ht.
  destruct (step_task self h family Queued (ev_now e1) (ev_dns e1)) as [t1 s1].
  unfold step. cbn [fst snd]. rewrite H2, Hh.
  assert (i < length tasks)%nat as Hlt by (by eapply lookup_lt_Some).
  rewrite list_lookup_insert_eq by done.
  rewrite Hres. cbn [fst]. rewrite list_lookup_insert_eq; [done|].
  by rewrite length_insert.
Qed.

Lemma first_step self tasks i h e1 :
  hostnames !! i = Some h ->
  tasks !! i = Some Queued ->
  ev_task e1 = i ->
  (step hostnames family (tasks, self) e1).1 !! i =
    Some (match (resolve_cached self h (ev_now e1)).1 with
          | Some ip => Done (Some ip)
          | None => Looking
          end).
Proof.
  intros Hh Ht H1. unfold step. cbn [fst snd]. rewrite H1, Hh, Ht.
  assert (i < length tasks)%nat as Hlt by (by eapply lookup_lt_Some).
  cbn [step_task].
  destruct (resolve_cached self h (ev_now e1)) as [[ip|] self1]; cbn [fst snd];
    by rewrite list_lookup_insert_eq.
Qed.

Lemma resolve_of_cached self h t_get dns t_store ip :
  (resolve_cached self h t_get).1 = Some ip ->
  (resolve self h family t_get dns t_store).1 = Some ip.
Proof.
  unfold resolve. by destruct (resolve_cached self h t_get) as [[ip'|] self1]; cbn; intros [= ->].
Qed.

End BatchSingle.

(** X24. In [batch_resolve], for a schedule that runs the tasks to their
    end, the entry of a hostname that occurs once in the input is what
    [resolve] returns for it from the resolver as it was at the call, with
    the clock of the task's first step for the cache lookup and the name
    service and clock of its second step (if it takes one) for the lookup
    and the store: what the other tasks do does not reach it. *)
Theorem batch_resolve_entry_of_single_task
    (self : Resolution.DNSResolver) (hostnames : list string)
    (family : Resolution.AddressFamily) (max_workers : Z)
    (sched : list Resolution.event) (order : list nat)
    (i : nat) (h : string) (e1 : Resolution.event) (rest : list Resolution.event) :
  0 < max_workers ->
  Resolution.completes self hostnames family sched ->
  hostnames !! i = Some h ->
  (∀ j, hostnames !! j = Some h -> j = i) ->
  Resolution.steps_for hostnames h sched = e1 :: rest ->
  i ∈ order ->
  let e2 := default e1 (head rest) in
  ∃ results,
    (Resolution.batch_resolve self hostnames family max_workers sched order).1
      = Py.Return results ∧
    results !! h =
      Some (Resolution.resolve self h family
              (Resolution.ev_now e1) (Resolution.ev_dns e2) (Resolution.ev_now e2)).1.
Proof.
  intros Hworkers Hdone Hh Huniq Hsteps Hi e2.
  unfold Resolution.batch_resolve. rewrite (proj2 (Z.leb_gt _ _)) by done.
  unfold Resolution.completes in Hdone.
  set (start := (replicate (length hostnames) Resolution.Queued, self)) in *.
  set (v := (Resolution.resolve self h family
               (Resolution.ev_now e1) (Resolution.ev_dns e2) (Resolution.ev_now e2)).1).
  assert (i < length hostnames)%nat as Hlt by (by eapply lookup_lt_Some).
  assert (Resolution.ev_task e1 = i) as H1.
  { apply Huniq, (steps_for_task hostnames h sched). rewrite Hsteps. by left. }
  assert ((Resolution.run hostnames family sched start).1 !! i = Some (Resolution.Done v))
    as Htask.
  { pose proof (run_steps_for hostnames family h sched start start) as [Htasks _].
    { split; [done|apply agree_on_refl]. }
    pose proof (Htasks i Hh) as Hsame. rewrite Hsteps in Hsame.
    destruct rest as [|e2' rest'].
    - (* a single step: the task is done only after a cache hit *)
      assert (is_Some ((Resolution.run hostnames family sched start).1 !! i)) as [t Ht].
      { apply lookup_lt_is_Some. rewrite run_length. unfold start. simpl.
        by rewrite length_replicate. }
      pose proof (Forall_lookup_1 _ _ _ _ Hdone Ht) as Hfin.
      rewrite Ht in Hsame. rewrite Ht.
      change (Resolution.run hostnames family [e1] start)
        with (Resolution.step hostnames family start e1) in Hsame.
      unfold start in Hsame.
      rewrite (first_step hostnames family self _ i h e1 Hh) in Hsame;
        [|by apply lookup_replicate_2|done].
      injection Hsame as ->.
      destruct (Resolution.resolve_cached self h (Resolution.ev_now e1)).1 as [ip|] eqn:Hc;
        [|done].
      unfold v. by rewrite (resolve_of_cached family self h _ _ _ ip Hc).
    - rewrite Hsame, !run_cons. apply run_keeps_done.
      assert (Resolution.ev_task e2' = i) as H2.
      { apply Huniq, (steps_for_task hostnames h sched). rewrite Hsteps. right. by left. }
      apply first_two_steps; [done| |done|done].
      by apply lookup_replicate_2. }
  destruct (Resolution.run hostnames family sched start) as [tasks self'].
  cbn [fst snd] in *. eexists. split; [done|].
  destruct (collect_from_is_Some hostnames tasks order ∅ h) as [v' Hv'].
  { right. by exists i, v. }
  unfold Resolution.collect_results. rewrite Hv'.
  apply collect_from_lookup in Hv' as [Hv'|(j & _ & Hj & Ht)]; [done|].
  rewrite (Huniq j Hj) in Ht. congruence.
Qed.

Lemma batch_resolve_entry_of_single_task_witness :
  let e := λ i, {| Resolution.ev_task := i; Resolution.ev_now := 1000;
                   Resolution.ev_dns := Resolution.Scenario.dns |} in
  Resolution.completes Resolution.Scenario.resolver ["example.test"; "missing.test"]
    Resolution.AF_UNSPEC [e 0%nat; e 1%nat; e 1%nat; e 0%nat] ∧
  ∃ results,
    (Resolution.batch_resolve Resolution.Scenario.resolver ["example.test"; "missing.test"]
       Resolution.AF_UNSPEC 2 [e 0%nat; e 1%nat; e 1%nat; e 0%nat] [1; 0]%nat).1
      = Py.Return results ∧
    results !! "example.test" = Some (Some "93.184.216.34").
Proof.
  intros e.
  assert (Resolution.completes Resolution.Scenario.resolver ["example.test"; "missing.test"]
            Resolution.AF_UNSPEC [e 0%nat; e 1%nat; e 1%nat; e 0%nat]) as Hdone.
  { unfold Resolution.completes. vm_compute. repeat constructor. }
  split; [exact Hdone|].
  exact (batch_resolve_entry_of_single_task Resolution.Scenario.resolver
           ["example.test"; "missing.test"] Resolution.AF_UNSPEC 2
           [e 0%nat; e 1%nat; e 1%nat; e 0%nat] [1; 0]%nat 0%nat "example.test"
           (e 0%nat) [e 0%nat]
           ltac:(lia) Hdone eq_refl
           ltac:(intros [|[|j]] Hj; [done|done|done])
           eq_refl
           ltac:(right; left)).
Defined.
